(** * pogs: sparse matrix storage, multiply and equilibration

    A shallow embedding of [src/cpu/matrix/matrix_sparse.cpp]
    (class [MatrixSparse<T>]) and of the helper headers it calls.

    The template parameter [T] (float or double) is taken to be the field of
    real numbers: every statement below is a statement in exact arithmetic.
    [POGS_INT] dimensions, offsets and indices are natural numbers.  Raw
    buffers are lists; reading past the end of a list yields 0 and writing
    past the end does nothing (both are undefined behaviour in the source). *)

From Stdlib Require Import Reals Lra Lia List ZArith Bool Ascii Permutation.
Import ListNotations.
Open Scope R_scope.

(** ** Loops and buffers *)

(** [for (t = lo; t < lo + cnt; ++t) s = body t s]. *)
Fixpoint for_loop {St : Type} (lo cnt : nat) (body : nat -> St -> St) (s : St)
  : St :=
  match cnt with
  | O => s
  | S k => for_loop (S lo) k body (body lo s)
  end.

(** [for (t = lo; t < hi; ++t)]: no iteration when [hi <= lo]. *)
Definition for_range {St : Type} (lo hi : nat) (body : nat -> St -> St)
  (s : St) : St :=
  for_loop lo (hi - lo) body s.

(** [l[i] = v]. *)
Fixpoint upd {X : Type} (i : nat) (v : X) (l : list X) : list X :=
  match l, i with
  | [], _ => []
  | _ :: t, O => v :: t
  | h :: t, S j => h :: upd j v t
  end.

(** [memcpy] of [k] cells out of [l]. *)
Definition take_pad {X : Type} (dflt : X) (k : nat) (l : list X) : list X :=
  map (fun i => nth i l dflt) (seq 0 k).

(** [std::transform(p, p + k, p, f)]. *)
Definition transform_first (k : nat) (f : R -> R) (l : list R) : list R :=
  map f (firstn k l) ++ skipn k l.

(** ** Process outcome: a failed assertion terminates the program *)

Inductive Outcome (X : Type) : Type :=
| Fatal : Outcome X
| Done : X -> Outcome X.
Arguments Fatal {X}.
Arguments Done {X} _.

Definition bind {X Y : Type} (c : Outcome X) (k : X -> Outcome Y) : Outcome Y :=
  match c with
  | Fatal => Fatal
  | Done x => k x
  end.

Notation "x <- c ;; k" := (bind c (fun x => k))
  (at level 61, c at next level, right associativity).
Notation "c ;;; k" := (bind c (fun _ => k))
  (at level 61, right associativity).

(** ** util.h *)

(** Modelled from the spec: the macro [ASSERT] of util.h (not part of the
    translated file).  An invalid argument is "checked via assertion and fatal
    in debug builds" and "reject[ed] outright in release builds": a failing
    [ASSERT] ends the call in every build. *)
Definition ASSERT (c : bool) : Outcome unit :=
  if c then Done tt else Fatal.

(** Modelled from the spec: the macro [DEBUG_ASSERT] of util.h.  It is an
    [ASSERT] in a debug build ([DEBUG] defined) and expands to nothing in a
    release build, where the explicit status return that follows it in the
    source takes over. *)
Definition DEBUG_ASSERT (DEBUG : bool) (c : bool) : Outcome unit :=
  if DEBUG then ASSERT c else Done tt.

(** ** equil_helper.h: norm kinds and element functors *)

(** Modelled from the spec: the enumeration [NormTypes] (1-norm, 2-norm,
    Frobenius), declared in equil_helper.h. *)
Inductive NormTypes : Type := kNorm1 | kNorm2 | kNormFro.

Definition NormTypes_eqb (a b : NormTypes) : bool :=
  match a, b with
  | kNorm1, kNorm1 | kNorm2, kNorm2 | kNormFro, kNormFro => true
  | _, _ => false
  end.

(** File scoped constants. *)
Definition kNormEquilibrate : NormTypes := kNorm2.
Definition kNormNormalize : NormTypes := kNormFro.

(** Modelled from the spec: the functors [SquareF], [AbsF], [SqrtF] and
    [IdentityF] of equil_helper.h ("square", "absolute value", "square-root",
    "identity"). *)
Definition SquareF (x : R) : R := x * x.
Definition AbsF (x : R) : R := Rabs x.
Definition SqrtF (x : R) : R := sqrt x.
Definition IdentityF (x : R) : R := x.

(** [x < 0] as a truth value. *)
Definition Rltb (x y : R) : bool := if Rlt_dec x y then true else false.

(** ** equil_helper.h: the sign codec *)

Definition SignState : Type := (list R * list Z)%type.

(** Modelled from the spec: [SetSign] of equil_helper.h, the bulk path of
    "ExtractAndTransform".  Byte [t] of the side buffer covers entries
    [8 t .. 8 t + 7]: "for each entry, record its sign as one bit
    (0 = nonnegative, 1 = negative) in a packed side buffer, then overwrite
    the entry with transform(|value|)". *)
Definition SetSign (f : R -> R) (size : nat) (st : SignState) : SignState :=
  for_loop 0 size (fun t st =>
    let '(x, sign) := st in
    for_loop 0 8 (fun i st =>
      let '(x, sign) := st in
      let v := nth (8 * t + i) x 0 in
      (upd (8 * t + i) (f (Rabs v)) x,
       upd t (Z.lor (nth t sign 0%Z)
                    (Z.shiftl (Z.b2z (Rltb v 0)) (Z.of_nat i))) sign))
      (x, upd t 0%Z sign)) st.

(** Modelled from the spec: [SetSignSingle], the "element-wise fallback
    path" for the last [bits < 8] entries, which start at [x + xo] and share
    the byte [sign + so]. *)
Definition SetSignSingle (f : R -> R) (xo so bits : nat) (st : SignState)
  : SignState :=
  let '(x, sign) := st in
  for_loop 0 bits (fun i st =>
    let '(x, sign) := st in
    let v := nth (xo + i) x 0 in
    (upd (xo + i) (f (Rabs v)) x,
     upd so (Z.lor (nth so sign 0%Z)
                   (Z.shiftl (Z.b2z (Rltb v 0)) (Z.of_nat i))) sign))
    (x, upd so 0%Z sign).

(** The factor [1 - 2 * bit] read back from bit [i] of a sign byte. *)
Definition sign_factor (byte : Z) (i : nat) : R :=
  IZR (1 - 2 * Z.land (Z.shiftr byte (Z.of_nat i)) 1).

(** Modelled from the spec: [UnSetSign], the bulk path of "RestoreWithSign":
    "restore the sign bit and apply a second transform". *)
Definition UnSetSign (f : R -> R) (size : nat) (sign : list Z) (x : list R)
  : list R :=
  for_loop 0 size (fun t x =>
    for_loop 0 8 (fun i x =>
      upd (8 * t + i)
          (sign_factor (nth t sign 0%Z) i * f (nth (8 * t + i) x 0)) x) x) x.

(** Modelled from the spec: [UnSetSignSingle], the element-wise path of
    "RestoreWithSign" for the last [bits] entries. *)
Definition UnSetSignSingle (f : R -> R) (xo so bits : nat) (sign : list Z)
  (x : list R) : list R :=
  for_loop 0 bits (fun i x =>
    upd (xo + i) (sign_factor (nth so sign 0%Z) i * f (nth (xo + i) x 0)) x) x.

(** ** gsl: vectors and BLAS level 1 *)

(** Modelled from the spec: [gsl::blas_nrm2], "the square-root-of-sum-of-squares
    definition" of the 2-norm of a vector. *)
Definition sum_squares (l : list R) : R :=
  fold_right (fun v acc => v * v + acc) 0 l.

Definition blas_nrm2 (l : list R) : R := sqrt (sum_squares l).

(** Modelled from the spec: [gsl::vector_scale] on a view of the first [k]
    cells, "scale every physical value by" the factor. *)
Definition vector_scale (k : nat) (c : R) (l : list R) : list R :=
  transform_first k (fun v => v * c) l.

(** ** The matrix object *)

Inductive Ord : Type := ROW | COL.

Record CpuData : Type := mkCpuData {
  orig_data : list R;
  orig_ptr : list nat;
  orig_ind : list nat
}.

(** Fields of [Matrix<T>] ([_m], [_n], [_info], [_done_init]) and of
    [MatrixSparse<T>], as the member functions use them (the class
    declarations are in matrix.h and matrix_sparse.h).  A null buffer pointer
    is the empty list. *)
Record MatrixSparse : Type := mkMatrixSparse {
  _m : nat;
  _n : nat;
  _info : CpuData;
  _done_init : bool;
  _data : list R;
  _ptr : list nat;
  _ind : list nat;
  _nnz : nat;
  _ord : Ord
}.

Definition set_data (A : MatrixSparse) (data : list R) : MatrixSparse :=
  mkMatrixSparse (_m A) (_n A) (_info A) (_done_init A) data (_ptr A) (_ind A)
                 (_nnz A) (_ord A).

(** Length of the first offset array of the dual storage. *)
Definition primary_dim (A : MatrixSparse) : nat :=
  match _ord A with ROW => _m A | COL => _n A end.

Definition secondary_dim (A : MatrixSparse) : nat :=
  match _ord A with ROW => _n A | COL => _m A end.

(** ** gsl: compressed sparse storage *)

Definition Entry : Type := (nat * nat * R)%type.

(** The cells [ptr[t] .. ptr[t + 1] - 1] of bucket [t] of a compressed half
    whose offset array starts at [ptr + po] and whose indices and values start
    at [ind + io] and [val + io]: (bucket, paired index, value). *)
Definition bucket (po io : nat) (ptr ind : list nat) (val : list R) (t : nat)
  : list Entry :=
  map (fun i => (t, nth (io + i) ind 0%nat, nth (io + i) val 0))
      (seq (nth (po + t) ptr 0%nat)
           (nth (po + t + 1) ptr 0%nat - nth (po + t) ptr 0%nat)).

Definition entries (po io : nat) (ptr ind : list nat) (val : list R)
  (size : nat) : list Entry :=
  flat_map (bucket po io ptr ind val) (seq 0 size).

Definition paired_index (e : Entry) : nat := snd (fst e).
Definition bucket_index (e : Entry) : nat := fst (fst e).
Definition entry_value (e : Entry) : R := snd e.

(** The running sums [acc; acc + c0; acc + c0 + c1; ...]. *)
Fixpoint prefix_sums (acc : nat) (counts : list nat) : list nat :=
  match counts with
  | [] => [acc]
  | c :: cs => acc :: prefix_sums (acc + c) cs
  end.

(** Modelled from the spec: the counting pass of the conversion, "compute
    per-row/per-column counts": one counter per bucket of the opposite
    orientation, incremented for each paired index [ind[0 .. nnz - 1]]. *)
Definition count_indices (nnz S : nat) (ind : list nat) : list nat :=
  for_loop 0 nnz
    (fun i cnt =>
       upd (nth i ind 0%nat) (nth (nth i ind 0%nat) cnt 0 + 1)%nat cnt)
    (repeat 0%nat S).

(** Modelled from the spec: "prefix-sum into offsets", an offset array of
    [S + 1] cells. *)
Definition offsets_of_counts (S : nat) (cnt : list nat) : list nat :=
  for_loop 0 S
    (fun s ptr => upd (s + 1) (nth s ptr 0 + nth s cnt 0)%nat ptr)
    (repeat 0%nat (S + 1)).

(** A cursor per bucket, and the values and indices of the half being
    built. *)
Definition ScatterState : Type := (list nat * list R * list nat)%type.

(** One entry is written at the cursor of its bucket, which then advances. *)
Definition scatter_entry (e : Entry) (st : ScatterState) : ScatterState :=
  let '(cursor, val2, ind2) := st in
  let l := nth (paired_index e) cursor 0%nat in
  (upd (paired_index e) (l + 1)%nat cursor,
   upd l (entry_value e) val2,
   upd l (bucket_index e) ind2).

(** Modelled from the spec: "scatter values/indices", a traversal of the
    supplied half bucket by bucket, the cursors starting at the offsets. *)
Definition scatter (P nnz : nat) (val : list R) (ind ptr ptr2 : list nat)
  : ScatterState :=
  for_loop 0 P (fun t st =>
    for_range (nth t ptr 0%nat) (nth (t + 1) ptr 0%nat)
      (fun i st => scatter_entry (t, nth i ind 0%nat, nth i val 0) st) st)
    (ptr2, repeat 0 nnz, repeat 0%nat nnz).

(** Modelled from the spec: [gsl::spmat_memcpy] of gsl_spmat.h.  "For the
    supplied orientation, copy values/indices/offsets directly into the
    matching half; for the opposite orientation, perform a counting-sort-style
    conversion (compute per-row/per-column counts, prefix-sum into offsets,
    scatter values/indices) to populate the other half with correctly
    sorted-within-bucket entries."  [P] is the number of buckets of the
    supplied orientation and [S] that of the opposite one.  The result is the
    triple of buffers (values, indices, offsets). *)
Definition spmat_memcpy (P S nnz : nat) (val : list R) (ind ptr : list nat)
  : list R * list nat * list nat :=
  let val1 := take_pad 0 nnz val in
  let ind1 := take_pad 0%nat nnz ind in
  let ptr1 := take_pad 0%nat (P + 1) ptr in
  let ptr2 := offsets_of_counts S (count_indices nnz S ind1) in
  let st := scatter P nnz val1 ind1 ptr1 ptr2 in
  (val1 ++ snd (fst st), ind1 ++ snd st, ptr1 ++ ptr2).

Inductive CBLAS_TRANSPOSE_t : Type := CblasNoTrans | CblasTrans.

Record vector : Type := vector_view_array { vdata : list R; vsize : nat }.

(** Modelled from the spec: [gsl::spblas_gemv] of gsl_spblas.h,
    "y := alpha*op(A)*x + beta*y".  "An untransposed multiply on a row-ordered
    matrix walks the row-compressed half directly; a transposed multiply on
    the same matrix walks the column-compressed half directly": the half whose
    buckets are the cells of [y] is traversed, bucket [t] accumulating
    [val * x[ind]]. *)
Definition spblas_gemv (O : Ord) (op : CBLAS_TRANSPOSE_t) (alpha : R)
  (m n nnz : nat) (val : list R) (ind ptr : list nat) (x : vector) (beta : R)
  (y : vector) : list R :=
  let second :=
    match O, op with
    | ROW, CblasNoTrans | COL, CblasTrans => false
    | _, _ => true
    end in
  let po := if second then (match O with ROW => m | COL => n end + 1)%nat
            else 0%nat in
  let io := if second then nnz else 0%nat in
  let xs := firstn (vsize x) (vdata x) in
  for_loop 0 (vsize y) (fun t yd =>
    let tmp :=
      for_range (nth (po + t) ptr 0%nat) (nth (po + t + 1) ptr 0%nat)
        (fun i acc =>
           acc + nth (io + i) val 0 * nth (nth (io + i) ind 0%nat) xs 0)
        0 in
    upd t (alpha * tmp + beta * nth t yd 0) yd) (vdata y).

(** ** matrix_sparse.cpp *)

Definition is_char (c : ascii) (s : ascii) : bool := Ascii.eqb c s.

Definition OpToCblasOp (trans : ascii) : Outcome CBLAS_TRANSPOSE_t :=
  ASSERT (is_char trans "n" || is_char trans "N" || is_char trans "t"
          || is_char trans "T") ;;;
  Done (if is_char trans "n" || is_char trans "N" then CblasNoTrans
        else CblasTrans).

(** The constructor [MatrixSparse(ord, m, n, nnz, data, ptr, ind)]. *)
Definition MatrixSparse_new (ord : ascii) (m n nnz : nat) (data : list R)
  (ptr ind : list nat) : Outcome MatrixSparse :=
  ASSERT (is_char ord "r" || is_char ord "R" || is_char ord "c"
          || is_char ord "C") ;;;
  Done (mkMatrixSparse m n (mkCpuData data ptr ind) false [] [] [] nnz
          (if is_char ord "r" || is_char ord "R" then ROW else COL)).

(** The copy constructor [MatrixSparse(const MatrixSparse<T>& A)]: the
    dimensions, [nnz] and the order of [A], null buffers, and a new
    [CpuData] with the three borrowed pointers of [A]'s; [Matrix<T>(m, n)]
    leaves [_done_init] false, as in the constructor above. *)
Definition MatrixSparse_copy (A : MatrixSparse) : MatrixSparse :=
  let info_A := _info A in
  mkMatrixSparse (_m A) (_n A)
    (mkCpuData (orig_data info_A) (orig_ptr info_A) (orig_ind info_A))
    false [] [] [] (_nnz A) (_ord A).

(** Performs D * A * E for A in row major. *)
Definition MultRow (d e : list R) (io po : nat) (data : list R)
  (row_ptr col_ind : list nat) (size : nat) : list R :=
  for_loop 0 size (fun t data =>
    for_range (nth (po + t) row_ptr 0%nat) (nth (po + t + 1) row_ptr 0%nat)
      (fun i data =>
         upd (io + i)
             (nth (io + i) data 0
              * (nth t d 0 * nth (nth (io + i) col_ind 0%nat) e 0)) data)
      data) data.

(** Performs D * A * E for A in col major. *)
Definition MultCol (d e : list R) (io po : nat) (data : list R)
  (col_ptr row_ind : list nat) (size : nat) : list R :=
  for_loop 0 size (fun t data =>
    for_range (nth (po + t) col_ptr 0%nat) (nth (po + t + 1) col_ptr 0%nat)
      (fun i data =>
         upd (io + i)
             (nth (io + i) data 0
              * (nth (nth (io + i) row_ind 0%nat) d 0 * nth t e 0)) data)
      data) data.

(** [MultDiag]; the pointer arguments [data + nnz], [ptr + m + 1] and
    [ind + nnz] are the offsets [io] and [po] of [MultRow] and [MultCol]. *)
Definition MultDiag (d e : list R) (m n nnz : nat) (ord : Ord) (data : list R)
  (ind ptr : list nat) : list R :=
  match ord with
  | ROW =>
      let data := MultRow d e 0 0 data ptr ind m in
      MultCol d e nnz (m + 1) data ptr ind n
  | COL =>
      let data := MultCol d e 0 0 data ptr ind n in
      MultRow d e nnz (n + 1) data ptr ind m
  end.

(** [kNormEquilibrate == kNorm2 || kNormEquilibrate == kNormFro]. *)
Definition norm2_or_fro (k : NormTypes) : bool :=
  NormTypes_eqb k kNorm2 || NormTypes_eqb k kNormFro.

(** Lines 162-188 of [Equil]: the sign bits are filled and [A = f(A)].
    The fresh sign buffer is taken zeroed; [SetSign] and [SetSignSingle]
    clear each byte before they fill it. *)
Definition Equil_set_signs (kEq : NormTypes) (num_el : nat) (data : list R)
  : SignState :=
  let num_sign_bytes := ((num_el + 7) / 8)%nat in
  let sign := repeat 0%Z num_sign_bytes in
  let num_chars := (num_el / 8)%nat in
  let st :=
    if norm2_or_fro kEq then SetSign SquareF num_chars (data, sign)
    else SetSign AbsF num_chars (data, sign) in
  if (num_chars * 8 <? num_el)%nat then
    if norm2_or_fro kEq then
      SetSignSingle SquareF (num_chars * 8) num_chars
                    (num_el - num_chars * 8) st
    else
      SetSignSingle AbsF (num_chars * 8) num_chars
                    (num_el - num_chars * 8) st
  else st.

(** Lines 193-210 of [Equil]: [A = sign(A) .* sqrt(A)] or [sign(A) .* A]. *)
Definition Equil_unset_signs (kEq : NormTypes) (num_el : nat) (sign : list Z)
  (data : list R) : list R :=
  let num_chars := (num_el / 8)%nat in
  let data :=
    if norm2_or_fro kEq then UnSetSign SqrtF num_chars sign data
    else UnSetSign IdentityF num_chars sign data in
  if (num_chars * 8 <? num_el)%nat then
    if norm2_or_fro kEq then
      UnSetSignSingle SqrtF (num_chars * 8) num_chars
                      (num_el - num_chars * 8) sign data
    else
      UnSetSignSingle IdentityF (num_chars * 8) num_chars
                      (num_el - num_chars * 8) sign data
  else data.

(** The cells [0 .. k - 1] of an output buffer receive the values [g]. *)
Definition write_first (k : nat) (g : nat -> R) (l : list R) : list R :=
  map g (seq 0 (Nat.min k (length l))) ++ skipn k l.

(** [SinkhornKnopp(A, d, e)] of equil_helper.h is "delegated internally": it
    reads the matrix and the two buffers, leaves the matrix as it is and
    computes the scale factors.  A function of this type gives the values it
    leaves in [d[i]] and in [e[j]]. *)
Definition SinkhornKnopp_t : Type :=
  MatrixSparse -> list R -> list R -> (nat -> R) * (nat -> R).

(** [Norm2Est(&A)] of equil_helper.h, the "power-iteration-based estimate of
    the spectral norm". *)
Definition Norm2Est_t : Type := MatrixSparse -> R.

Section Program.

(** Whether the build defines [DEBUG]. *)
Variable DEBUG : bool.

(** The two routines of equil_helper.h that [Equil] and [NormEst] call. *)
Variable SinkhornKnopp : SinkhornKnopp_t.
Variable Norm2Est : Norm2Est_t.

Definition Init (A : MatrixSparse) : Outcome (Z * MatrixSparse) :=
  DEBUG_ASSERT DEBUG (negb (_done_init A)) ;;;
  if _done_init A then Done (1%Z, A)
  else
    let info := _info A in
    let '(data, ind, ptr) :=
      match _ord A with
      | ROW => spmat_memcpy (_m A) (_n A) (_nnz A) (orig_data info)
                            (orig_ind info) (orig_ptr info)
      | COL => spmat_memcpy (_n A) (_m A) (_nnz A) (orig_data info)
                            (orig_ind info) (orig_ptr info)
      end in
    Done (0%Z, mkMatrixSparse (_m A) (_n A) info true data ptr ind (_nnz A)
                              (_ord A)).

Definition Mul (A : MatrixSparse) (trans : ascii) (alpha : R) (x : list R)
  (beta : R) (y : list R) : Outcome (Z * list R) :=
  DEBUG_ASSERT DEBUG (_done_init A) ;;;
  if negb (_done_init A) then Done (1%Z, y)
  else
    let '(x_vec, y_vec) :=
      if is_char trans "n" || is_char trans "N"
      then (vector_view_array x (_n A), vector_view_array y (_m A))
      else (vector_view_array x (_m A), vector_view_array y (_n A)) in
    op <- OpToCblasOp trans ;;
    Done (0%Z, spblas_gemv (_ord A) op alpha (_m A) (_n A) (_nnz A) (_data A)
                           (_ind A) (_ptr A) x_vec beta y_vec).

(** Estimates norm of A. norm_type should either be kNorm2 or kNormFro. *)
Definition NormEst (norm_type : NormTypes) (A : MatrixSparse) : Outcome R :=
  match norm_type with
  | kNorm2 => Done (Norm2Est A)
  | kNormFro =>
      let a := firstn (_nnz A) (_data A) in
      Done (blas_nrm2 a / sqrt (INR (Nat.min (_m A) (_n A))))
  | kNorm1 =>
      ASSERT false ;;; Done 0
  end.

(** Lines 161-219 of [Equil], with the file scoped constant
    [kNormEquilibrate] as an argument: sign extraction, Sinkhorn-Knopp, sign
    restoration, the square roots of [d] and [e], and [A := D * A * E]. *)
Definition Equil_diag (kEq : NormTypes) (A : MatrixSparse) (d e : list R)
  : MatrixSparse * list R * list R :=
  let num_el := (2 * _nnz A)%nat in
  let st := Equil_set_signs kEq num_el (_data A) in
  let A := set_data A (fst st) in
  let sign := snd st in
  let sk := SinkhornKnopp A d e in
  let d := write_first (_m A) (fst sk) d in
  let e := write_first (_n A) (snd sk) e in
  let A := set_data A (Equil_unset_signs kEq num_el sign (_data A)) in
  let d := if norm2_or_fro kEq then transform_first (_m A) SqrtF d else d in
  let e := if norm2_or_fro kEq then transform_first (_n A) SqrtF e else e in
  let A := set_data A (MultDiag d e (_m A) (_n A) (_nnz A) (_ord A)
                                (_data A) (_ind A) (_ptr A)) in
  (A, d, e).

(** [Equil] with both file scoped norm constants as arguments. *)
Definition Equil_with (kEq kNrm : NormTypes) (A : MatrixSparse)
  (d e : list R) : Outcome (Z * MatrixSparse * list R * list R) :=
  DEBUG_ASSERT DEBUG (_done_init A) ;;;
  if negb (_done_init A) then Done (1%Z, A, d, e)
  else
    let num_el := (2 * _nnz A)%nat in
    let '(A, d, e) := Equil_diag kEq A d e in
    normA <- NormEst kNrm A ;;
    let A := set_data A (vector_scale num_el (1 / normA) (_data A)) in
    let d := vector_scale (_m A) (1 / sqrt normA) d in
    let e := vector_scale (_n A) (1 / sqrt normA) e in
    Done (0%Z, A, d, e).

Definition Equil (A : MatrixSparse) (d e : list R)
  : Outcome (Z * MatrixSparse * list R * list R) :=
  Equil_with kNormEquilibrate kNormNormalize A d e.

(** The successive contents of the matrix during [Equil_with] on an
    initialized matrix: after the sign extraction, after the Sinkhorn-Knopp
    call, after the sign restoration, after [MultDiag], and after the
    division by [normA]. *)
Definition Equil_states (kEq : NormTypes) (normA : R) (A : MatrixSparse)
  (d e : list R) : list MatrixSparse :=
  let num_el := (2 * _nnz A)%nat in
  let st := Equil_set_signs kEq num_el (_data A) in
  let A1 := set_data A (fst st) in
  let A3 := set_data A (Equil_unset_signs kEq num_el (snd st) (fst st)) in
  let A5 := fst (fst (Equil_diag kEq A d e)) in
  let A6 := set_data A5 (vector_scale num_el (1 / normA) (_data A5)) in
  [A1; A1; A3; A5; A6].

End Program.

(** ** Reading the dual storage *)

Definition swap_entry (e : Entry) : Entry :=
  (paired_index e, bucket_index e, entry_value e).

(** The entries of the half stored first, (bucket, paired index, value). *)
Definition first_half (A : MatrixSparse) : list Entry :=
  entries 0 0 (_ptr A) (_ind A) (_data A) (primary_dim A).

(** The entries of the half stored at [data + nnz], [ind + nnz] and
    [ptr + primary + 1]. *)
Definition second_half (A : MatrixSparse) : list Entry :=
  entries (primary_dim A + 1) (_nnz A) (_ptr A) (_ind A) (_data A)
          (secondary_dim A).

(** The (row, column, value) triples of the row-compressed half. *)
Definition row_half_triples (A : MatrixSparse) : list Entry :=
  match _ord A with
  | ROW => first_half A
  | COL => second_half A
  end.

(** The (row, column, value) triples of the column-compressed half. *)
Definition col_half_triples (A : MatrixSparse) : list Entry :=
  map swap_entry
      (match _ord A with
       | ROW => second_half A
       | COL => first_half A
       end).

(** Both halves hold the same multiset of triples. *)
Definition halves_agree (A : MatrixSparse) : Prop :=
  Permutation (row_half_triples A) (col_half_triples A).

(** An offset array of [size] buckets over [nnz] cells, starting at
    [ptr + po]: it starts at 0, ends at [nnz] and does not decrease. *)
Definition offsets_ok (po : nat) (ptr : list nat) (size nnz : nat) : bool :=
  (nth po ptr 0 =? 0)%nat && (nth (po + size) ptr 0 =? nnz)%nat
  && forallb (fun t => nth (po + t) ptr 0 <=? nth (po + t + 1) ptr 0)%nat
             (seq 0 size).

(** The [nnz] paired indices starting at [ind + io] are below [bound]. *)
Definition indices_ok (io : nat) (ind : list nat) (nnz bound : nat) : bool :=
  forallb (fun i => nth (io + i) ind 0 <? bound)%nat (seq 0 nnz).

(** The precondition of the constructor's arguments: "offsets length =
    primary_dim+1, offsets monotonically nondecreasing, indices[i] within
    [0, secondary_dim)", a values and an indices buffer of length [nnz]. *)
Definition valid_input (A : MatrixSparse) : bool :=
  let info := _info A in
  (length (orig_data info) =? _nnz A)%nat
  && (length (orig_ind info) =? _nnz A)%nat
  && (length (orig_ptr info) =? primary_dim A + 1)%nat
  && offsets_ok 0 (orig_ptr info) (primary_dim A) (_nnz A)
  && indices_ok 0 (orig_ind info) (_nnz A) (secondary_dim A).

(** The shape of the three owned buffers of an initialized matrix. *)
Definition storage_ok (A : MatrixSparse) : bool :=
  (length (_data A) =? 2 * _nnz A)%nat
  && (length (_ind A) =? 2 * _nnz A)%nat
  && (length (_ptr A) =? _m A + _n A + 2)%nat
  && offsets_ok 0 (_ptr A) (primary_dim A) (_nnz A)
  && offsets_ok (primary_dim A + 1) (_ptr A) (secondary_dim A) (_nnz A)
  && indices_ok 0 (_ind A) (_nnz A) (secondary_dim A)
  && indices_ok (_nnz A) (_ind A) (_nnz A) (primary_dim A).

(** An initialized matrix: [Init] has run on valid input, possibly followed
    by in-place transforms that keep the two halves in step. *)
Definition Initialized (A : MatrixSparse) : Prop :=
  _done_init A = true /\ storage_ok A = true /\ halves_agree A.

(** ** Dense reference *)

(** Entry (i, j) of the matrix denoted by a list of triples. *)
Definition dense_entry (E : list Entry) (i j : nat) : R :=
  fold_right (fun e acc =>
                if (bucket_index e =? i)%nat && (paired_index e =? j)%nat
                then entry_value e + acc else acc) 0 E.

Definition Rsum (l : list R) : R := fold_right Rplus 0 l.

(** [A x]: cell [i] is the sum over the columns [j] of [A(i, j) * x[j]]. *)
Definition dense_mul (E : list Entry) (rows cols : nat) (x : list R)
  : list R :=
  map (fun i =>
         Rsum (map (fun j => dense_entry E i j * nth j x 0) (seq 0 cols)))
      (seq 0 rows).

(** [A^T x]: cell [j] is the sum over the rows [i] of [A(i, j) * x[i]]. *)
Definition dense_mul_t (E : list Entry) (rows cols : nat) (x : list R)
  : list R :=
  map (fun j =>
         Rsum (map (fun i => dense_entry E i j * nth i x 0) (seq 0 rows)))
      (seq 0 cols).

(** [alpha * v + beta * y], cell by cell. *)
Definition axpby (alpha : R) (v : list R) (beta : R) (y : list R) : list R :=
  map (fun p => alpha * fst p + beta * snd p) (combine v y).

(** [diag(d) * E * diag(e)] on (row, column, value) triples. *)
Definition scale_triples (d e : list R) (E : list Entry) : list Entry :=
  map (fun t => (bucket_index t, paired_index t,
                 nth (bucket_index t) d 0 * entry_value t
                 * nth (paired_index t) e 0)) E.

(** ** Auxiliary notions used in the statements *)

(** The properties of the state produced by one byte of sign extraction:
    the cells [xo .. xo + bits - 1] are transformed, byte [so] holds their
    signs and every other byte is untouched. *)
Definition byte_filled (f : R -> R) (xo so bits : nat) (x : list R)
  (sign : list Z) (r : SignState) : Prop :=
  length (fst r) = length x /\ length (snd r) = length sign /\
  (forall k, (k < length x)%nat ->
     nth k (fst r) 0 = if ((xo <=? k) && (k <? xo + bits))%nat
                       then f (Rabs (nth k x 0)) else nth k x 0) /\
  (forall t, t <> so -> nth t (snd r) 0%Z = nth t sign 0%Z) /\
  (forall j, Z.testbit (nth so (snd r) 0%Z) (Z.of_nat j)
             = (j <? bits)%nat && Rltb (nth (xo + j) x 0) 0).

Definition signs_filled (f : R -> R) (cells : nat) (x : list R)
  (sign : list Z) (r : SignState) : Prop :=
  length (fst r) = length x /\ length (snd r) = length sign /\
  (forall k, (k < length x)%nat ->
     nth k (fst r) 0 = if (k <? cells)%nat then f (Rabs (nth k x 0))
                       else nth k x 0) /\
  (forall k, (k < cells)%nat ->
     Z.testbit (nth (k / 8) (snd r) 0%Z) (Z.of_nat (k mod 8))
     = Rltb (nth k x 0) 0).

(** The contents of the value buffer after sign restoration. *)
Definition signs_restored (g : R -> R) (cells : nat) (sign : list Z)
  (x r : list R) : Prop :=
  length r = length x /\
  forall k, (k < length x)%nat ->
    nth k r 0 = if (k <? cells)%nat
                then sign_factor (nth (k / 8) sign 0%Z) (k mod 8)
                     * g (nth k x 0)
                else nth k x 0.

(** The functor applied on extraction and the one applied on restoration. *)
Definition forward_functor (kEq : NormTypes) : R -> R :=
  if norm2_or_fro kEq then SquareF else AbsF.

Definition backward_functor (kEq : NormTypes) : R -> R :=
  if norm2_or_fro kEq then SqrtF else IdentityF.

(** The loop nest shared by [MultRow] and [MultCol]: the value of the cell
    with paired index [c] in bucket [t] is multiplied by [fac t c]. *)
Definition mult_half (fac : nat -> nat -> R) (io po : nat) (data : list R)
  (ptr ind : list nat) (size : nat) : list R :=
  for_loop 0 size (fun t data =>
    for_range (nth (po + t) ptr 0%nat) (nth (po + t + 1) ptr 0%nat)
      (fun i data =>
         upd (io + i)
             (nth (io + i) data 0 * fac t (nth (io + i) ind 0%nat)) data)
      data) data.

Definition scale_entry (fac : nat -> nat -> R) (e : Entry) : Entry :=
  (bucket_index e, paired_index e,
   entry_value e * fac (bucket_index e) (paired_index e)).

(** The offsets [ptr[po] .. ptr[po + size]] do not decrease. *)
Definition monotone (po : nat) (ptr : list nat) (size : nat) : Prop :=
  forall t, (t < size)%nat ->
    (nth (po + t) ptr 0 <= nth (po + t + 1) ptr 0)%nat.

Definition on_value (f : R -> R) (e : Entry) : Entry :=
  (bucket_index e, paired_index e, f (entry_value e)).

Record storage_shape (A : MatrixSparse) : Prop := {
  shape_data : length (_data A) = (2 * _nnz A)%nat;
  shape_ind : length (_ind A) = (2 * _nnz A)%nat;
  shape_ptr : length (_ptr A) = (_m A + _n A + 2)%nat;
  shape_first0 : nth 0 (_ptr A) 0%nat = 0%nat;
  shape_first1 : nth (primary_dim A) (_ptr A) 0%nat = _nnz A;
  shape_first_mono : monotone 0 (_ptr A) (primary_dim A);
  shape_second0 : nth (primary_dim A + 1) (_ptr A) 0%nat = 0%nat;
  shape_second1 :
    nth (primary_dim A + 1 + secondary_dim A) (_ptr A) 0%nat = _nnz A;
  shape_second_mono : monotone (primary_dim A + 1) (_ptr A) (secondary_dim A);
  shape_first_ind :
    forall i, (i < _nnz A)%nat -> (nth i (_ind A) 0 < secondary_dim A)%nat;
  shape_second_ind :
    forall i, (i < _nnz A)%nat ->
      (nth (_nnz A + i) (_ind A) 0 < primary_dim A)%nat
}.

(** The (row, column, value) triples of the caller's compressed input. *)
Definition input_triples (A : MatrixSparse) : list Entry :=
  let info := _info A in
  match _ord A with
  | ROW => entries 0 0 (orig_ptr info) (orig_ind info) (orig_data info) (_m A)
  | COL => map swap_entry
             (entries 0 0 (orig_ptr info) (orig_ind info) (orig_data info)
                      (_n A))
  end.

(** The inner product accumulated by [spblas_gemv] for the cell [t] of [y],
    read off a list of (bucket, paired index, value) entries. *)
Definition bucket_dot (E : list Entry) (t : nat) (x : list R) : R :=
  Rsum (map (fun e => if (bucket_index e =? t)%nat
                      then entry_value e * nth (paired_index e) x 0
                      else 0) E).

(** The scale vectors [d] and [e] as [Equil] passes them to [MultDiag]. *)
Definition Equil_scales (SinkhornKnopp : SinkhornKnopp_t)
  (kEq : NormTypes) (A : MatrixSparse) (d e : list R) : list R * list R :=
  let st := Equil_set_signs kEq (2 * _nnz A) (_data A) in
  let sk := SinkhornKnopp (set_data A (fst st)) d e in
  let d := write_first (_m A) (fst sk) d in
  let e := write_first (_n A) (snd sk) e in
  (if norm2_or_fro kEq then transform_first (_m A) SqrtF d else d,
   if norm2_or_fro kEq then transform_first (_n A) SqrtF e else e).

(** The Frobenius-convention estimate of line 254. *)
Definition fro_estimate (A : MatrixSparse) : R :=
  blas_nrm2 (firstn (_nnz A) (_data A)) / sqrt (INR (Nat.min (_m A) (_n A))).

(** [Equil] as the fixed constants leave it: the square on extraction, the
    square root on restoration and on [d] and [e], the Frobenius-convention
    estimate for the final division; no test of a norm kind remains. *)
Definition Equil_square_path (DEBUG : bool)
  (SinkhornKnopp : SinkhornKnopp_t) (A : MatrixSparse) (d e : list R)
  : Outcome (Z * MatrixSparse * list R * list R) :=
  DEBUG_ASSERT DEBUG (_done_init A) ;;;
  if negb (_done_init A) then Done (1%Z, A, d, e)
  else
    let num_el := (2 * _nnz A)%nat in
    let num_chars := (num_el / 8)%nat in
    let tail := (num_chars * 8 <? num_el)%nat in
    let st := SetSign SquareF num_chars
                (_data A, repeat 0%Z ((num_el + 7) / 8)) in
    let st := if tail then SetSignSingle SquareF (num_chars * 8) num_chars
                             (num_el - num_chars * 8) st
              else st in
    let sk := SinkhornKnopp (set_data A (fst st)) d e in
    let d := write_first (_m A) (fst sk) d in
    let e := write_first (_n A) (snd sk) e in
    let data := UnSetSign SqrtF num_chars (snd st) (fst st) in
    let data := if tail then UnSetSignSingle SqrtF (num_chars * 8) num_chars
                               (num_el - num_chars * 8) (snd st) data
                else data in
    let d := transform_first (_m A) SqrtF d in
    let e := transform_first (_n A) SqrtF e in
    let data := MultDiag d e (_m A) (_n A) (_nnz A) (_ord A) data (_ind A)
                         (_ptr A) in
    let normA := blas_nrm2 (firstn (_nnz A) data)
                 / sqrt (INR (Nat.min (_m A) (_n A))) in
    Done (0%Z, set_data A (vector_scale num_el (1 / normA) data),
          vector_scale (_m A) (1 / sqrt normA) d,
          vector_scale (_n A) (1 / sqrt normA) e).

(** The scenario of the specification: the 2 x 2 matrix with rows
    (4, 2) and (0, 3), as the constructor receives it and as [Init]
    leaves it. *)
Definition scenario_input : MatrixSparse :=
  mkMatrixSparse 2 2 (mkCpuData [4; 2; 3] [0; 2; 3]%nat [0; 1; 1]%nat) false
                 [] [] [] 3 ROW.

Definition scenario_matrix : MatrixSparse :=
  mkMatrixSparse 2 2 (mkCpuData [4; 2; 3] [0; 2; 3]%nat [0; 1; 1]%nat) true
                 [4; 2; 3; 4; 2; 3] [0; 2; 3; 0; 1; 3]%nat
                 [0; 1; 1; 0; 0; 1]%nat 3 ROW.

(** A 1 x 1 matrix without stored entries, as the constructor receives it
    and as [Init] leaves it. *)
Definition empty_input : MatrixSparse :=
  mkMatrixSparse 1 1 (mkCpuData [] [0; 0]%nat []) false [] [] [] 0 ROW.

Definition empty_matrix : MatrixSparse :=
  mkMatrixSparse 1 1 (mkCpuData [] [0; 0]%nat []) true [] [0; 0; 0; 0]%nat []
                 0 ROW.

(** A Sinkhorn-Knopp stand-in that leaves every scale factor at 1. *)
Definition unit_scales (A : MatrixSparse) (d e : list R)
  : (nat -> R) * (nat -> R) :=
  (fun _ => 1, fun _ => 1).

Definition no_estimate (A : MatrixSparse) : R := 0.

(** What [Mul] is to compute: [alpha * op(A) * x + beta * y] for the matrix
    denoted by the row-compressed half. *)
Definition Mul_reference (A : MatrixSparse) (trans : ascii) (alpha : R)
  (x : list R) (beta : R) (y : list R) : list R :=
  if is_char trans "n" || is_char trans "N"
  then axpby alpha (dense_mul (row_half_triples A) (_m A) (_n A) x) beta y
  else axpby alpha (dense_mul_t (row_half_triples A) (_m A) (_n A) x) beta y.

(** The entries of a list whose paired index is [s], in order. *)
Definition keyed (l : list Entry) (s : nat) : list Entry :=
  filter (fun e => paired_index e =? s)%nat l.

(** Where bucket [s] starts once the entries [E] are grouped by paired
    index. *)
Definition bucket_start (E : list Entry) (s : nat) : nat :=
  length (flat_map (keyed E) (seq 0 s)).

Definition no_entry : Entry := (0%nat, 0%nat, 0).

(** The state of the scatter pass over [E] into [S] buckets once the
    entries [E1] are placed. *)
Definition scattered (E : list Entry) (S : nat) (E1 : list Entry)
  (st : ScatterState) : Prop :=
  let '(cursor, val2, ind2) := st in
  length cursor = (S + 1)%nat /\ length val2 = length E
  /\ length ind2 = length E
  /\ (forall s, (s < S)%nat ->
        nth s cursor 0%nat = (bucket_start E s + length (keyed E1 s))%nat)
  /\ (forall s j, (s < S)%nat -> (j < length (keyed E1 s))%nat ->
        nth (bucket_start E s + j) val2 0
        = entry_value (nth j (keyed E1 s) no_entry)
        /\ nth (bucket_start E s + j) ind2 0%nat
           = bucket_index (nth j (keyed E1 s) no_entry)).

(** [alpha * op(E) * x + beta * y] for the [m] x [n] matrix denoted by the
    triples [E]. *)
Definition product_reference (E : list Entry) (m n : nat) (trans : ascii)
  (alpha : R) (x : list R) (beta : R) (y : list R) : list R :=
  if is_char trans "n" || is_char trans "N"
  then axpby alpha (dense_mul E m n x) beta y
  else axpby alpha (dense_mul_t E m n x) beta y.

(** The bucket of the compressed half at [ptr + po] that holds cell [i]:
    the last bucket [t] below [size] with [ptr[t] <= i]. *)
Fixpoint bucket_of (po : nat) (ptr : list nat) (i size : nat) : nat :=
  match size with
  | O => O
  | S k => if (nth (po + k) ptr 0 <=? i)%nat then k
           else bucket_of po ptr i k
  end.

(** The bucket that holds cell [k] of the value buffer, in the half cell [k]
    lies in. *)
Definition cell_bucket (A : MatrixSparse) (k : nat) : nat :=
  if (k <? _nnz A)%nat then bucket_of 0 (_ptr A) k (primary_dim A)
  else bucket_of (primary_dim A + 1) (_ptr A) (k - _nnz A) (secondary_dim A).

(** Whether cell [k] lies in the row-compressed half. *)
Definition in_row_half (A : MatrixSparse) (k : nat) : bool :=
  match _ord A with
  | ROW => (k <? _nnz A)%nat
  | COL => negb (k <? _nnz A)%nat
  end.

(** The row and the column of the entry stored in cell [k] of the value
    buffer. *)
Definition cell_row (A : MatrixSparse) (k : nat) : nat :=
  if in_row_half A k then cell_bucket A k else nth k (_ind A) 0%nat.

Definition cell_col (A : MatrixSparse) (k : nat) : nat :=
  if in_row_half A k then nth k (_ind A) 0%nat else cell_bucket A k.

(** The cell-wise product of two scale vectors. *)
Definition hadamard (u v : list R) : list R :=
  map (fun p => fst p * snd p) (combine u v).

(** * Properties *)

(** ** Buffers and loops *)

Lemma length_upd {X : Type} (i : nat) (v : X) (l : list X) :
  length (upd i v l) = length l.
Proof.
  revert i; induction l as [|h t IH]; intros [|i]; simpl; auto.
Qed.

Lemma nth_upd_eq {X : Type} (i : nat) (v d : X) (l : list X) :
  (i < length l)%nat -> nth i (upd i v l) d = v.
Proof.
  revert i; induction l as [|h t IH]; intros [|i] H; simpl in *;
    try lia; auto.
  apply IH; lia.
Qed.

Lemma nth_upd_ne {X : Type} (i k : nat) (v d : X) (l : list X) :
  k <> i -> nth k (upd i v l) d = nth k l d.
Proof.
  revert i k; induction l as [|h t IH]; intros [|i] [|k] H; simpl;
    try reflexivity; try lia.
  apply IH; lia.
Qed.

Lemma for_loop_inv {St : Type} (P : nat -> St -> Prop)
  (body : nat -> St -> St) (cnt lo : nat) (s : St) :
  P lo s ->
  (forall i s', (lo <= i < lo + cnt)%nat -> P i s' -> P (S i) (body i s')) ->
  P (lo + cnt)%nat (for_loop lo cnt body s).
Proof.
  revert lo s; induction cnt as [|cnt IH]; intros lo s H0 Hstep; simpl.
  - now rewrite Nat.add_0_r.
  - replace (lo + S cnt)%nat with (S lo + cnt)%nat by lia.
    apply IH.
    + apply Hstep; [lia | exact H0].
    + intros i s' Hi; apply Hstep; lia.
Qed.

(** A loop that rewrites the cells [off + lo .. off + lo + cnt - 1], each
    from its own old content. *)
Lemma for_loop_upd (g : nat -> R -> R) (off cnt lo : nat) (l : list R) :
  let r := for_loop lo cnt
             (fun i l => upd (off + i) (g i (nth (off + i) l 0)) l) l in
  length r = length l /\
  forall k, (k < length l)%nat ->
    nth k r 0 = if ((off + lo <=? k) && (k <? off + lo + cnt))%nat
                then g (k - off)%nat (nth k l 0) else nth k l 0.
Proof.
  intro r; subst r.
  pose (P := fun (i : nat) (s : list R) =>
    length s = length l /\
    forall k, (k < length l)%nat ->
      nth k s 0 = if ((off + lo <=? k) && (k <? off + i))%nat
                  then g (k - off)%nat (nth k l 0) else nth k l 0).
  assert (H : P (lo + cnt)%nat
                (for_loop lo cnt
                   (fun i l => upd (off + i) (g i (nth (off + i) l 0)) l) l)).
  { apply for_loop_inv; unfold P.
    - split; [reflexivity|]. intros k Hk.
      destruct (off + lo <=? k)%nat eqn:E1; simpl; auto.
      destruct (k <? off + lo)%nat eqn:E2; auto.
      apply Nat.leb_le in E1; apply Nat.ltb_lt in E2; lia.
    - intros i s' Hi [Hlen Hnth]. split; [now rewrite length_upd|].
      intros k Hk.
      destruct (Nat.eq_dec k (off + i)) as [->|Hne].
      + rewrite nth_upd_eq by lia.
        rewrite Hnth by lia.
        replace (off + i <? off + i)%nat with false
          by (symmetry; apply Nat.ltb_ge; lia).
        rewrite andb_false_r.
        replace (off + lo <=? off + i)%nat with true
          by (symmetry; apply Nat.leb_le; lia).
        replace (off + i <? off + S i)%nat with true
          by (symmetry; apply Nat.ltb_lt; lia).
        simpl. f_equal. lia.
      + rewrite nth_upd_ne by exact Hne.
        rewrite Hnth by exact Hk.
        replace (k <? off + S i)%nat with (k <? off + i)%nat; auto.
        destruct (k <? off + i)%nat eqn:E1; symmetry.
        * apply Nat.ltb_lt in E1; apply Nat.ltb_lt; lia.
        * apply Nat.ltb_ge in E1; apply Nat.ltb_ge; lia. }
  destruct H as [Hlen Hnth]. split; [exact Hlen|].
  intros k Hk. rewrite Hnth by exact Hk.
  now rewrite Nat.add_assoc.
Qed.

(** ** Sign bits *)

Lemma testbit_shiftl_b2z (b : bool) (i j : nat) :
  Z.testbit (Z.shiftl (Z.b2z b) (Z.of_nat i)) (Z.of_nat j)
  = b && (j =? i)%nat.
Proof.
  rewrite Z.shiftl_spec by lia.
  destruct (Nat.eqb_spec j i) as [->|Hne].
  - rewrite Z.sub_diag, Z.b2z_bit0. now rewrite andb_true_r.
  - rewrite andb_false_r.
    destruct (Z.of_nat j - Z.of_nat i)%Z eqn:E; try lia.
    + destruct b; reflexivity.
    + destruct b; reflexivity.
Qed.

Lemma sign_factor_testbit (byte : Z) (i : nat) :
  sign_factor byte i = if Z.testbit byte (Z.of_nat i) then -1 else 1.
Proof.
  unfold sign_factor.
  replace (Z.land (Z.shiftr byte (Z.of_nat i)) 1)
    with (Z.b2z (Z.testbit byte (Z.of_nat i))).
  - destruct (Z.testbit byte (Z.of_nat i)); reflexivity.
  - change (Z.of_nat i) with (0 + Z.of_nat i)%Z at 1.
    rewrite <- (Z.shiftr_spec byte (Z.of_nat i) 0) by lia.
    rewrite Z.bit0_mod. change 1%Z with (Z.ones 1).
    now rewrite Z.land_ones by lia.
Qed.

Lemma SetSignSingle_filled (f : R -> R) (xo so bits : nat) (x : list R)
  (sign : list Z) :
  (xo + bits <= length x)%nat -> (so < length sign)%nat ->
  byte_filled f xo so bits x sign (SetSignSingle f xo so bits (x, sign)).
Proof.
  intros Hx Hs. unfold SetSignSingle.
  pose (P := fun (i : nat) (r : SignState) => byte_filled f xo so i x sign r).
  change (P (0 + bits)%nat
            (for_loop 0 bits
               (fun (i : nat) (st : SignState) =>
                  let '(x0, sign0) := st in
                  let v := nth (xo + i) x0 0 in
                  (upd (xo + i) (f (Rabs v)) x0,
                   upd so (Z.lor (nth so sign0 0%Z)
                             (Z.shiftl (Z.b2z (Rltb v 0)) (Z.of_nat i))) sign0))
               (x, upd so 0%Z sign))).
  apply for_loop_inv; unfold P, byte_filled.
  - simpl. repeat split.
    + apply length_upd.
    + intros k Hk. rewrite Nat.add_0_r.
      destruct (xo <=? k)%nat eqn:E1; simpl; auto.
      destruct (k <? xo)%nat eqn:E2; auto.
      apply Nat.leb_le in E1; apply Nat.ltb_lt in E2; lia.
    + intros t Ht. now apply nth_upd_ne.
    + intros j. rewrite nth_upd_eq by exact Hs. apply Z.bits_0.
  - intros i [x' s'] Hi (Hlx & Hls & Hx' & Hother & Hbits); simpl in *.
    repeat split.
    + now rewrite length_upd.
    + now rewrite length_upd.
    + intros k Hk.
      destruct (Nat.eq_dec k (xo + i)) as [->|Hne].
      * rewrite nth_upd_eq by lia. rewrite Hx' by lia.
        replace (xo + i <? xo + i)%nat with false
          by (symmetry; apply Nat.ltb_ge; lia).
        rewrite andb_false_r.
        replace (xo <=? xo + i)%nat with true
          by (symmetry; apply Nat.leb_le; lia).
        replace (xo + i <? xo + S i)%nat with true
          by (symmetry; apply Nat.ltb_lt; lia).
        reflexivity.
      * rewrite nth_upd_ne by exact Hne. rewrite Hx' by exact Hk.
        replace (k <? xo + S i)%nat with (k <? xo + i)%nat; auto.
        destruct (k <? xo + i)%nat eqn:E1; symmetry.
        -- apply Nat.ltb_lt in E1; apply Nat.ltb_lt; lia.
        -- apply Nat.ltb_ge in E1; apply Nat.ltb_ge; lia.
    + intros t Ht. rewrite nth_upd_ne by exact Ht. now apply Hother.
    + intros j. rewrite nth_upd_eq by lia.
      rewrite Z.lor_spec, Hbits, testbit_shiftl_b2z.
      rewrite (Hx' (xo + i)%nat) by lia.
      replace (xo + i <? xo + i)%nat with false
        by (symmetry; apply Nat.ltb_ge; lia).
      rewrite andb_false_r.
      destruct (Nat.eqb_spec j i) as [->|Hne].
      * replace (i <? i)%nat with false by (symmetry; apply Nat.ltb_ge; lia).
        replace (i <? S i)%nat with true by (symmetry; apply Nat.ltb_lt; lia).
        simpl. now rewrite andb_true_r.
      * rewrite andb_false_r, orb_false_r.
        replace (j <? S i)%nat with (j <? i)%nat; auto.
        destruct (j <? i)%nat eqn:E1; symmetry.
        -- apply Nat.ltb_lt in E1; apply Nat.ltb_lt; lia.
        -- apply Nat.ltb_ge in E1; apply Nat.ltb_ge; lia.
Qed.

Ltac divmod8 k :=
  pose proof (Nat.div_mod_eq k 8);
  pose proof (Nat.mod_upper_bound k 8 ltac:(lia)).

Lemma ltb_true (a b : nat) : (a < b)%nat -> (a <? b)%nat = true.
Proof. apply Nat.ltb_lt. Qed.

Lemma ltb_false (a b : nat) : (b <= a)%nat -> (a <? b)%nat = false.
Proof. apply Nat.ltb_ge. Qed.

Lemma leb_true (a b : nat) : (a <= b)%nat -> (a <=? b)%nat = true.
Proof. apply Nat.leb_le. Qed.

Lemma leb_false (a b : nat) : (b < a)%nat -> (a <=? b)%nat = false.
Proof. apply Nat.leb_gt. Qed.

Lemma filled_step (f : R -> R) (so bits : nat) (x : list R) (sign : list Z)
  (r1 r2 : SignState) :
  (bits <= 8)%nat -> (8 * so + bits <= length x)%nat ->
  signs_filled f (8 * so) x sign r1 ->
  byte_filled f (8 * so) so bits (fst r1) (snd r1) r2 ->
  signs_filled f (8 * so + bits) x sign r2.
Proof.
  intros Hb Hlen (L1 & L2 & X1 & B1) (L1' & L2' & X2 & O2 & B2).
  repeat split.
  - congruence.
  - congruence.
  - intros k Hk. rewrite X2 by lia. rewrite !X1 by lia.
    destruct (Nat.lt_ge_cases k (8 * so)) as [H|H].
    + rewrite (leb_false _ _ H), (ltb_true _ _ H). cbn [andb].
      now rewrite ltb_true by lia.
    + rewrite (leb_true _ _ H), (ltb_false _ _ H). cbn [andb].
      destruct (Nat.lt_ge_cases k (8 * so + bits)) as [H'|H'].
      * now rewrite !(ltb_true _ _ H').
      * now rewrite !(ltb_false _ _ H').
  - intros k Hk. divmod8 k.
    destruct (Nat.lt_ge_cases k (8 * so)) as [H'|H'].
    + rewrite O2 by lia. now apply B1.
    + assert (E : (k / 8 = so)%nat) by lia. rewrite E.
      rewrite B2. rewrite ltb_true by lia. cbn [andb].
      replace (8 * so + k mod 8)%nat with k by lia.
      rewrite X1 by lia. now rewrite ltb_false by lia.
Qed.

Lemma SetSign_filled (f : R -> R) (size : nat) (x : list R) (sign : list Z) :
  (8 * size <= length x)%nat -> (size <= length sign)%nat ->
  signs_filled f (8 * size) x sign (SetSign f size (x, sign)).
Proof.
  intros Hx Hs.
  pose (P := fun (t : nat) (r : SignState) => signs_filled f (8 * t) x sign r).
  change (P (0 + size)%nat (SetSign f size (x, sign))).
  unfold SetSign. apply for_loop_inv; unfold P.
  - repeat split; simpl; intros; lia.
  - intros t [x' s'] Ht Hinv.
    replace (8 * S t)%nat with (8 * t + 8)%nat by lia.
    apply (filled_step f t 8 x sign (x', s')); try lia; auto.
    destruct Hinv as (L1 & L2 & _).
    apply (SetSignSingle_filled f (8 * t) t 8 x' s'); simpl in *; lia.
Qed.

Lemma restored_step (g : R -> R) (so bits : nat) (sign : list Z)
  (x r : list R) :
  (bits <= 8)%nat -> (8 * so + bits <= length x)%nat ->
  signs_restored g (8 * so) sign x r ->
  signs_restored g (8 * so + bits) sign x
    (UnSetSignSingle g (8 * so) so bits sign r).
Proof.
  intros Hb Hlen [L X]. unfold UnSetSignSingle.
  destruct (for_loop_upd
              (fun i v => sign_factor (nth so sign 0%Z) i * g v)
              (8 * so) bits 0 r) as [L' X'].
  split; [congruence|].
  intros k Hk. rewrite X' by lia. rewrite !X by lia.
  rewrite Nat.add_0_r. divmod8 k.
  destruct (Nat.lt_ge_cases k (8 * so)) as [H1|H1].
  - rewrite (leb_false _ _ H1), (ltb_true _ _ H1). cbn [andb].
    now rewrite ltb_true by lia.
  - rewrite (leb_true _ _ H1), (ltb_false _ _ H1). cbn [andb].
    destruct (Nat.lt_ge_cases k (8 * so + bits)) as [H2|H2].
    + rewrite !(ltb_true _ _ H2).
      replace (k - 8 * so)%nat with (k mod 8) by lia.
      replace (k / 8)%nat with so by lia. reflexivity.
    + now rewrite !(ltb_false _ _ H2).
Qed.

Lemma UnSetSign_restored (g : R -> R) (size : nat) (sign : list Z)
  (x : list R) :
  (8 * size <= length x)%nat ->
  signs_restored g (8 * size) sign x (UnSetSign g size sign x).
Proof.
  intros Hx.
  pose (P := fun (t : nat) (r : list R) => signs_restored g (8 * t) sign x r).
  change (P (0 + size)%nat (UnSetSign g size sign x)).
  unfold UnSetSign. apply for_loop_inv; unfold P.
  - split; [reflexivity|]. intros k Hk. reflexivity.
  - intros t r Ht Hinv.
    replace (8 * S t)%nat with (8 * t + 8)%nat by lia.
    apply (restored_step g t 8 sign x r); try lia; auto.
Qed.

Lemma nth_map_in {X Y : Type} (f : X -> Y) (l : list X) (k : nat) (dx : X)
  (dy : Y) :
  (k < length l)%nat -> nth k (map f l) dy = f (nth k l dx).
Proof.
  intro H. rewrite (nth_indep _ dy (f dx)) by now rewrite length_map.
  apply map_nth.
Qed.

Lemma sign_bytes_enough (n : nat) :
  (n / 8 <= (n + 7) / 8)%nat /\
  ((n / 8 * 8 < n)%nat -> (n / 8 < (n + 7) / 8)%nat).
Proof.
  divmod8 n. divmod8 (n + 7)%nat. lia.
Qed.

Lemma Equil_set_signs_filled (kEq : NormTypes) (data : list R) :
  signs_filled (forward_functor kEq) (length data) data
    (repeat 0%Z ((length data + 7) / 8))
    (Equil_set_signs kEq (length data) data).
Proof.
  set (n := length data).
  destruct (sign_bytes_enough n) as [Hle Hlt].
  assert (Hbulk : signs_filled (forward_functor kEq) (8 * (n / 8)) data
            (repeat 0%Z ((n + 7) / 8))
            (SetSign (forward_functor kEq) (n / 8)
                     (data, repeat 0%Z ((n + 7) / 8)))).
  { apply SetSign_filled; [|now rewrite repeat_length].
    divmod8 n. fold n. lia. }
  assert (E : Equil_set_signs kEq n data
              = let st := SetSign (forward_functor kEq) (n / 8)
                            (data, repeat 0%Z ((n + 7) / 8)) in
                if (n / 8 * 8 <? n)%nat
                then SetSignSingle (forward_functor kEq) (n / 8 * 8) (n / 8)
                                   (n - n / 8 * 8) st
                else st).
  { unfold Equil_set_signs, forward_functor.
    destruct (norm2_or_fro kEq); reflexivity. }
  rewrite E; clear E. cbv zeta.
  divmod8 n.
  destruct (Nat.ltb_spec (n / 8 * 8) n) as [Ht|Ht].
  - replace n with (8 * (n / 8) + (n - n / 8 * 8))%nat at 1 by lia.
    replace (n / 8 * 8)%nat with (8 * (n / 8))%nat by lia.
    eapply filled_step; [lia | fold n; lia | exact Hbulk |].
    destruct Hbulk as (L1 & L2 & _).
    destruct (SetSign (forward_functor kEq) (n / 8)
                (data, repeat 0%Z ((n + 7) / 8))) as [x1 s1]; simpl in L1, L2.
    apply SetSignSingle_filled; cbn [fst snd].
    + rewrite L1. fold n. lia.
    + rewrite L2, repeat_length. apply Hlt. lia.
  - replace n with (8 * (n / 8))%nat at 1 by lia. exact Hbulk.
Qed.

Lemma Equil_unset_signs_restored (kEq : NormTypes) (sign : list Z)
  (x : list R) :
  signs_restored (backward_functor kEq) (length x) sign x
    (Equil_unset_signs kEq (length x) sign x).
Proof.
  set (n := length x).
  assert (E : Equil_unset_signs kEq n sign x
              = let r := UnSetSign (backward_functor kEq) (n / 8) sign x in
                if (n / 8 * 8 <? n)%nat
                then UnSetSignSingle (backward_functor kEq) (n / 8 * 8)
                                     (n / 8) (n - n / 8 * 8) sign r
                else r).
  { unfold Equil_unset_signs, backward_functor.
    destruct (norm2_or_fro kEq); reflexivity. }
  rewrite E; clear E. cbv zeta.
  divmod8 n.
  assert (Hbulk : signs_restored (backward_functor kEq) (8 * (n / 8)) sign x
                    (UnSetSign (backward_functor kEq) (n / 8) sign x)).
  { apply UnSetSign_restored. fold n. lia. }
  destruct (Nat.ltb_spec (n / 8 * 8) n) as [Ht|Ht].
  - replace n with (8 * (n / 8) + (n - n / 8 * 8))%nat at 1 by lia.
    replace (n / 8 * 8)%nat with (8 * (n / 8))%nat by lia.
    apply restored_step; try (fold n; lia); auto.
  - replace n with (8 * (n / 8))%nat at 1 by lia. exact Hbulk.
Qed.

Lemma Equil_set_signs_values (kEq : NormTypes) (data : list R) :
  fst (Equil_set_signs kEq (length data) data)
  = map (fun v => forward_functor kEq (Rabs v)) data.
Proof.
  destruct (Equil_set_signs_filled kEq data) as (L & _ & X & _).
  apply (nth_ext _ _ 0 0).
  - now rewrite List.length_map.
  - intros k Hk. rewrite L in Hk. rewrite X by exact Hk.
    rewrite ltb_true by exact Hk.
    now rewrite (nth_map_in _ _ _ 0) by exact Hk.
Qed.

Lemma backward_forward (kEq : NormTypes) (v : R) :
  (if Rltb v 0 then -1 else 1)
  * backward_functor kEq (forward_functor kEq (Rabs v)) = v.
Proof.
  assert (H : backward_functor kEq (forward_functor kEq (Rabs v)) = Rabs v).
  { unfold backward_functor, forward_functor.
    destruct (norm2_or_fro kEq).
    - unfold SqrtF, SquareF. apply sqrt_square, Rabs_pos.
    - unfold IdentityF, AbsF. apply Rabs_Rabsolu. }
  rewrite H. unfold Rltb.
  destruct (Rlt_dec v 0) as [Hv|Hv].
  - rewrite Rabs_left by exact Hv. lra.
  - rewrite Rabs_right by lra. lra.
Qed.

Lemma sign_codec_roundtrip (kEq : NormTypes) (data : list R) :
  let st := Equil_set_signs kEq (length data) data in
  Equil_unset_signs kEq (length data) (snd st) (fst st) = data.
Proof.
  intro st.
  destruct (Equil_set_signs_filled kEq data) as (L & _ & X & B).
  fold st in L, X, B.
  rewrite <- L at 1.
  destruct (Equil_unset_signs_restored kEq (snd st) (fst st)) as [L' X'].
  apply (nth_ext _ _ 0 0); [congruence|].
  intros k Hk. rewrite L', L in Hk.
  rewrite X' by (rewrite L; exact Hk).
  rewrite L, ltb_true by exact Hk.
  rewrite sign_factor_testbit, B by exact Hk.
  rewrite X by exact Hk. rewrite ltb_true by exact Hk.
  apply backward_forward.
Qed.

(** ** The loop nest of [MultRow] and [MultCol] *)

Lemma MultRow_mult_half (d e : list R) io po data ptr ind size :
  MultRow d e io po data ptr ind size
  = mult_half (fun t c => nth t d 0 * nth c e 0) io po data ptr ind size.
Proof. reflexivity. Qed.

Lemma MultCol_mult_half (d e : list R) io po data ptr ind size :
  MultCol d e io po data ptr ind size
  = mult_half (fun t r => nth r d 0 * nth t e 0) io po data ptr ind size.
Proof. reflexivity. Qed.

Lemma monotone_le (po : nat) (ptr : list nat) (size a b : nat) :
  monotone po ptr size -> (a <= b <= size)%nat ->
  (nth (po + a) ptr 0 <= nth (po + b) ptr 0)%nat.
Proof.
  intros Hm [Hab Hb]. induction b as [|b IH].
  - replace a with 0%nat by lia. lia.
  - destruct (Nat.eq_dec a (S b)) as [->|Hne]; [lia|].
    specialize (Hm b ltac:(lia)).
    replace (po + S b)%nat with (po + b + 1)%nat by lia.
    assert (nth (po + a) ptr 0 <= nth (po + b) ptr 0)%nat by (apply IH; lia).
    lia.
Qed.

(** Two value buffers that agree on the cells of bucket [t] give the same
    bucket, up to a map on the values. *)
Lemma bucket_ext (h : Entry -> Entry) (po io : nat) (ptr ind : list nat)
  (val val' : list R) (t : nat) :
  (forall i, (nth (po + t) ptr 0 <= i < nth (po + t + 1) ptr 0)%nat ->
     (t, nth (io + i) ind 0%nat, nth (io + i) val' 0)
     = h (t, nth (io + i) ind 0%nat, nth (io + i) val 0)) ->
  bucket po io ptr ind val' t = map h (bucket po io ptr ind val t).
Proof.
  intro H. unfold bucket. rewrite map_map. apply map_ext_in.
  intros i Hi. apply in_seq in Hi. apply H. lia.
Qed.

Lemma flat_map_ext_in {X Y : Type} (f g : X -> list Y) (l : list X) :
  (forall x, In x l -> f x = g x) -> flat_map f l = flat_map g l.
Proof.
  induction l as [|a l IH]; intro H; simpl; auto.
  rewrite (H a) by now left. f_equal. apply IH. intros; apply H; now right.
Qed.

Lemma map_flat_map {X Y Z : Type} (h : Y -> Z) (f : X -> list Y)
  (l : list X) :
  map h (flat_map f l) = flat_map (fun x => map h (f x)) l.
Proof.
  induction l as [|a l IH]; simpl; auto.
  now rewrite map_app, IH.
Qed.

Lemma entries_ext (h : Entry -> Entry) (po io : nat) (ptr ind : list nat)
  (val val' : list R) (size : nat) :
  (forall t, (t < size)%nat ->
     bucket po io ptr ind val' t = map h (bucket po io ptr ind val t)) ->
  entries po io ptr ind val' size = map h (entries po io ptr ind val size).
Proof.
  intro H. unfold entries. rewrite map_flat_map.
  apply flat_map_ext_in. intros t Ht. apply in_seq in Ht. apply H. lia.
Qed.

Lemma map_id_ext {X : Type} (h : X -> X) (l : list X) :
  (forall x, h x = x) -> map h l = l.
Proof.
  intro H. rewrite <- (map_id l) at 2. apply map_ext. exact H.
Qed.

(** Cells outside [io + ptr[po] .. io + ptr[po + size] - 1] do not matter. *)
Lemma entries_same (po io : nat) (ptr ind : list nat) (val val' : list R)
  (size : nat) :
  monotone po ptr size ->
  (forall k, (io + nth po ptr 0 <= k < io + nth (po + size) ptr 0)%nat ->
     nth k val' 0 = nth k val 0) ->
  entries po io ptr ind val' size = entries po io ptr ind val size.
Proof.
  intros Hm H.
  rewrite <- (map_id_ext (fun e => e) (entries po io ptr ind val size))
    by reflexivity.
  apply entries_ext. intros t Ht. apply bucket_ext. intros i Hi.
  rewrite H; [reflexivity|].
  pose proof (monotone_le po ptr size 0 t Hm ltac:(lia)).
  pose proof (monotone_le po ptr size (t + 1) size Hm ltac:(lia)).
  rewrite Nat.add_0_r in *. rewrite Nat.add_assoc in *. lia.
Qed.

Lemma mult_half_spec (fac : nat -> nat -> R) (io po : nat) (data : list R)
  (ptr ind : list nat) (size : nat) :
  monotone po ptr size ->
  (io + nth (po + size) ptr 0 <= length data)%nat ->
  let r := mult_half fac io po data ptr ind size in
  length r = length data /\
  (forall k, (k < io + nth po ptr 0 \/ io + nth (po + size) ptr 0 <= k)%nat ->
     nth k r 0 = nth k data 0) /\
  entries po io ptr ind r size
  = map (scale_entry fac) (entries po io ptr ind data size).
Proof.
  intros Hm Hlen r.
  pose (P := fun (t : nat) (s : list R) =>
    length s = length data /\
    (forall k, (k < io + nth po ptr 0 \/ io + nth (po + t) ptr 0 <= k)%nat ->
       nth k s 0 = nth k data 0) /\
    (forall t', (t' < t)%nat ->
       bucket po io ptr ind s t'
       = map (scale_entry fac) (bucket po io ptr ind data t'))).
  assert (H : P (0 + size)%nat r).
  { unfold r, mult_half. apply for_loop_inv; unfold P.
    - repeat split; intros; lia.
    - intros t s Ht (L & Out & Done).
      pose proof (Hm t ltac:(lia)) as Hstep.
      pose proof (monotone_le po ptr size 0 t Hm ltac:(lia)) as Hlow.
      pose proof (monotone_le po ptr size (t + 1) size Hm ltac:(lia)) as Hhigh.
      rewrite Nat.add_0_r in Hlow. rewrite Nat.add_assoc in Hhigh.
      unfold for_range.
      destruct (for_loop_upd
                  (fun i v => v * fac t (nth (io + i) ind 0%nat)) io
                  (nth (po + t + 1) ptr 0 - nth (po + t) ptr 0)%nat
                  (nth (po + t) ptr 0%nat) s) as [L' X'].
      cbv zeta in L', X'.
      set (s' := for_loop _ _ _ s) in *.
      replace (po + S t)%nat with (po + t + 1)%nat by lia.
      split; [congruence|]. split.
      + intros k Hk.
        destruct (Nat.lt_ge_cases k (length s)) as [Hin|Hout].
        * rewrite X' by exact Hin.
          replace ((io + nth (po + t) ptr 0 <=? k)
                   && (k <? io + nth (po + t) ptr 0
                            + (nth (po + t + 1) ptr 0 - nth (po + t) ptr 0)))%nat
            with false.
          -- apply Out. lia.
          -- symmetry. apply andb_false_iff.
             destruct Hk as [Hk|Hk];
               [left; apply Nat.leb_gt | right; apply Nat.ltb_ge]; lia.
        * rewrite !nth_overflow by lia. reflexivity.
      + intros t' Ht'.
        destruct (Nat.eq_dec t' t) as [->|Hne].
        * apply bucket_ext. intros i Hi.
          rewrite X' by lia.
          rewrite leb_true, ltb_true by lia. cbn [andb].
          rewrite Out by lia.
          unfold scale_entry, bucket_index, paired_index, entry_value.
          cbn [fst snd].
          replace (io + (io + i - io))%nat with (io + i)%nat by lia.
          reflexivity.
        * rewrite <- Done by lia.
          rewrite <- (map_id_ext (fun e => e) (bucket po io ptr ind s t'))
            by reflexivity.
          apply bucket_ext. intros i Hi.
          pose proof (monotone_le po ptr size (t' + 1) t Hm ltac:(lia)) as Hb.
          rewrite Nat.add_assoc in Hb.
          rewrite X' by lia.
          rewrite leb_false by lia. reflexivity. }
  destruct H as (L & Out & Done). repeat split; auto.
  apply entries_ext. intros t Ht. apply Done. lia.
Qed.

(** ** The shape of the storage *)

Lemma offsets_ok_spec (po : nat) (ptr : list nat) (size nnz : nat) :
  offsets_ok po ptr size nnz = true ->
  nth po ptr 0%nat = 0%nat /\ nth (po + size) ptr 0%nat = nnz
  /\ monotone po ptr size.
Proof.
  unfold offsets_ok. intro H.
  apply andb_prop in H; destruct H as [H H3].
  apply andb_prop in H; destruct H as [H1 H2].
  apply Nat.eqb_eq in H1, H2. repeat split; auto.
  intros t Ht. rewrite forallb_forall in H3.
  apply Nat.leb_le. apply H3. apply in_seq. lia.
Qed.

Lemma indices_ok_spec (io : nat) (ind : list nat) (nnz bound : nat) :
  indices_ok io ind nnz bound = true ->
  forall i, (i < nnz)%nat -> (nth (io + i) ind 0 < bound)%nat.
Proof.
  unfold indices_ok. intros H i Hi. rewrite forallb_forall in H.
  apply Nat.ltb_lt. apply H. apply in_seq. lia.
Qed.

Lemma storage_ok_shape (A : MatrixSparse) :
  storage_ok A = true -> storage_shape A.
Proof.
  unfold storage_ok. intro H.
  apply andb_prop in H; destruct H as [H Hg].
  apply andb_prop in H; destruct H as [H Hf].
  apply andb_prop in H; destruct H as [H He].
  apply andb_prop in H; destruct H as [H Hd].
  apply andb_prop in H; destruct H as [H Hc].
  apply andb_prop in H; destruct H as [Ha Hb].
  apply Nat.eqb_eq in Ha, Hb, Hc.
  apply offsets_ok_spec in Hd, He.
  destruct Hd as (A1 & A2 & A3). destruct He as (B1 & B2 & B3).
  pose proof (indices_ok_spec _ _ _ _ Hf) as C1.
  pose proof (indices_ok_spec _ _ _ _ Hg) as C2.
  constructor; auto.
Qed.

Lemma storage_ok_set_data (A : MatrixSparse) (data : list R) :
  length data = length (_data A) ->
  storage_ok (set_data A data) = storage_ok A.
Proof.
  intro H. unfold storage_ok, set_data, primary_dim, secondary_dim.
  cbn [_data _ind _ptr _m _n _nnz _ord]. now rewrite H.
Qed.

Lemma set_data_same (A : MatrixSparse) : set_data A (_data A) = A.
Proof. destruct A; reflexivity. Qed.

Lemma primary_dim_set_data (A : MatrixSparse) (data : list R) :
  primary_dim (set_data A data) = primary_dim A.
Proof. reflexivity. Qed.

Lemma secondary_dim_set_data (A : MatrixSparse) (data : list R) :
  secondary_dim (set_data A data) = secondary_dim A.
Proof. reflexivity. Qed.

(** ** Transforms of the value buffer, seen on the triples *)

Lemma swap_on_value (f : R -> R) (e : Entry) :
  swap_entry (on_value f e) = on_value f (swap_entry e).
Proof. reflexivity. Qed.

Lemma halves_of_map (f : R -> R) (A : MatrixSparse) :
  storage_ok A = true ->
  first_half (set_data A (map f (_data A)))
  = map (on_value f) (first_half A)
  /\ second_half (set_data A (map f (_data A)))
     = map (on_value f) (second_half A).
Proof.
  intro Hok. destruct (storage_ok_shape A Hok)
    as [Sd Si Sp F0 F1 Fm S0 S1 Sm Fi Gi].
  unfold first_half, second_half.
  rewrite !primary_dim_set_data, !secondary_dim_set_data.
  unfold set_data. cbn [_data _ind _ptr _m _n _nnz _ord].
  split; apply entries_ext; intros t Ht; apply bucket_ext; intros i Hi.
  - pose proof (monotone_le 0 (_ptr A) (primary_dim A) (t + 1)
                  (primary_dim A) Fm ltac:(lia)).
    rewrite !Nat.add_0_l in *.
    rewrite (nth_map_in f _ _ 0) by lia. reflexivity.
  - pose proof (monotone_le (primary_dim A + 1) (_ptr A) (secondary_dim A)
                  (t + 1) (secondary_dim A) Sm ltac:(lia)).
    rewrite Nat.add_assoc in *.
    rewrite (nth_map_in f _ _ 0) by lia. reflexivity.
Qed.

Lemma triples_of_map (f : R -> R) (A : MatrixSparse) :
  storage_ok A = true ->
  row_half_triples (set_data A (map f (_data A)))
  = map (on_value f) (row_half_triples A)
  /\ col_half_triples (set_data A (map f (_data A)))
     = map (on_value f) (col_half_triples A).
Proof.
  intro Hok. destruct (halves_of_map f A Hok) as [H1 H2].
  unfold row_half_triples, col_half_triples.
  replace (_ord (set_data A (map f (_data A)))) with (_ord A) by reflexivity.
  destruct (_ord A); rewrite ?H1, ?H2; split; auto;
    rewrite !map_map; apply map_ext; intro e; apply swap_on_value.
Qed.

Lemma halves_agree_map (f : R -> R) (A : MatrixSparse) :
  storage_ok A = true -> halves_agree A ->
  halves_agree (set_data A (map f (_data A))).
Proof.
  intros Hok H. unfold halves_agree.
  destruct (triples_of_map f A Hok) as [-> ->].
  now apply Permutation_map.
Qed.

(** ** [MultDiag] on the triples *)

Lemma MultDiag_halves (d e : list R) (A : MatrixSparse) :
  storage_ok A = true ->
  let A' := set_data A (MultDiag d e (_m A) (_n A) (_nnz A) (_ord A)
                                 (_data A) (_ind A) (_ptr A)) in
  length (_data A') = length (_data A)
  /\ row_half_triples A' = scale_triples d e (row_half_triples A)
  /\ col_half_triples A' = scale_triples d e (col_half_triples A).
Proof.
  intros Hok A'. destruct (storage_ok_shape A Hok)
    as [Sd Si Sp F0 F1 Fm S0 S1 Sm Fi Gi].
  unfold row_half_triples, col_half_triples, first_half, second_half.
  subst A'. unfold set_data, primary_dim, secondary_dim in *.
  cbn [_data _ind _ptr _m _n _nnz _ord] in *.
  unfold MultDiag.
  destruct (_ord A); rewrite MultRow_mult_half, MultCol_mult_half.
  - (* ROW *)
    destruct (mult_half_spec (fun t c => nth t d 0 * nth c e 0) 0 0 (_data A)
                (_ptr A) (_ind A) (_m A) Fm)
      as (L1 & O1 & E1).
    { cbn [Nat.add]. lia. }
    set (data1 := mult_half _ 0 0 (_data A) (_ptr A) (_ind A) (_m A)) in *.
    destruct (mult_half_spec (fun t r => nth r d 0 * nth t e 0) (_nnz A)
                (_m A + 1) data1 (_ptr A) (_ind A) (_n A) Sm)
      as (L2 & O2 & E2).
    { lia. }
    set (data2 := mult_half _ (_nnz A) (_m A + 1) data1 (_ptr A) (_ind A)
                            (_n A)) in *.
    split; [congruence|]. split.
    + rewrite (entries_same 0 0 (_ptr A) (_ind A) data1 data2)
        by (auto; intros k Hk; apply O2; cbn [Nat.add] in Hk; lia).
      rewrite E1. unfold scale_triples. apply map_ext.
      intros [[r c] v]. unfold scale_entry, bucket_index, paired_index,
        entry_value. cbn [fst snd]. f_equal. ring.
    + rewrite E2.
      rewrite (entries_same (_m A + 1) (_nnz A) (_ptr A) (_ind A) (_data A)
                 data1)
        by (auto; intros k Hk; apply O1; cbn [Nat.add]; lia).
      unfold scale_triples. rewrite !map_map. apply map_ext.
      intros [[c r] v]. unfold swap_entry, scale_entry, bucket_index,
        paired_index, entry_value. cbn [fst snd]. f_equal. ring.
  - (* COL *)
    destruct (mult_half_spec (fun t r => nth r d 0 * nth t e 0) 0 0 (_data A)
                (_ptr A) (_ind A) (_n A) Fm)
      as (L1 & O1 & E1).
    { cbn [Nat.add]. lia. }
    set (data1 := mult_half _ 0 0 (_data A) (_ptr A) (_ind A) (_n A)) in *.
    destruct (mult_half_spec (fun t c => nth t d 0 * nth c e 0) (_nnz A)
                (_n A + 1) data1 (_ptr A) (_ind A) (_m A) Sm)
      as (L2 & O2 & E2).
    { lia. }
    set (data2 := mult_half _ (_nnz A) (_n A + 1) data1 (_ptr A) (_ind A)
                            (_m A)) in *.
    split; [congruence|]. split.
    + rewrite E2.
      rewrite (entries_same (_n A + 1) (_nnz A) (_ptr A) (_ind A) (_data A)
                 data1)
        by (auto; intros k Hk; apply O1; cbn [Nat.add]; lia).
      unfold scale_triples. apply map_ext.
      intros [[r c] v]. unfold scale_entry, bucket_index, paired_index,
        entry_value. cbn [fst snd]. f_equal. ring.
    + rewrite (entries_same 0 0 (_ptr A) (_ind A) data1 data2)
        by (auto; intros k Hk; apply O2; cbn [Nat.add] in Hk; lia).
      rewrite E1. unfold scale_triples. rewrite !map_map. apply map_ext.
      intros [[c r] v]. unfold swap_entry, scale_entry, bucket_index,
        paired_index, entry_value. cbn [fst snd]. f_equal. ring.
Qed.

Lemma halves_agree_MultDiag (d e : list R) (A : MatrixSparse) :
  storage_ok A = true -> halves_agree A ->
  halves_agree (set_data A (MultDiag d e (_m A) (_n A) (_nnz A) (_ord A)
                                     (_data A) (_ind A) (_ptr A))).
Proof.
  intros Hok H. unfold halves_agree.
  destruct (MultDiag_halves d e A Hok) as (_ & -> & ->).
  now apply Permutation_map.
Qed.

(** ** The conversion performed by [spmat_memcpy] *)

Lemma take_pad_all {X : Type} (d : X) (k : nat) (l : list X) :
  length l = k -> take_pad d k l = l.
Proof.
  intro H. unfold take_pad. apply (nth_ext _ _ d d).
  - now rewrite length_map, length_seq.
  - intros i Hi. rewrite length_map, length_seq in Hi.
    rewrite (nth_map_in _ _ _ 0%nat) by now rewrite length_seq.
    now rewrite seq_nth.
Qed.

Lemma length_prefix_sums (cs : list nat) (acc : nat) :
  length (prefix_sums acc cs) = S (length cs).
Proof.
  revert acc; induction cs as [|c cs IH]; intro acc; simpl; auto.
Qed.

Lemma nth_prefix_sums (cs : list nat) (acc s : nat) :
  (s <= length cs)%nat ->
  nth s (prefix_sums acc cs) 0%nat = (acc + list_sum (firstn s cs))%nat.
Proof.
  revert acc s; induction cs as [|c cs IH]; intros acc [|s] H; simpl in *;
    try lia.
  rewrite IH by lia. lia.
Qed.

Lemma firstn_seq_le (s n a : nat) :
  (s <= n)%nat -> firstn s (seq a n) = seq a s.
Proof.
  revert n a; induction s as [|s IH]; intros [|n] a H; simpl; try lia; auto.
  f_equal. apply IH. lia.
Qed.

Lemma firstn_map_seq (c : nat -> nat) (s n : nat) :
  (s <= n)%nat -> firstn s (map c (seq 0 n)) = map c (seq 0 s).
Proof.
  intro H. now rewrite firstn_map, firstn_seq_le.
Qed.

Lemma nth_flat_map_seq {X : Type} (f : nat -> list X) (n s j : nat) (d : X) :
  (s < n)%nat -> (j < length (f s))%nat ->
  nth (length (flat_map f (seq 0 s)) + j) (flat_map f (seq 0 n)) d
  = nth j (f s) d.
Proof.
  intros Hs Hj.
  replace n with (s + S (n - s - 1))%nat by lia.
  rewrite seq_app, flat_map_app, app_nth2_plus.
  cbn [seq flat_map Nat.add]. now rewrite app_nth1.
Qed.

Lemma partition_by_key {X : Type} (key : X -> nat) (l : list X) (n : nat) :
  (forall x, In x l -> (key x < n)%nat) ->
  Permutation (flat_map (fun s => filter (fun x => key x =? s)%nat l)
                        (seq 0 n)) l.
Proof.
  induction l as [|a l IH]; intro H.
  - clear H. induction n as [|n IHn]; [constructor|].
    rewrite seq_S, flat_map_app. simpl. now rewrite app_nil_r.
  - assert (Ha : (key a < n)%nat) by (apply H; now left).
    specialize (IH (fun x Hx => H x (or_intror Hx))).
    apply Permutation_trans
      with (a :: flat_map (fun s => filter (fun x => key x =? s)%nat l)
                          (seq 0 n));
      [|now constructor].
    clear IH H.
    replace n with (key a + S (n - key a - 1))%nat by lia.
    rewrite seq_app, !flat_map_app. cbn [seq flat_map Nat.add filter].
    rewrite Nat.eqb_refl.
    apply Permutation_trans
      with (flat_map (fun s => filter (fun x => key x =? s)%nat l)
                     (seq 0 (key a))
            ++ a :: filter (fun x => key x =? key a)%nat l
            ++ flat_map (fun s => filter (fun x => key x =? s)%nat l)
                        (seq (S (key a)) (n - key a - 1)));
      [|apply Permutation_sym, Permutation_middle].
    apply Permutation_app.
    + apply Permutation_refl'. apply flat_map_ext_in.
      intros s Hs. apply in_seq in Hs.
      destruct (Nat.eqb_spec (key a) s); [lia|reflexivity].
    + simpl. constructor. apply Permutation_app_head.
      apply Permutation_refl'. apply flat_map_ext_in.
      intros s Hs. apply in_seq in Hs.
      destruct (Nat.eqb_spec (key a) s); [lia|reflexivity].
Qed.

Lemma length_bucket po io ptr ind val t :
  length (bucket po io ptr ind val t)
  = (nth (po + t + 1) ptr 0 - nth (po + t) ptr 0)%nat.
Proof. unfold bucket. now rewrite length_map, length_seq. Qed.

Lemma length_entries po io ptr ind val size :
  monotone po ptr size ->
  length (entries po io ptr ind val size)
  = (nth (po + size) ptr 0 - nth po ptr 0)%nat.
Proof.
  intro Hm. unfold entries. induction size as [|size IH].
  - simpl. rewrite Nat.add_0_r. lia.
  - rewrite seq_S, flat_map_app, length_app. cbn [flat_map Nat.add].
    rewrite app_nil_r, length_bucket.
    rewrite IH by (intros t Ht; apply Hm; lia).
    pose proof (monotone_le po ptr (S size) 0 size Hm ltac:(lia)).
    pose proof (Hm size ltac:(lia)).
    rewrite Nat.add_0_r in *.
    replace (po + S size)%nat with (po + size + 1)%nat by lia. lia.
Qed.

Lemma in_entries po io ptr ind val size (e : Entry) :
  In e (entries po io ptr ind val size) ->
  exists t i, (t < size)%nat
    /\ (nth (po + t) ptr 0 <= i < nth (po + t + 1) ptr 0)%nat
    /\ e = (t, nth (io + i) ind 0%nat, nth (io + i) val 0).
Proof.
  unfold entries. intro H. apply in_flat_map in H.
  destruct H as (t & Ht & He). apply in_seq in Ht.
  unfold bucket in He. apply in_map_iff in He.
  destruct He as (i & <- & Hi). apply in_seq in Hi.
  exists t, i. repeat split; lia.
Qed.

(** ** The passes of the conversion as folds *)

Lemma for_loop_fold_left {St : Type} (body : nat -> St -> St) (cnt lo : nat)
  (s : St) :
  for_loop lo cnt body s = fold_left (fun s i => body i s) (seq lo cnt) s.
Proof.
  revert lo s; induction cnt as [|cnt IH]; intros lo s; simpl; auto.
Qed.

Lemma fold_left_flat_map {X Y St : Type} (f : St -> Y -> St) (g : X -> list Y)
  (l : list X) (s : St) :
  fold_left f (flat_map g l) s
  = fold_left (fun s x => fold_left f (g x) s) l s.
Proof.
  revert s; induction l as [|a l IH]; intro s; simpl; auto.
  now rewrite fold_left_app, IH.
Qed.

Lemma fold_left_map {X Y St : Type} (f : St -> Y -> St) (g : X -> Y)
  (l : list X) (s : St) :
  fold_left f (map g l) s = fold_left (fun s x => f s (g x)) l s.
Proof.
  revert s; induction l as [|a l IH]; intro s; simpl; auto.
Qed.

Lemma fold_left_same {X St : Type} (f g : St -> X -> St) (l : list X)
  (s : St) :
  (forall s x, f s x = g s x) -> fold_left f l s = fold_left g l s.
Proof.
  intro H. revert s; induction l as [|a l IH]; intro s; simpl; auto.
  now rewrite H, IH.
Qed.

Lemma scatter_fold (P nnz : nat) (val : list R) (ind ptr ptr2 : list nat) :
  scatter P nnz val ind ptr ptr2
  = fold_left (fun st e => scatter_entry e st) (entries 0 0 ptr ind val P)
              (ptr2, repeat 0 nnz, repeat 0%nat nnz).
Proof.
  unfold scatter, entries. rewrite for_loop_fold_left, fold_left_flat_map.
  apply fold_left_same. intros st t. unfold for_range, bucket.
  rewrite for_loop_fold_left, fold_left_map. cbn [Nat.add]. reflexivity.
Qed.

Lemma flat_map_ranges (po : nat) (ptr : list nat) (size : nat) :
  monotone po ptr size ->
  flat_map (fun t => seq (nth (po + t) ptr 0)
                         (nth (po + t + 1) ptr 0 - nth (po + t) ptr 0))%nat
           (seq 0 size)
  = seq (nth po ptr 0%nat) (nth (po + size) ptr 0 - nth po ptr 0)%nat.
Proof.
  intro Hm. induction size as [|size IH].
  - simpl. now rewrite Nat.add_0_r, Nat.sub_diag.
  - rewrite seq_S, flat_map_app. cbn [flat_map Nat.add].
    rewrite app_nil_r, IH by (intros t Ht; apply Hm; lia).
    pose proof (monotone_le po ptr (S size) 0 size Hm ltac:(lia)) as H1.
    pose proof (Hm size ltac:(lia)) as H2.
    rewrite Nat.add_0_r in H1.
    replace (po + S size)%nat with (po + size + 1)%nat by lia.
    replace (nth (po + size + 1) ptr 0 - nth po ptr 0)%nat
      with ((nth (po + size) ptr 0 - nth po ptr 0)
            + (nth (po + size + 1) ptr 0 - nth (po + size) ptr 0))%nat by lia.
    rewrite seq_app. do 2 f_equal. lia.
Qed.

(** ** Counting *)

Lemma length_filter_snoc {X : Type} (p : X -> bool) (l : list X) (a : X) :
  length (filter p (l ++ [a]))
  = (length (filter p l) + if p a then 1 else 0)%nat.
Proof.
  rewrite filter_app, length_app. simpl. now destruct (p a).
Qed.

Lemma count_indices_spec (nnz S : nat) (ind : list nat) :
  (forall i, (i < nnz)%nat -> (nth i ind 0 < S)%nat) ->
  count_indices nnz S ind
  = map (fun s => length (filter (fun i => nth i ind 0 =? s)%nat (seq 0 nnz)))
        (seq 0 S).
Proof.
  intro Hind.
  pose (P := fun (i : nat) (cnt : list nat) =>
    length cnt = S /\
    forall s, (s < S)%nat ->
      nth s cnt 0%nat
      = length (filter (fun j => nth j ind 0 =? s)%nat (seq 0 i))).
  assert (H : P (0 + nnz)%nat (count_indices nnz S ind)).
  { unfold count_indices. apply for_loop_inv; unfold P.
    - split; [apply repeat_length|]. intros s Hs. simpl.
      apply nth_repeat.
    - intros i cnt Hi [L X]. split; [now rewrite length_upd|].
      intros s Hs. rewrite seq_S, length_filter_snoc. cbn [Nat.add].
      destruct (Nat.eqb_spec (nth i ind 0%nat) s) as [E|E].
      + rewrite E, nth_upd_eq by lia. now rewrite X by exact Hs.
      + rewrite nth_upd_ne by congruence. rewrite X by exact Hs. lia. }
  destruct H as [L X]. apply (nth_ext _ _ 0%nat 0%nat).
  - now rewrite length_map, length_seq.
  - intros s Hs. rewrite L in Hs. rewrite X by exact Hs.
    rewrite (nth_map_in _ _ _ 0%nat) by now rewrite length_seq.
    now rewrite seq_nth by exact Hs.
Qed.

Lemma list_sum_firstn_succ (l : list nat) (s : nat) :
  list_sum (firstn (S s) l) = (list_sum (firstn s l) + nth s l 0)%nat.
Proof.
  revert s; induction l as [|a l IH]; intros [|s]; simpl; try lia.
  rewrite <- Nat.add_assoc. f_equal. apply (IH s).
Qed.

Lemma offsets_of_counts_spec (S : nat) (cnt : list nat) :
  length cnt = S -> offsets_of_counts S cnt = prefix_sums 0 cnt.
Proof.
  intro Lc.
  pose (P := fun (s : nat) (ptr : list nat) =>
    length ptr = (S + 1)%nat /\
    forall k, (k <= s)%nat -> nth k ptr 0%nat = list_sum (firstn k cnt)).
  assert (H : P (0 + S)%nat (offsets_of_counts S cnt)).
  { unfold offsets_of_counts. apply for_loop_inv; unfold P.
    - split; [apply repeat_length|]. intros k Hk.
      replace k with 0%nat by lia. simpl. apply nth_repeat.
    - intros s ptr Hs [L X]. split; [now rewrite length_upd|].
      intros k Hk. destruct (Nat.eq_dec k (s + 1)) as [->|Hne].
      + rewrite nth_upd_eq by lia. rewrite X by lia.
        rewrite Nat.add_1_r. now rewrite list_sum_firstn_succ.
      + rewrite nth_upd_ne by exact Hne. apply X. lia. }
  destruct H as [L X]. apply (nth_ext _ _ 0%nat 0%nat).
  - rewrite length_prefix_sums. lia.
  - intros k Hk. rewrite L in Hk. rewrite X by lia.
    now rewrite nth_prefix_sums by lia.
Qed.

Lemma length_filter_map {X Y : Type} (p : Y -> bool) (g : X -> Y)
  (l : list X) :
  length (filter (fun x => p (g x)) l) = length (filter p (map g l)).
Proof.
  induction l as [|a l IH]; simpl; auto.
  destruct (p (g a)); simpl; now rewrite IH.
Qed.

(** The paired indices of a compressed half, in buffer order. *)
Lemma entries_indices (ptr ind : list nat) (val : list R) (P : nat) :
  monotone 0 ptr P -> nth 0 ptr 0%nat = 0%nat ->
  map paired_index (entries 0 0 ptr ind val P)
  = map (fun i => nth i ind 0%nat) (seq 0 (nth P ptr 0%nat)).
Proof.
  intros Hm H0. unfold entries, bucket. rewrite map_flat_map.
  rewrite (flat_map_ext _ (fun t =>
             map (fun i => nth i ind 0%nat)
                 (seq (nth (0 + t) ptr 0)
                      (nth (0 + t + 1) ptr 0 - nth (0 + t) ptr 0))%nat))
    by (intro t; rewrite map_map; reflexivity).
  rewrite <- map_flat_map, flat_map_ranges by exact Hm.
  cbn [Nat.add]. now rewrite H0, Nat.sub_0_r.
Qed.

Lemma counts_of_entries (ptr ind : list nat) (val : list R) (P s : nat) :
  monotone 0 ptr P -> nth 0 ptr 0%nat = 0%nat ->
  length (filter (fun e => paired_index e =? s)%nat
                 (entries 0 0 ptr ind val P))
  = length (filter (fun i => nth i ind 0 =? s)%nat (seq 0 (nth P ptr 0%nat))).
Proof.
  intros Hm H0.
  rewrite (length_filter_map (fun k => k =? s)%nat paired_index).
  rewrite entries_indices by assumption.
  now rewrite <- (length_filter_map (fun k => k =? s)%nat).
Qed.

Lemma flat_map_position {X : Type} (f : nat -> list X) (n p : nat) :
  (p < length (flat_map f (seq 0 n)))%nat ->
  exists s j, (s < n)%nat /\ (j < length (f s))%nat
              /\ p = (length (flat_map f (seq 0 s)) + j)%nat.
Proof.
  induction n as [|n IH]; intro Hp; [simpl in Hp; lia|].
  rewrite seq_S, flat_map_app, length_app in Hp.
  cbn [flat_map Nat.add] in Hp. rewrite app_nil_r in Hp.
  destruct (Nat.lt_ge_cases p (length (flat_map f (seq 0 n)))) as [H|H].
  - destruct (IH H) as (s & j & Hs & Hj & ->). exists s, j. repeat split; lia.
  - exists n, (p - length (flat_map f (seq 0 n)))%nat. repeat split; lia.
Qed.

(** ** Scattering *)

Section Scatter.

(** The entries to scatter and their number of buckets. *)
Variable E : list Entry.
Variable S : nat.
Hypothesis keys_ok : forall e, In e E -> (paired_index e < S)%nat.

Lemma bucket_start_succ (s : nat) :
  bucket_start E (s + 1) = (bucket_start E s + length (keyed E s))%nat.
Proof.
  unfold bucket_start.
  rewrite Nat.add_1_r, seq_S, flat_map_app, length_app.
  cbn [flat_map Nat.add]. now rewrite app_nil_r.
Qed.

Lemma bucket_start_le (s s' : nat) :
  (s <= s')%nat -> (bucket_start E s <= bucket_start E s')%nat.
Proof.
  induction 1 as [|s' _ IH]; [lia|].
  replace (Datatypes.S s') with (s' + 1)%nat by lia.
  rewrite bucket_start_succ. lia.
Qed.

Lemma bucket_start_total : bucket_start E S = length E.
Proof.
  unfold bucket_start. apply Permutation_length.
  apply (partition_by_key paired_index E S keys_ok).
Qed.

Lemma bucket_start_range (s : nat) :
  (s < S)%nat -> (bucket_start E s + length (keyed E s) <= length E)%nat.
Proof.
  intro Hs. rewrite <- bucket_start_succ, <- bucket_start_total.
  apply bucket_start_le. lia.
Qed.

Lemma bucket_start_disjoint (s s' j j' : nat) :
  (s < S)%nat -> (s' < S)%nat -> s <> s' ->
  (j < length (keyed E s))%nat -> (j' < length (keyed E s'))%nat ->
  (bucket_start E s + j <> bucket_start E s' + j')%nat.
Proof.
  intros Hs Hs' Hne Hj Hj'.
  destruct (Nat.lt_ge_cases s s') as [H|H].
  - pose proof (bucket_start_le (s + 1) s' ltac:(lia)).
    rewrite bucket_start_succ in *. lia.
  - pose proof (bucket_start_le (s' + 1) s ltac:(lia)).
    rewrite bucket_start_succ in *. lia.
Qed.

Lemma keyed_app (l1 l2 : list Entry) (s : nat) :
  keyed (l1 ++ l2) s = keyed l1 s ++ keyed l2 s.
Proof. apply filter_app. Qed.

Lemma keyed_prefix (E1 E2 : list Entry) (s : nat) :
  E = E1 ++ E2 ->
  (length (keyed E1 s) + length (keyed E2 s) = length (keyed E s))%nat.
Proof.
  intros ->. now rewrite keyed_app, length_app.
Qed.

Lemma scattered_step (E1 E2 : list Entry) (e : Entry) (st : ScatterState) :
  E = E1 ++ e :: E2 -> scattered E S E1 st ->
  scattered E S (E1 ++ [e]) (scatter_entry e st).
Proof.
  intros HE Hst. destruct st as [[cursor val2] ind2].
  destruct Hst as (Lc & Lv & Li & Hcur & Hcell).
  assert (Hk : (paired_index e < S)%nat).
  { apply keys_ok. rewrite HE. apply in_or_app. right. now left. }
  set (k := paired_index e) in *.
  assert (Hroom : (length (keyed E1 k) < length (keyed E k))%nat).
  { pose proof (keyed_prefix E1 (e :: E2) k HE) as H.
    unfold keyed in H at 2. cbn [filter] in H. fold k in H.
    rewrite Nat.eqb_refl in H. cbn [length] in H. lia. }
  pose proof (bucket_start_range k Hk) as Hrange.
  unfold scatter_entry. fold k. rewrite (Hcur k Hk).
  set (l := (bucket_start E k + length (keyed E1 k))%nat).
  unfold scattered. rewrite !length_upd.
  split; [exact Lc|]. split; [exact Lv|]. split; [exact Li|]. split.
  - intros s Hs. rewrite keyed_app, length_app.
    unfold keyed at 2. cbn [filter]. fold k.
    destruct (Nat.eq_dec s k) as [->|Hne].
    + rewrite nth_upd_eq by lia. rewrite Nat.eqb_refl. cbn [length].
      unfold l. lia.
    + rewrite nth_upd_ne by exact Hne. rewrite (Hcur s Hs).
      destruct (Nat.eqb_spec k s); [congruence|]. cbn [length]. lia.
  - intros s j Hs Hj. rewrite keyed_app in Hj |- *.
    unfold keyed at 2 in Hj. unfold keyed at 2 4. cbn [filter] in Hj |- *.
    fold k in Hj |- *.
    destruct (Nat.eqb_spec k s) as [Eks|Eks].
    + subst s. rewrite length_app in Hj. cbn [length] in Hj.
      destruct (Nat.eq_dec j (length (keyed E1 k))) as [->|Hj'].
      * fold l. rewrite !nth_upd_eq by (unfold l; lia).
        rewrite app_nth2, Nat.sub_diag by lia. cbn [nth]. auto.
      * rewrite !nth_upd_ne by (unfold l; lia).
        rewrite app_nth1 by lia. apply Hcell; lia.
    + rewrite app_nil_r in Hj |- *.
      assert (Hpos : (bucket_start E s + j <> l)%nat).
      { unfold l. apply bucket_start_disjoint; auto.
        pose proof (keyed_prefix E1 (e :: E2) s HE). lia. }
      rewrite !nth_upd_ne by exact Hpos. now apply Hcell.
Qed.

Lemma scattered_fold (E2 E1 : list Entry) (st : ScatterState) :
  E = E1 ++ E2 -> scattered E S E1 st ->
  scattered E S E (fold_left (fun st e => scatter_entry e st) E2 st).
Proof.
  revert E1 st; induction E2 as [|e E2 IH]; intros E1 st HE Hst.
  - rewrite app_nil_r in HE. subst E1. exact Hst.
  - cbn [fold_left]. apply (IH (E1 ++ [e])).
    + rewrite <- app_assoc. exact HE.
    + now apply (scattered_step E1 E2).
Qed.

(** At the end of the pass the second half holds the entries bucket by
    bucket, each bucket in the order of the traversal. *)
Lemma scattered_all (cursor : list nat) (val2 : list R) (ind2 : list nat) :
  scattered E S E (cursor, val2, ind2) ->
  val2 = map entry_value (flat_map (keyed E) (seq 0 S))
  /\ ind2 = map bucket_index (flat_map (keyed E) (seq 0 S)).
Proof.
  intros (Lc & Lv & Li & Hcur & Hcell).
  pose proof bucket_start_total as HT. unfold bucket_start in HT.
  split.
  - apply (nth_ext _ _ 0 0); [now rewrite length_map, HT|].
    intros p Hp. rewrite Lv, <- HT in Hp.
    rewrite (nth_map_in _ _ _ no_entry) by exact Hp.
    destruct (flat_map_position (keyed E) S p Hp) as (s & j & Hs & Hj & ->).
    rewrite nth_flat_map_seq by assumption.
    now apply (Hcell s j Hs Hj).
  - apply (nth_ext _ _ 0%nat 0%nat); [now rewrite length_map, HT|].
    intros p Hp. rewrite Li, <- HT in Hp.
    rewrite (nth_map_in _ _ _ no_entry) by exact Hp.
    destruct (flat_map_position (keyed E) S p Hp) as (s & j & Hs & Hj & ->).
    rewrite nth_flat_map_seq by assumption.
    now apply (Hcell s j Hs Hj).
Qed.

Lemma scattered_start (ptr2 : list nat) :
  length ptr2 = (S + 1)%nat ->
  (forall s, (s <= S)%nat -> nth s ptr2 0%nat = bucket_start E s) ->
  scattered E S [] (ptr2, repeat 0 (length E), repeat 0%nat (length E)).
Proof.
  intros L H. unfold scattered. rewrite !repeat_length.
  repeat split; auto.
  - intros s Hs. rewrite H by lia. cbn. lia.
  - cbn in H1. lia.
  - cbn in H1. lia.
Qed.

End Scatter.

(** ** The buffers built by [spmat_memcpy] and [Init] *)

Lemma offsets_ok_intro (po : nat) (ptr : list nat) (size nnz : nat) :
  nth po ptr 0%nat = 0%nat -> nth (po + size) ptr 0%nat = nnz ->
  monotone po ptr size -> offsets_ok po ptr size nnz = true.
Proof.
  intros H1 H2 H3. unfold offsets_ok.
  rewrite H1, H2, !Nat.eqb_refl. cbn [andb].
  apply forallb_forall. intros t Ht. apply in_seq in Ht.
  apply Nat.leb_le, H3. lia.
Qed.

Lemma indices_ok_intro (io : nat) (ind : list nat) (nnz bound : nat) :
  (forall i, (i < nnz)%nat -> (nth (io + i) ind 0 < bound)%nat) ->
  indices_ok io ind nnz bound = true.
Proof.
  intro H. unfold indices_ok. apply forallb_forall.
  intros i Hi. apply in_seq in Hi. apply Nat.ltb_lt, H. lia.
Qed.

Lemma length_flat_map_prefix {X : Type} (f : nat -> list X) (n s : nat) :
  (s < n)%nat ->
  (length (flat_map f (seq 0 s)) + length (f s)
   <= length (flat_map f (seq 0 n)))%nat.
Proof.
  intro Hs. replace n with (s + S (n - s - 1))%nat at 1 by lia.
  rewrite seq_app, flat_map_app. cbn [seq flat_map Nat.add].
  rewrite !length_app. lia.
Qed.

Lemma swap_swap (e : Entry) : swap_entry (swap_entry e) = e.
Proof. destruct e as [[a b] v]. reflexivity. Qed.

Lemma spmat_memcpy_spec (P S nnz : nat) (val : list R) (ind ptr : list nat) :
  length val = nnz -> length ind = nnz -> length ptr = (P + 1)%nat ->
  offsets_ok 0 ptr P nnz = true -> indices_ok 0 ind nnz S = true ->
  let r := spmat_memcpy P S nnz val ind ptr in
  let data' := fst (fst r) in
  let ind' := snd (fst r) in
  let ptr' := snd r in
  let E := entries 0 0 ptr ind val P in
  length data' = (2 * nnz)%nat /\ length ind' = (2 * nnz)%nat
  /\ length ptr' = (P + S + 2)%nat
  /\ offsets_ok 0 ptr' P nnz = true
  /\ offsets_ok (P + 1) ptr' S nnz = true
  /\ indices_ok 0 ind' nnz S = true
  /\ indices_ok nnz ind' nnz P = true
  /\ entries 0 0 ptr' ind' data' P = E
  /\ Permutation E (map swap_entry (entries (P + 1) nnz ptr' ind' data' S)).
Proof.
  intros Lv Li Lp Hoff Hind r data' ind' ptr' E.
  set (d0 := (0%nat, 0%nat, 0) : Entry).
  destruct (offsets_ok_spec _ _ _ _ Hoff) as (P0 & P1 & Pm).
  pose proof (indices_ok_spec _ _ _ _ Hind) as Hi.
  cbn [Nat.add] in P0, P1, Hi.
  set (filt := fun s => filter (fun e => paired_index e =? s)%nat E).
  set (sc := flat_map filt (seq 0 S)).
  set (ptr2 := prefix_sums 0 (map (fun s => length (filt s)) (seq 0 S))).
  assert (HE : forall e, In e E ->
             (paired_index e < S)%nat /\ (bucket_index e < P)%nat).
  { intros e He. apply in_entries in He.
    destruct He as (t & i & Ht & Hti & ->).
    unfold paired_index, bucket_index; cbn [fst snd].
    pose proof (monotone_le 0 ptr P (t + 1) P Pm ltac:(lia)).
    cbn [Nat.add] in *. split; [apply Hi; lia | exact Ht]. }
  assert (Hkeys : forall e, In e E -> (paired_index e < S)%nat)
    by (intros e He; now apply HE).
  assert (Psc : Permutation sc E)
    by apply (partition_by_key paired_index E S Hkeys).
  assert (LE : length E = nnz).
  { unfold E. rewrite length_entries by exact Pm. cbn [Nat.add]. lia. }
  assert (Lsc : length sc = nnz).
  { now rewrite (Permutation_length Psc). }
  assert (Hptr2 : forall s, (s <= S)%nat ->
             nth s ptr2 0%nat = length (flat_map filt (seq 0 s))).
  { intros s Hs. unfold ptr2.
    rewrite nth_prefix_sums by now rewrite length_map, length_seq.
    rewrite firstn_map_seq by exact Hs.
    now rewrite length_flat_map. }
  assert (Er : r = (val ++ map entry_value sc,
                    ind ++ map bucket_index sc, ptr ++ ptr2)).
  { unfold r, spmat_memcpy.
    rewrite (take_pad_all 0 nnz val Lv), (take_pad_all 0%nat nnz ind Li),
      (take_pad_all 0%nat (P + 1) ptr Lp).
    cbv zeta.
    (* the counting pass and the prefix sums *)
    assert (Hcnt : count_indices nnz S ind
                   = map (fun s => length (filt s)) (seq 0 S)).
    { rewrite count_indices_spec by exact Hi. apply map_ext. intro s.
      unfold filt, E. rewrite counts_of_entries by assumption.
      now rewrite P1. }
    rewrite Hcnt, offsets_of_counts_spec
      by now rewrite length_map, length_seq.
    fold ptr2.
    (* the scatter pass *)
    rewrite scatter_fold. fold E.
    assert (Hst0 : scattered E S []
                     (ptr2, repeat 0 nnz, repeat 0%nat nnz)).
    { rewrite <- LE. apply scattered_start.
      - unfold ptr2. rewrite length_prefix_sums, length_map, length_seq. lia.
      - intros s Hs. exact (Hptr2 s Hs). }
    pose proof (scattered_fold E S Hkeys E [] _ eq_refl Hst0) as Hsc.
    destruct (fold_left (fun st e => scatter_entry e st) E
                (ptr2, repeat 0 nnz, repeat 0%nat nnz))
      as [[cursor val2] ind2].
    destruct (scattered_all E S Hkeys cursor val2 ind2 Hsc) as [-> ->].
    reflexivity. }
  assert (Hptr2S : forall s, (s < S)%nat ->
             nth (s + 1) ptr2 0%nat
             = (nth s ptr2 0 + length (filt s))%nat).
  { intros s Hs. rewrite !Hptr2 by lia.
    rewrite Nat.add_1_r, seq_S, flat_map_app, length_app.
    cbn [flat_map Nat.add]. now rewrite app_nil_r. }
  assert (Hlow : forall k, (k <= P)%nat ->
             nth k (ptr ++ ptr2) 0%nat = nth k ptr 0%nat).
  { intros k Hk. apply app_nth1. lia. }
  assert (Hhigh : forall s, nth (P + 1 + s) (ptr ++ ptr2) 0%nat
                            = nth s ptr2 0%nat).
  { intro s. rewrite <- Lp. apply app_nth2_plus. }
  assert (Hcell1 : forall i, (i < nnz)%nat ->
             nth i (ind ++ map bucket_index sc) 0%nat = nth i ind 0%nat
             /\ nth i (val ++ map entry_value sc) 0 = nth i val 0).
  { intros i Hlt. split; apply app_nth1; lia. }
  assert (Hcell2 : forall i, (i < nnz)%nat ->
             nth (nnz + i) (ind ++ map bucket_index sc) 0%nat
             = bucket_index (nth i sc d0)
             /\ nth (nnz + i) (val ++ map entry_value sc) 0
                = entry_value (nth i sc d0)).
  { intros i Hlt. split.
    - rewrite <- Li at 1. rewrite app_nth2_plus.
      apply nth_map_in. lia.
    - rewrite <- Lv at 1. rewrite app_nth2_plus.
      apply nth_map_in. lia. }
  subst data' ind' ptr'. rewrite Er. cbn [fst snd].
  assert (M2 : monotone (P + 1) (ptr ++ ptr2) S).
  { intros s Hs.
    replace (P + 1 + s + 1)%nat with (P + 1 + (s + 1))%nat by lia.
    rewrite !Hhigh, Hptr2S by lia. lia. }
  split; [rewrite length_app, length_map; lia|].
  split; [rewrite length_app, length_map; lia|].
  split; [unfold ptr2; rewrite length_app, length_prefix_sums, length_map,
            length_seq; lia|].
  split.
  { apply offsets_ok_intro; cbn [Nat.add].
    - now rewrite Hlow by lia.
    - now rewrite Hlow by lia.
    - intros t Ht. cbn [Nat.add]. rewrite !Hlow by lia. now apply Pm. }
  split.
  { apply offsets_ok_intro; auto.
    - rewrite <- (Nat.add_0_r (P + 1)), Hhigh, Hptr2 by lia. reflexivity.
    - rewrite Hhigh, Hptr2 by lia. exact Lsc. }
  split.
  { apply indices_ok_intro. intros i Hlt. cbn [Nat.add].
    destruct (Hcell1 i Hlt) as [-> _]. now apply Hi. }
  split.
  { apply indices_ok_intro. intros i Hlt.
    destruct (Hcell2 i Hlt) as [-> _].
    apply HE. apply (Permutation_in _ Psc). apply nth_In. lia. }
  split.
  { unfold E.
    rewrite <- (map_id_ext (fun e => e) (entries 0 0 ptr ind val P))
      by reflexivity.
    unfold entries. rewrite map_flat_map. apply flat_map_ext_in.
    intros t Ht. apply in_seq in Ht. unfold bucket. cbn [Nat.add].
    rewrite !Hlow by lia. rewrite map_map. apply map_ext_in.
    intros i Hin. apply in_seq in Hin.
    pose proof (monotone_le 0 ptr P (t + 1) P Pm ltac:(lia)).
    pose proof (Pm t ltac:(lia)). cbn [Nat.add] in *.
    destruct (Hcell1 i ltac:(lia)) as [-> ->]. reflexivity. }
  replace (map swap_entry
             (entries (P + 1) nnz (ptr ++ ptr2) (ind ++ map bucket_index sc)
                      (val ++ map entry_value sc) S))
    with (flat_map filt (seq 0 S)); [now apply Permutation_sym|].
  symmetry.
  unfold entries. rewrite map_flat_map.
  apply flat_map_ext_in. intros s Hs. apply in_seq in Hs.
  unfold bucket.
  replace (P + 1 + s + 1)%nat with (P + 1 + (s + 1))%nat by lia.
  rewrite !Hhigh, Hptr2S, Hptr2 by lia.
  replace (length (flat_map filt (seq 0 s)) + length (filt s)
           - length (flat_map filt (seq 0 s)))%nat
    with (length (filt s)) by lia.
  pose proof (length_flat_map_prefix filt S s ltac:(lia)) as Hpre.
  fold sc in Hpre. rewrite Lsc in Hpre.
  apply (nth_ext _ _ d0 d0).
  { now rewrite !length_map, length_seq. }
  intros j Hj. rewrite !length_map, length_seq in Hj.
  rewrite (nth_map_in swap_entry _ _ d0)
    by now rewrite length_map, length_seq.
  rewrite (nth_map_in _ _ _ 0%nat) by now rewrite length_seq.
  rewrite seq_nth by exact Hj.
  destruct (Hcell2 (length (flat_map filt (seq 0 s)) + j)%nat ltac:(lia))
    as [-> ->].
  unfold sc.
  rewrite nth_flat_map_seq by lia.
  assert (Hin : In (nth j (filt s) d0) (filt s))
    by (apply nth_In; exact Hj).
  unfold filt in Hin at 2. apply filter_In in Hin.
  destruct Hin as [_ Hkey]. apply Nat.eqb_eq in Hkey.
  destruct (nth j (filt s) d0) as [[a b] v].
  unfold swap_entry. unfold paired_index, bucket_index, entry_value in *.
  cbn [fst snd] in *. now subst b.
Qed.

Lemma valid_input_spec (A : MatrixSparse) :
  valid_input A = true ->
  length (orig_data (_info A)) = _nnz A
  /\ length (orig_ind (_info A)) = _nnz A
  /\ length (orig_ptr (_info A)) = (primary_dim A + 1)%nat
  /\ offsets_ok 0 (orig_ptr (_info A)) (primary_dim A) (_nnz A) = true
  /\ indices_ok 0 (orig_ind (_info A)) (_nnz A) (secondary_dim A) = true.
Proof.
  unfold valid_input. intro H.
  apply andb_prop in H; destruct H as [H He].
  apply andb_prop in H; destruct H as [H Hd].
  apply andb_prop in H; destruct H as [H Hc].
  apply andb_prop in H; destruct H as [Ha Hb].
  apply Nat.eqb_eq in Ha, Hb, Hc. auto.
Qed.

Lemma Init_Initialized (DEBUG : bool) (A : MatrixSparse) :
  _done_init A = false -> valid_input A = true ->
  exists A',
    Init DEBUG A = Done (0%Z, A')
    /\ Initialized A'
    /\ _m A' = _m A /\ _n A' = _n A /\ _nnz A' = _nnz A /\ _ord A' = _ord A
    /\ Permutation (row_half_triples A') (input_triples A).
Proof.
  intros Hd Hv.
  destruct (valid_input_spec A Hv) as (Lv & Li & Lp & Hoff & Hind).
  unfold Init, DEBUG_ASSERT. rewrite Hd. cbn [negb].
  replace (if DEBUG then ASSERT true else Done tt) with (Done tt)
    by now destruct DEBUG.
  cbn [bind].
  unfold primary_dim, secondary_dim in *.
  unfold Initialized, storage_ok, halves_agree, row_half_triples,
    col_half_triples, first_half, second_half, input_triples,
    primary_dim, secondary_dim.
  destruct (_ord A) eqn:Eo.
  - pose proof (spmat_memcpy_spec (_m A) (_n A) (_nnz A) _ _ _ Lv Li Lp Hoff
                  Hind) as H.
    cbv zeta in H.
    destruct (spmat_memcpy (_m A) (_n A) (_nnz A) (orig_data (_info A))
                (orig_ind (_info A)) (orig_ptr (_info A)))
      as [[data' ind'] ptr'].
    cbn [fst snd] in H.
    destruct H as (H1 & H2 & H3 & H4 & H5 & H6 & H7 & H8 & H9).
    eexists. split; [reflexivity|].
    cbn [_data _ind _ptr _m _n _nnz _ord _done_init].
    rewrite H1, H2, H3, H4, H5, H6, H7, !Nat.eqb_refl, H8.
    repeat split; auto.
  - pose proof (spmat_memcpy_spec (_n A) (_m A) (_nnz A) _ _ _ Lv Li Lp Hoff
                  Hind) as H.
    cbv zeta in H.
    destruct (spmat_memcpy (_n A) (_m A) (_nnz A) (orig_data (_info A))
                (orig_ind (_info A)) (orig_ptr (_info A)))
      as [[data' ind'] ptr'].
    cbn [fst snd] in H.
    destruct H as (H1 & H2 & H3 & H4 & H5 & H6 & H7 & H8 & H9).
    eexists. split; [reflexivity|].
    cbn [_data _ind _ptr _m _n _nnz _ord _done_init].
    rewrite H1, H2, H4, H5, H6, H7, H8.
    replace (length ptr' =? _m A + _n A + 2)%nat with true
      by (symmetry; apply Nat.eqb_eq; lia).
    rewrite !Nat.eqb_refl.
    assert (Hp : Permutation
                   (entries (_n A + 1) (_nnz A) ptr' ind' data' (_m A))
                   (map swap_entry
                      (entries 0 0 (orig_ptr (_info A)) (orig_ind (_info A))
                               (orig_data (_info A)) (_n A)))).
    { apply Permutation_sym.
      apply (Permutation_map swap_entry) in H9.
      rewrite map_map in H9.
      rewrite (map_id_ext (fun x => swap_entry (swap_entry x))) in H9
        by apply swap_swap.
      exact H9. }
    repeat split; auto.
Qed.

(** ** Sums *)

Lemma Rsum_app (l1 l2 : list R) : Rsum (l1 ++ l2) = Rsum l1 + Rsum l2.
Proof.
  unfold Rsum. induction l1 as [|a l1 IH]; simpl; [lra|]. rewrite IH. lra.
Qed.

Lemma Rsum_zero {X : Type} (h : X -> R) (l : list X) :
  (forall x, In x l -> h x = 0) -> Rsum (map h l) = 0.
Proof.
  unfold Rsum. induction l as [|a l IH]; intro H; simpl; [reflexivity|].
  rewrite (H a) by now left. rewrite IH; [lra|]. intros; apply H; now right.
Qed.

Lemma Rsum_perm (l1 l2 : list R) :
  Permutation l1 l2 -> Rsum l1 = Rsum l2.
Proof.
  unfold Rsum. induction 1; simpl; lra.
Qed.

Lemma Rsum_flat_map {X : Type} (f : X -> list R) (l : list X) :
  Rsum (flat_map f l) = Rsum (map (fun x => Rsum (f x)) l).
Proof.
  induction l as [|a l IH]; simpl; [reflexivity|].
  rewrite Rsum_app, IH. reflexivity.
Qed.

Lemma Rsum_single (h : nat -> R) (n t : nat) :
  (t < n)%nat -> (forall s, s <> t -> h s = 0) ->
  Rsum (map h (seq 0 n)) = h t.
Proof.
  intros Ht H.
  replace n with (t + S (n - t - 1))%nat by lia.
  rewrite seq_app, map_app, Rsum_app. cbn [seq map Nat.add].
  rewrite Rsum_zero by (intros s Hs; apply in_seq in Hs; apply H; lia).
  change (Rsum (h t :: map h (seq (S t) (n - t - 1))))
    with (h t + Rsum (map h (seq (S t) (n - t - 1)))).
  rewrite Rsum_zero by (intros s Hs; apply in_seq in Hs; apply H; lia).
  lra.
Qed.

Lemma for_loop_sum (h : nat -> R) (cnt lo : nat) (a : R) :
  for_loop lo cnt (fun i acc => acc + h i) a = a + Rsum (map h (seq lo cnt)).
Proof.
  revert lo a; induction cnt as [|cnt IH]; intros lo a; simpl.
  - unfold Rsum; simpl; lra.
  - rewrite IH. unfold Rsum; simpl; lra.
Qed.

(** ** The product accumulated over one bucket *)

Lemma bucket_dot_entries po io ptr ind val size (t : nat) (x : list R) :
  (t < size)%nat ->
  bucket_dot (entries po io ptr ind val size) t x
  = Rsum (map (fun i => nth (io + i) val 0
                        * nth (nth (io + i) ind 0%nat) x 0)
              (seq (nth (po + t) ptr 0%nat)
                   (nth (po + t + 1) ptr 0 - nth (po + t) ptr 0)%nat)).
Proof.
  intro Ht. unfold bucket_dot, entries.
  rewrite map_flat_map, Rsum_flat_map.
  rewrite (Rsum_single _ size t Ht).
  - unfold bucket. rewrite map_map. f_equal. apply map_ext.
    intro i. unfold bucket_index, paired_index, entry_value.
    cbn [fst snd]. now rewrite Nat.eqb_refl.
  - intros s Hs. apply Rsum_zero. intros e He.
    unfold bucket in He. apply in_map_iff in He.
    destruct He as (i & <- & _). unfold bucket_index. cbn [fst snd].
    destruct (Nat.eqb_spec s t); [contradiction|reflexivity].
Qed.

(** ** The dense product, row by row *)

Lemma Rsum_plus {X : Type} (f g : X -> R) (l : list X) :
  Rsum (map (fun a => f a + g a) l) = Rsum (map f l) + Rsum (map g l).
Proof.
  unfold Rsum. induction l as [|a l IH]; simpl; [lra|]. rewrite IH. lra.
Qed.

Lemma bucket_dot_perm (E E' : list Entry) (t : nat) (x : list R) :
  Permutation E E' -> bucket_dot E t x = bucket_dot E' t x.
Proof.
  intro H. unfold bucket_dot. apply Rsum_perm. now apply Permutation_map.
Qed.

Lemma bucket_dot_firstn (E : list Entry) (t k : nat) (x : list R) :
  (forall e, In e E -> (paired_index e < k)%nat) ->
  bucket_dot E t (firstn k x) = bucket_dot E t x.
Proof.
  intro H. unfold bucket_dot. f_equal. apply map_ext_in. intros e He.
  rewrite nth_firstn. now rewrite ltb_true by (apply H; exact He).
Qed.

Lemma dense_entry_cons (e : Entry) (E : list Entry) (i j : nat) :
  dense_entry (e :: E) i j
  = if (bucket_index e =? i)%nat && (paired_index e =? j)%nat
    then entry_value e + dense_entry E i j else dense_entry E i j.
Proof. reflexivity. Qed.

Lemma bucket_dot_cons (e : Entry) (E : list Entry) (t : nat) (x : list R) :
  bucket_dot (e :: E) t x
  = (if (bucket_index e =? t)%nat
     then entry_value e * nth (paired_index e) x 0 else 0)
    + bucket_dot E t x.
Proof. reflexivity. Qed.

(** Row [i] of the dense product is the inner product over the entries of
    row [i]. *)
Lemma dense_row_dot (E : list Entry) (i cols : nat) (x : list R) :
  (forall e, In e E -> (paired_index e < cols)%nat) ->
  Rsum (map (fun j => dense_entry E i j * nth j x 0) (seq 0 cols))
  = bucket_dot E i x.
Proof.
  induction E as [|e E IH]; intro H.
  - unfold bucket_dot. simpl. apply Rsum_zero. intros; lra.
  - specialize (IH (fun a Ha => H a (or_intror Ha))).
    assert (Hc : (paired_index e < cols)%nat) by (apply H; now left).
    rewrite bucket_dot_cons, <- IH.
    rewrite (map_ext _ (fun j =>
               (if (bucket_index e =? i)%nat && (paired_index e =? j)%nat
                then entry_value e * nth j x 0 else 0)
               + dense_entry E i j * nth j x 0)).
    + rewrite Rsum_plus. f_equal.
      destruct (bucket_index e =? i)%nat; cbn [andb].
      * rewrite (Rsum_single _ cols (paired_index e) Hc).
        -- now rewrite Nat.eqb_refl.
        -- intros s Hs. destruct (Nat.eqb_spec (paired_index e) s);
             [congruence|reflexivity].
      * apply Rsum_zero. reflexivity.
    + intro j. rewrite dense_entry_cons.
      destruct ((bucket_index e =? i)%nat && (paired_index e =? j)%nat); lra.
Qed.

Lemma dense_entry_swap (E : list Entry) (i j : nat) :
  dense_entry (map swap_entry E) j i = dense_entry E i j.
Proof.
  induction E as [|e E IH]; [reflexivity|].
  cbn [map]. rewrite !dense_entry_cons.
  rewrite IH. destruct e as [[a b] v].
  unfold swap_entry, bucket_index, paired_index, entry_value. cbn [fst snd].
  now rewrite andb_comm.
Qed.

(** Column [j] of the dense product with the transpose. *)
Lemma dense_col_dot (E : list Entry) (j rows : nat) (x : list R) :
  (forall e, In e E -> (bucket_index e < rows)%nat) ->
  Rsum (map (fun i => dense_entry E i j * nth i x 0) (seq 0 rows))
  = bucket_dot (map swap_entry E) j x.
Proof.
  intro H. rewrite <- (dense_row_dot _ _ rows).
  - f_equal. apply map_ext. intro i. now rewrite dense_entry_swap.
  - intros e He. apply in_map_iff in He. destruct He as (e' & <- & He').
    destruct e' as [[a b] v]. apply (H _ He').
Qed.

(** ** [spblas_gemv] *)

Lemma spblas_gemv_spec (O : Ord) (op : CBLAS_TRANSPOSE_t) (alpha beta : R)
  (m n nnz : nat) (val : list R) (ind ptr : list nat) (x y : vector) :
  length (vdata y) = vsize y ->
  let second :=
    match O, op with
    | ROW, CblasNoTrans | COL, CblasTrans => false
    | _, _ => true
    end in
  let po := if second then (match O with ROW => m | COL => n end + 1)%nat
            else 0%nat in
  let io := if second then nnz else 0%nat in
  spblas_gemv O op alpha m n nnz val ind ptr x beta y
  = map (fun t =>
           alpha * bucket_dot (entries po io ptr ind val (vsize y)) t
                              (firstn (vsize x) (vdata x))
           + beta * nth t (vdata y) 0)
        (seq 0 (vsize y)).
Proof.
  intros Hy second po io. unfold spblas_gemv. fold second. fold po. fold io.
  set (xs := firstn (vsize x) (vdata x)).
  set (tmp := fun t =>
    for_range (nth (po + t) ptr 0%nat) (nth (po + t + 1) ptr 0%nat)
      (fun i acc => acc + nth (io + i) val 0 * nth (nth (io + i) ind 0%nat) xs 0)
      0).
  destruct (for_loop_upd (fun t v => alpha * tmp t + beta * v) 0 (vsize y) 0
              (vdata y)) as [L X].
  cbv zeta in L, X. cbn [Nat.add] in L, X.
  change (for_loop 0 (vsize y)
            (fun t yd => upd t (alpha * tmp t + beta * nth t yd 0) yd)
            (vdata y)
          = map (fun t => alpha * bucket_dot
                            (entries po io ptr ind val (vsize y)) t xs
                          + beta * nth t (vdata y) 0) (seq 0 (vsize y))).
  apply (nth_ext _ _ 0 0).
  - now rewrite L, length_map, length_seq.
  - intros k Hk. rewrite L in Hk. rewrite X by exact Hk.
    rewrite Hy in Hk. rewrite ltb_true by exact Hk. cbn [Nat.leb andb].
    rewrite (nth_map_in _ _ _ 0%nat) by now rewrite length_seq.
    rewrite seq_nth by exact Hk. cbn [Nat.add]. rewrite Nat.sub_0_r.
    f_equal. f_equal.
    rewrite bucket_dot_entries by exact Hk.
    unfold tmp, for_range. rewrite for_loop_sum. lra.
Qed.

(** ** [Mul] *)

Lemma axpby_seq (alpha beta : R) (v y : list R) (k : nat) :
  length v = k -> length y = k ->
  axpby alpha v beta y
  = map (fun t => alpha * nth t v 0 + beta * nth t y 0) (seq 0 k).
Proof.
  intros Lv Ly. unfold axpby. apply (nth_ext _ _ 0 0).
  - rewrite !length_map, length_combine, length_seq. lia.
  - intros t Ht. rewrite length_map, length_combine in Ht.
    rewrite (nth_map_in _ _ _ (0, 0)) by (rewrite length_combine; lia).
    rewrite combine_nth by lia. cbn [fst snd].
    rewrite (nth_map_in _ _ _ 0%nat) by (rewrite length_seq; lia).
    rewrite seq_nth by lia. reflexivity.
Qed.

Lemma first_half_bounds (A : MatrixSparse) (e : Entry) :
  storage_ok A = true -> In e (first_half A) ->
  (bucket_index e < primary_dim A)%nat
  /\ (paired_index e < secondary_dim A)%nat.
Proof.
  intros Hok He. destruct (storage_ok_shape A Hok)
    as [Sd Si Sp F0 F1 Fm S0 S1 Sm Fi Gi].
  apply in_entries in He. destruct He as (t & i & Ht & Hi & ->).
  unfold bucket_index, paired_index. cbn [fst snd Nat.add] in *.
  split; [exact Ht|]. apply Fi.
  pose proof (monotone_le 0 (_ptr A) (primary_dim A) (t + 1) (primary_dim A)
                Fm ltac:(lia)).
  cbn [Nat.add] in *. lia.
Qed.

Lemma second_half_bounds (A : MatrixSparse) (e : Entry) :
  storage_ok A = true -> In e (second_half A) ->
  (bucket_index e < secondary_dim A)%nat
  /\ (paired_index e < primary_dim A)%nat.
Proof.
  intros Hok He. destruct (storage_ok_shape A Hok)
    as [Sd Si Sp F0 F1 Fm S0 S1 Sm Fi Gi].
  apply in_entries in He. destruct He as (t & i & Ht & Hi & ->).
  unfold bucket_index, paired_index. cbn [fst snd] in *.
  split; [exact Ht|]. apply Gi.
  pose proof (monotone_le (primary_dim A + 1) (_ptr A) (secondary_dim A)
                (t + 1) (secondary_dim A) Sm ltac:(lia)).
  rewrite Nat.add_assoc in *. lia.
Qed.

Lemma row_half_bounds (A : MatrixSparse) (e : Entry) :
  storage_ok A = true -> In e (row_half_triples A) ->
  (bucket_index e < _m A)%nat /\ (paired_index e < _n A)%nat.
Proof.
  intros Hok. unfold row_half_triples.
  pose proof (first_half_bounds A e Hok) as H1.
  pose proof (second_half_bounds A e Hok) as H2.
  unfold primary_dim, secondary_dim in *.
  destruct (_ord A); intro He; [apply H1|apply H2]; exact He.
Qed.

Lemma dense_mul_untransposed (A : MatrixSparse) (alpha beta : R)
  (x y : list R) :
  storage_ok A = true -> length y = _m A ->
  map (fun t => alpha * bucket_dot (row_half_triples A) t (firstn (_n A) x)
                + beta * nth t y 0) (seq 0 (_m A))
  = axpby alpha (dense_mul (row_half_triples A) (_m A) (_n A) x) beta y.
Proof.
  intros Hok Ly.
  rewrite (axpby_seq _ _ _ _ (_m A))
    by (auto; unfold dense_mul; now rewrite length_map, length_seq).
  apply map_ext_in. intros t Ht. apply in_seq in Ht.
  unfold dense_mul. rewrite (nth_map_in _ _ _ 0%nat)
    by (rewrite length_seq; lia).
  rewrite seq_nth by lia. cbn [Nat.add].
  rewrite dense_row_dot, bucket_dot_firstn;
    auto; intros e He; now apply (row_half_bounds A e Hok).
Qed.

Lemma dense_mul_transposed (A : MatrixSparse) (X : list Entry)
  (alpha beta : R) (x y : list R) :
  storage_ok A = true -> halves_agree A -> length y = _n A ->
  col_half_triples A = map swap_entry X ->
  map (fun t => alpha * bucket_dot X t (firstn (_m A) x)
                + beta * nth t y 0) (seq 0 (_n A))
  = axpby alpha (dense_mul_t (row_half_triples A) (_m A) (_n A) x) beta y.
Proof.
  intros Hok Hag Ly HX.
  rewrite (axpby_seq _ _ _ _ (_n A))
    by (auto; unfold dense_mul_t; now rewrite length_map, length_seq).
  assert (HP : Permutation X (map swap_entry (row_half_triples A))).
  { rewrite <- (map_id_ext (fun e => swap_entry (swap_entry e)) X)
      by apply swap_swap.
    rewrite <- map_map, <- HX. apply Permutation_map.
    apply Permutation_sym. exact Hag. }
  apply map_ext_in. intros t Ht. apply in_seq in Ht.
  unfold dense_mul_t. rewrite (nth_map_in _ _ _ 0%nat)
    by (rewrite length_seq; lia).
  rewrite seq_nth by lia. cbn [Nat.add].
  rewrite (bucket_dot_perm _ _ _ _ HP).
  rewrite dense_col_dot, bucket_dot_firstn; auto.
  - intros e He. apply in_map_iff in He. destruct He as ([[r c] v] & <- & He).
    apply (row_half_bounds A _ Hok He).
  - intros e He. apply (row_half_bounds A e Hok He).
Qed.

Lemma not_n_of_t (trans : ascii) :
  is_char trans "t" || is_char trans "T" = true ->
  is_char trans "n" || is_char trans "N" = false.
Proof.
  unfold is_char. intro H. apply orb_prop in H.
  destruct H as [H|H]; apply Ascii.eqb_eq in H; subst trans; reflexivity.
Qed.

(** [Mul] on an initialized matrix is the dense product. *)
Lemma Mul_dense (DEBUG : bool) (A : MatrixSparse) (trans : ascii)
  (alpha beta : R) (x y : list R) :
  Initialized A ->
  (is_char trans "n" || is_char trans "N" = true -> length y = _m A ->
   Mul DEBUG A trans alpha x beta y
   = Done (0%Z, axpby alpha (dense_mul (row_half_triples A) (_m A) (_n A) x)
                      beta y))
  /\ (is_char trans "t" || is_char trans "T" = true -> length y = _n A ->
      Mul DEBUG A trans alpha x beta y
      = Done (0%Z, axpby alpha
                     (dense_mul_t (row_half_triples A) (_m A) (_n A) x)
                     beta y)).
Proof.
  intros (Hd & Hok & Hag).
  assert (Hdbg : DEBUG_ASSERT DEBUG (_done_init A) = Done tt).
  { unfold DEBUG_ASSERT. rewrite Hd. now destruct DEBUG. }
  split; intros Ht Ly; unfold Mul; rewrite Hdbg, Hd; cbn [bind negb].
  - unfold OpToCblasOp. rewrite Ht. cbn [orb ASSERT bind].
    rewrite spblas_gemv_spec by exact Ly. cbn [vsize vdata].
    rewrite <- dense_mul_untransposed by auto.
    unfold row_half_triples, first_half, second_half, primary_dim,
      secondary_dim.
    destruct (_ord A); reflexivity.
  - unfold OpToCblasOp. rewrite (not_n_of_t trans Ht).
    replace (false || is_char trans "t" || is_char trans "T") with true
      by (cbn [orb]; now rewrite Ht).
    cbn [ASSERT bind].
    rewrite spblas_gemv_spec by exact Ly. cbn [vsize vdata].
    unfold col_half_triples, first_half, second_half, primary_dim,
      secondary_dim.
    destruct (_ord A) eqn:Eo;
      (erewrite <- dense_mul_transposed; [reflexivity| | | |]; auto;
       unfold col_half_triples, first_half, second_half, primary_dim,
         secondary_dim; rewrite Eo; reflexivity).
Qed.

(** ** [Equil] up to [MultDiag] *)

Section EquilProperties.

Variable DEBUG : bool.
Variable SinkhornKnopp : SinkhornKnopp_t.
Variable Norm2Est : Norm2Est_t.

Lemma length_transform_first (k : nat) (f : R -> R) (l : list R) :
  length (transform_first k f l) = length l.
Proof.
  unfold transform_first.
  rewrite length_app, length_map, length_firstn, length_skipn. lia.
Qed.

Lemma length_write_first (k : nat) (g : nat -> R) (l : list R) :
  length (write_first k g l) = length l.
Proof.
  unfold write_first.
  rewrite length_app, length_map, length_seq, length_skipn. lia.
Qed.

Lemma transform_first_all (k : nat) (f : R -> R) (l : list R) :
  length l = k -> transform_first k f l = map f l.
Proof.
  intro H. unfold transform_first. subst k.
  now rewrite firstn_all, skipn_all, app_nil_r.
Qed.

Lemma nth_vector_scale (k i : nat) (c : R) (l : list R) :
  (i < k)%nat -> nth i (vector_scale k c l) 0 = nth i l 0 * c.
Proof.
  intro H. unfold vector_scale, transform_first.
  destruct (Nat.lt_ge_cases i (length l)) as [Hi|Hi].
  - rewrite app_nth1 by (rewrite length_map, length_firstn; lia).
    rewrite (nth_map_in _ _ _ 0) by (rewrite length_firstn; lia).
    rewrite nth_firstn. now rewrite ltb_true by lia.
  - rewrite !nth_overflow; [lra|lia|].
    rewrite length_app, length_map, length_firstn, length_skipn. lia.
Qed.

Lemma length_Equil_scales (kEq : NormTypes) (A : MatrixSparse)
  (d e : list R) :
  length (fst (Equil_scales SinkhornKnopp kEq A d e)) = length d
  /\ length (snd (Equil_scales SinkhornKnopp kEq A d e)) = length e.
Proof.
  unfold Equil_scales. cbn [fst snd].
  destruct (norm2_or_fro kEq);
    rewrite ?length_transform_first, !length_write_first; auto.
Qed.

(** The sign codec leaves the values as they were: up to [MultDiag],
    [Equil] only computes the two scale vectors. *)
Lemma Equil_diag_eq (kEq : NormTypes) (A : MatrixSparse) (d e : list R) :
  length (_data A) = (2 * _nnz A)%nat ->
  Equil_diag SinkhornKnopp kEq A d e
  = (set_data A
       (MultDiag (fst (Equil_scales SinkhornKnopp kEq A d e))
                 (snd (Equil_scales SinkhornKnopp kEq A d e))
                 (_m A) (_n A) (_nnz A) (_ord A) (_data A) (_ind A) (_ptr A)),
     fst (Equil_scales SinkhornKnopp kEq A d e),
     snd (Equil_scales SinkhornKnopp kEq A d e)).
Proof.
  intro L. unfold Equil_diag, Equil_scales. cbv zeta.
  cbn [set_data _data _m _n _nnz _ord _ind _ptr fst snd].
  rewrite <- L. rewrite (sign_codec_roundtrip kEq (_data A)).
  reflexivity.
Qed.

Lemma Equil_diag_triples (kEq : NormTypes) (A : MatrixSparse)
  (d e : list R) :
  storage_ok A = true ->
  let X := Equil_diag SinkhornKnopp kEq A d e in
  let sc := Equil_scales SinkhornKnopp kEq A d e in
  snd (fst X) = fst sc /\ snd X = snd sc
  /\ storage_ok (fst (fst X)) = true
  /\ row_half_triples (fst (fst X))
     = scale_triples (fst sc) (snd sc) (row_half_triples A)
  /\ col_half_triples (fst (fst X))
     = scale_triples (fst sc) (snd sc) (col_half_triples A).
Proof.
  intros Hok X sc. subst X sc.
  destruct (storage_ok_shape A Hok) as [Sd _ _ _ _ _ _ _ _ _ _].
  rewrite Equil_diag_eq by exact Sd. cbn [fst snd].
  destruct (MultDiag_halves (fst (Equil_scales SinkhornKnopp kEq A d e))
              (snd (Equil_scales SinkhornKnopp kEq A d e)) A Hok)
    as (L & Hr & Hc).
  repeat split; auto.
  rewrite storage_ok_set_data; auto.
Qed.

(** ** The final division by [normA] *)

Lemma sum_squares_nonneg (l : list R) : 0 <= sum_squares l.
Proof.
  unfold sum_squares. induction l as [|a l IH]; simpl; [lra|]. nra.
Qed.

Lemma sum_squares_scale (c : R) (l : list R) :
  sum_squares (map (fun v => v * c) l) = c * c * sum_squares l.
Proof.
  unfold sum_squares. induction l as [|a l IH]; simpl; [lra|].
  rewrite IH. ring.
Qed.

Lemma blas_nrm2_scale (c : R) (l : list R) :
  0 <= c -> blas_nrm2 (map (fun v => v * c) l) = c * blas_nrm2 l.
Proof.
  intro Hc. unfold blas_nrm2. rewrite sum_squares_scale.
  rewrite sqrt_mult by (try apply sum_squares_nonneg; nra).
  now rewrite sqrt_square.
Qed.

Lemma fro_estimate_nonneg (A : MatrixSparse) : 0 <= fro_estimate A.
Proof.
  unfold fro_estimate, blas_nrm2, Rdiv.
  apply Rmult_le_pos; [apply sqrt_pos|].
  destruct (Req_dec (sqrt (INR (Nat.min (_m A) (_n A)))) 0) as [->|Hne].
  - rewrite Rinv_0. lra.
  - left. apply Rinv_0_lt_compat.
    pose proof (sqrt_pos (INR (Nat.min (_m A) (_n A)))). lra.
Qed.

Lemma fro_estimate_scaled (A : MatrixSparse) :
  length (_data A) = (2 * _nnz A)%nat -> fro_estimate A <> 0 ->
  fro_estimate
    (set_data A (vector_scale (2 * _nnz A) (1 / fro_estimate A) (_data A)))
  = 1.
Proof.
  intros L Hne. pose proof (fro_estimate_nonneg A) as Hpos.
  unfold vector_scale. rewrite transform_first_all by exact L.
  unfold fro_estimate at 1. cbn [set_data _data _m _n _nnz].
  rewrite firstn_map, blas_nrm2_scale.
  - fold (fro_estimate A) in *. unfold Rdiv. rewrite Rmult_assoc.
    change (blas_nrm2 (firstn (_nnz A) (_data A))
            * / sqrt (INR (Nat.min (_m A) (_n A))))
      with (fro_estimate A).
    field. exact Hne.
  - apply Rlt_le. apply Rdiv_lt_0_compat; lra.
Qed.

Lemma scale_triples_normalized (d e : list R) (c s : R) (m n : nat)
  (E : list Entry) :
  s * s = c ->
  (forall t, In t E -> (bucket_index t < m)%nat /\ (paired_index t < n)%nat) ->
  map (on_value (fun v => v * c)) (scale_triples d e E)
  = scale_triples (vector_scale m s d) (vector_scale n s e) E.
Proof.
  intros Hs HE. unfold scale_triples. rewrite map_map.
  apply map_ext_in. intros [[r k] v] Ht. destruct (HE _ Ht) as [Hr Hk].
  unfold on_value, bucket_index, paired_index, entry_value in *.
  cbn [fst snd] in *.
  rewrite !nth_vector_scale by lia. rewrite <- Hs. f_equal. ring.
Qed.

(** ** The states of [Equil] *)

Lemma vector_scale_all (k : nat) (c : R) (l : list R) :
  length l = k -> vector_scale k c l = map (fun v => v * c) l.
Proof. apply transform_first_all. Qed.

Lemma col_half_bounds (A : MatrixSparse) (e : Entry) :
  storage_ok A = true -> In e (col_half_triples A) ->
  (bucket_index e < _m A)%nat /\ (paired_index e < _n A)%nat.
Proof.
  intros Hok He. unfold col_half_triples in He.
  apply in_map_iff in He. destruct He as ([[a b] v] & <- & He).
  pose proof (first_half_bounds A (a, b, v) Hok) as H1.
  pose proof (second_half_bounds A (a, b, v) Hok) as H2.
  unfold primary_dim, secondary_dim, swap_entry, bucket_index,
    paired_index in *. cbn [fst snd] in *.
  destruct (_ord A); [apply H2 in He|apply H1 in He]; lia.
Qed.

Lemma Initialized_set_data (A : MatrixSparse) (data : list R) :
  Initialized A -> length data = length (_data A) ->
  halves_agree (set_data A data) -> Initialized (set_data A data).
Proof.
  intros (Hd & Hok & _) L H. repeat split; auto.
  now rewrite storage_ok_set_data.
Qed.

Lemma Equil_states_Initialized (kEq : NormTypes) (normA : R)
  (A : MatrixSparse) (d e : list R) :
  Initialized A ->
  Forall Initialized (Equil_states SinkhornKnopp kEq normA A d e).
Proof.
  intros HI. pose proof HI as (Hd & Hok & Hag).
  destruct (storage_ok_shape A Hok) as [Sd _ _ _ _ _ _ _ _ _ _].
  unfold Equil_states. cbv zeta.
  rewrite <- Sd at 1 2 3 4 5 6.
  rewrite sign_codec_roundtrip, Equil_set_signs_values, set_data_same.
  rewrite Sd, Equil_diag_eq by exact Sd. cbn [fst snd].
  set (sc := Equil_scales SinkhornKnopp kEq A d e).
  assert (H1 : Initialized
                 (set_data A (map (fun v => forward_functor kEq (Rabs v))
                                  (_data A)))).
  { apply Initialized_set_data; auto.
    - now rewrite length_map.
    - now apply halves_agree_map. }
  destruct (MultDiag_halves (fst sc) (snd sc) A Hok) as (L5 & _ & _).
  assert (H5 : Initialized
                 (set_data A (MultDiag (fst sc) (snd sc) (_m A) (_n A)
                                (_nnz A) (_ord A) (_data A) (_ind A)
                                (_ptr A)))).
  { apply Initialized_set_data; auto. now apply halves_agree_MultDiag. }
  do 4 (apply Forall_cons; [assumption|]).
  apply Forall_cons; [|apply Forall_nil].
  set (A5 := set_data A _) in *.
  rewrite vector_scale_all by (rewrite L5; exact Sd).
  destruct H5 as (Hd5 & Hok5 & Hag5).
  repeat split; auto.
  - rewrite storage_ok_set_data; auto. now rewrite length_map.
  - now apply halves_agree_map.
Qed.

Lemma Equil_with_result (kEq kNrm : NormTypes) (A A' : MatrixSparse)
  (d e d' e' : list R) (st : Z) :
  _done_init A = true ->
  Equil_with DEBUG SinkhornKnopp Norm2Est kEq kNrm A d e
  = Done (st, A', d', e') ->
  exists normA,
    NormEst Norm2Est kNrm (fst (fst (Equil_diag SinkhornKnopp kEq A d e)))
    = Done normA
    /\ st = 0%Z
    /\ A' = last (Equil_states SinkhornKnopp kEq normA A d e) A.
Proof.
  intros Hd. unfold Equil_with, DEBUG_ASSERT. rewrite Hd.
  replace (if DEBUG then ASSERT true else Done tt) with (Done tt)
    by now destruct DEBUG.
  cbn [bind negb]. unfold Equil_states. cbv zeta.
  destruct (Equil_diag SinkhornKnopp kEq A d e) as [[A5 d5] e5].
  cbn [fst snd last].
  destruct (NormEst Norm2Est kNrm A5) as [|normA]; cbn [bind]; [discriminate|].
  intro H. inversion H; subst. exists normA. auto.
Qed.

(** ** The first half of the storage, in buffer order *)

Lemma first_half_values (A : MatrixSparse) :
  storage_ok A = true ->
  map entry_value (first_half A) = firstn (_nnz A) (_data A).
Proof.
  intro Hok. destruct (storage_ok_shape A Hok)
    as [Sd Si Sp F0 F1 Fm S0 S1 Sm Fi Gi].
  unfold first_half, entries, bucket.
  rewrite map_flat_map.
  rewrite (flat_map_ext _ (fun t =>
             map (fun i => nth i (_data A) 0)
                 (seq (nth (0 + t) (_ptr A) 0)
                      (nth (0 + t + 1) (_ptr A) 0
                       - nth (0 + t) (_ptr A) 0))%nat))
    by (intro t; rewrite map_map; reflexivity).
  rewrite <- map_flat_map, flat_map_ranges by exact Fm.
  cbn [Nat.add]. rewrite F0, F1, Nat.sub_0_r.
  apply (nth_ext _ _ 0 0).
  - rewrite length_map, length_seq, length_firstn. lia.
  - intros k Hk. rewrite length_map, length_seq in Hk.
    rewrite (nth_map_in _ _ _ 0%nat) by now rewrite length_seq.
    rewrite seq_nth by exact Hk. rewrite nth_firstn.
    now rewrite ltb_true by exact Hk.
Qed.

Lemma sum_squares_perm (l1 l2 : list R) :
  Permutation l1 l2 -> sum_squares l1 = sum_squares l2.
Proof.
  unfold sum_squares. induction 1; simpl; lra.
Qed.

Lemma row_half_norm (A : MatrixSparse) :
  Initialized A ->
  blas_nrm2 (firstn (_nnz A) (_data A))
  = blas_nrm2 (map entry_value (row_half_triples A)).
Proof.
  intros (_ & Hok & Hag). rewrite <- first_half_values by exact Hok.
  unfold blas_nrm2. f_equal.
  unfold halves_agree, row_half_triples, col_half_triples in *.
  destruct (_ord A); [reflexivity|].
  apply sum_squares_perm. apply Permutation_sym.
  apply (Permutation_map entry_value) in Hag.
  rewrite map_map in Hag. exact Hag.
Qed.

End EquilProperties.

(** ** Further facts on [Equil] and on the scenario matrices *)

Lemma for_loop_snoc {St : Type} (body : nat -> St -> St) (cnt lo : nat)
  (s : St) :
  for_loop lo (S cnt) body s = body (lo + cnt)%nat (for_loop lo cnt body s).
Proof.
  revert lo s; induction cnt as [|cnt IH]; intros lo s.
  - simpl. now rewrite Nat.add_0_r.
  - change (for_loop lo (S (S cnt)) body s)
      with (for_loop (S lo) (S cnt) body (body lo s)).
    rewrite IH. simpl. now rewrite Nat.add_succ_r.
Qed.

Lemma square_abs (v : R) : SquareF (Rabs v) = SquareF v.
Proof.
  unfold SquareF, Rabs. destruct (Rcase_abs v); ring.
Qed.

Lemma inv_sqrt_square (c : R) :
  0 < c -> 1 / sqrt c * (1 / sqrt c) = 1 / c.
Proof.
  intro Hc. pose proof (sqrt_lt_R0 c Hc) as Hs.
  rewrite <- (sqrt_sqrt c) at 3 by lra. field. lra.
Qed.

Lemma sqrt_ratio_nonzero (a b : R) : 0 < a -> 0 < b -> sqrt a / sqrt b <> 0.
Proof.
  intros Ha Hb. pose proof (sqrt_lt_R0 a Ha). pose proof (sqrt_lt_R0 b Hb).
  apply Rgt_not_eq. apply Rdiv_lt_0_compat; lra.
Qed.

Lemma Done_0_not_1 (X : Outcome R) :
  X = Done 0 -> X = Done 0 /\ X <> Done 1.
Proof.
  intros ->. split; [reflexivity|]. intro E. inversion E. lra.
Qed.

Lemma DEBUG_ASSERT_true (DEBUG : bool) : DEBUG_ASSERT DEBUG true = Done tt.
Proof. now destruct DEBUG. Qed.

Lemma Equil_unfold (DEBUG : bool) (SinkhornKnopp : SinkhornKnopp_t)
  (Norm2Est : Norm2Est_t) (A : MatrixSparse) (d e : list R) :
  _done_init A = true ->
  Equil DEBUG SinkhornKnopp Norm2Est A d e
  = let X := Equil_diag SinkhornKnopp kNormEquilibrate A d e in
    let normA := fro_estimate (fst (fst X)) in
    Done (0%Z,
          set_data (fst (fst X))
            (vector_scale (2 * _nnz A) (1 / normA) (_data (fst (fst X)))),
          vector_scale (_m (fst (fst X))) (1 / sqrt normA) (snd (fst X)),
          vector_scale (_n (fst (fst X))) (1 / sqrt normA) (snd X)).
Proof.
  intro Hd. unfold Equil, Equil_with. rewrite Hd, DEBUG_ASSERT_true.
  cbn [bind negb]. cbv zeta.
  destruct (Equil_diag SinkhornKnopp kNormEquilibrate A d e) as [[A5 d5] e5].
  reflexivity.
Qed.

Lemma first_second_agree (A : MatrixSparse) :
  halves_agree A ->
  Permutation (first_half A) (map swap_entry (second_half A)).
Proof.
  unfold halves_agree, row_half_triples, col_half_triples.
  destruct (_ord A); intro H; [exact H|].
  apply Permutation_sym. apply (Permutation_map swap_entry) in H.
  rewrite map_map in H.
  rewrite (map_id_ext (fun x => swap_entry (swap_entry x))) in H
    by apply swap_swap.
  exact H.
Qed.

Lemma scenario_Initialized : Initialized scenario_matrix.
Proof.
  split; [reflexivity|]. split; [reflexivity|].
  unfold halves_agree. apply Permutation_refl.
Qed.

Lemma empty_Initialized : Initialized empty_matrix.
Proof.
  split; [reflexivity|]. split; [reflexivity|].
  unfold halves_agree. apply Permutation_refl.
Qed.

Lemma scenario_estimate :
  fro_estimate
    (fst (fst (Equil_diag unit_scales kNormEquilibrate scenario_matrix
                          [0; 0] [0; 0]))) <> 0.
Proof.
  rewrite Equil_diag_eq by reflexivity.
  unfold fro_estimate, blas_nrm2.
  lazy -[Rplus Rmult Rdiv Rinv sqrt IZR INR Rminus Ropp].
  rewrite sqrt_1. apply sqrt_ratio_nonzero; [lra|]. apply lt_0_INR. lia.
Qed.

(** * Further properties of the code *)

(** ** Dense reference and the constructor *)

Lemma dense_entry_perm (E E' : list Entry) (i j : nat) :
  Permutation E E' -> dense_entry E i j = dense_entry E' i j.
Proof.
  induction 1 as [|e l l' _ IH|a b l|l l' l'' _ IH1 _ IH2].
  - reflexivity.
  - rewrite !dense_entry_cons, IH. reflexivity.
  - rewrite !dense_entry_cons.
    destruct ((bucket_index a =? i)%nat && (paired_index a =? j)%nat),
      ((bucket_index b =? i)%nat && (paired_index b =? j)%nat); lra.
  - congruence.
Qed.

Lemma product_reference_perm (E E' : list Entry) (m n : nat) (trans : ascii)
  (alpha beta : R) (x y : list R) :
  Permutation E E' ->
  product_reference E m n trans alpha x beta y
  = product_reference E' m n trans alpha x beta y.
Proof.
  intro HP. unfold product_reference, dense_mul, dense_mul_t.
  destruct (is_char trans "n" || is_char trans "N");
    (f_equal; apply map_ext; intro a; f_equal; apply map_ext; intro b;
     now rewrite (dense_entry_perm _ _ _ _ HP)).
Qed.

Lemma MatrixSparse_new_fields (ord : ascii) (m n nnz : nat) (data : list R)
  (ptr ind : list nat) (A0 : MatrixSparse) :
  MatrixSparse_new ord m n nnz data ptr ind = Done A0 ->
  A0 = mkMatrixSparse m n (mkCpuData data ptr ind) false [] [] [] nnz
         (if is_char ord "r" || is_char ord "R" then ROW else COL)
  /\ is_char ord "r" || is_char ord "R" || is_char ord "c"
     || is_char ord "C" = true.
Proof.
  unfold MatrixSparse_new, ASSERT.
  destruct (is_char ord "r" || is_char ord "R" || is_char ord "c"
            || is_char ord "C"); cbn [bind]; [|discriminate].
  intro H. inversion H. auto.
Qed.

(** [Init] on valid input, then [Mul], against the caller's arrays. *)
Lemma Init_then_Mul (DEBUG : bool) (A0 : MatrixSparse) :
  _done_init A0 = false -> valid_input A0 = true ->
  exists A,
    Init DEBUG A0 = Done (0%Z, A)
    /\ forall trans alpha x beta y,
         is_char trans "n" || is_char trans "N" || is_char trans "t"
         || is_char trans "T" = true ->
         length y = (if is_char trans "n" || is_char trans "N" then _m A0
                     else _n A0) ->
         Mul DEBUG A trans alpha x beta y
         = Done (0%Z, product_reference (input_triples A0) (_m A0) (_n A0)
                                        trans alpha x beta y).
Proof.
  intros Hd Hv.
  destruct (Init_Initialized DEBUG A0 Hd Hv)
    as (A & HI & HA & Em & En & _ & _ & HP).
  exists A. split; [exact HI|].
  intros trans alpha x beta y Ht Ly.
  destruct (Mul_dense DEBUG A trans alpha beta x y HA) as [Hnn Htt].
  rewrite <- (product_reference_perm _ _ _ _ _ _ _ _ _ HP).
  unfold product_reference. rewrite <- Em, <- En in *.
  destruct (is_char trans "n" || is_char trans "N") eqn:En'.
  - now apply Hnn.
  - apply Htt; [|exact Ly]. cbn [orb] in Ht. exact Ht.
Qed.

Lemma dense_mul_swap (E : list Entry) (m n : nat) (x : list R) :
  dense_mul (map swap_entry E) n m x = dense_mul_t E m n x.
Proof.
  unfold dense_mul, dense_mul_t. apply map_ext. intro j. f_equal.
  apply map_ext. intro i. now rewrite dense_entry_swap.
Qed.

Lemma dense_mul_t_swap (E : list Entry) (m n : nat) (x : list R) :
  dense_mul_t (map swap_entry E) n m x = dense_mul E m n x.
Proof.
  unfold dense_mul, dense_mul_t. apply map_ext. intro i. f_equal.
  apply map_ext. intro j. now rewrite dense_entry_swap.
Qed.

Lemma dense_entry_scale (d e : list R) (E : list Entry) (i j : nat) :
  dense_entry (scale_triples d e E) i j
  = nth i d 0 * dense_entry E i j * nth j e 0.
Proof.
  induction E as [|[[r c] v] E IH].
  - cbn. ring.
  - change (scale_triples d e ((r, c, v) :: E))
      with ((r, c, nth r d 0 * v * nth c e 0) :: scale_triples d e E).
    rewrite !dense_entry_cons, IH.
    unfold bucket_index, paired_index, entry_value. cbn [fst snd].
    destruct (r =? i)%nat eqn:Ei; destruct (c =? j)%nat eqn:Ej; cbn [andb];
      try reflexivity.
    apply Nat.eqb_eq in Ei, Ej. rewrite Ei, Ej. ring.
Qed.

(** ** The cells of the value buffer *)

Lemma bucket_of_spec (po : nat) (ptr : list nat) (i size : nat) :
  (nth po ptr 0 <= i < nth (po + size) ptr 0)%nat ->
  (bucket_of po ptr i size < size)%nat
  /\ (nth (po + bucket_of po ptr i size) ptr 0 <= i
      < nth (po + bucket_of po ptr i size + 1) ptr 0)%nat.
Proof.
  induction size as [|k IH]; intro H.
  - rewrite Nat.add_0_r in H. lia.
  - cbn [bucket_of]. destruct (nth (po + k) ptr 0 <=? i)%nat eqn:E.
    + apply Nat.leb_le in E.
      replace (po + k + 1)%nat with (po + S k)%nat by lia. lia.
    + apply Nat.leb_gt in E. destruct IH as [IH1 IH2]; [lia|]. lia.
Qed.

Lemma mult_half_cells (fac : nat -> nat -> R) (io po : nat) (data : list R)
  (ptr ind : list nat) (size : nat) :
  monotone po ptr size ->
  (io + nth (po + size) ptr 0 <= length data)%nat ->
  forall t i, (t < size)%nat ->
    (nth (po + t) ptr 0 <= i < nth (po + t + 1) ptr 0)%nat ->
    nth (io + i) (mult_half fac io po data ptr ind size) 0
    = nth (io + i) data 0 * fac t (nth (io + i) ind 0%nat).
Proof.
  intros Hm Hlen.
  pose (P := fun (t : nat) (s : list R) =>
    length s = length data /\
    (forall k, (io + nth (po + t) ptr 0 <= k)%nat ->
       nth k s 0 = nth k data 0) /\
    (forall t' i, (t' < t)%nat ->
       (nth (po + t') ptr 0 <= i < nth (po + t' + 1) ptr 0)%nat ->
       nth (io + i) s 0
       = nth (io + i) data 0 * fac t' (nth (io + i) ind 0%nat))).
  assert (H : P (0 + size)%nat (mult_half fac io po data ptr ind size)).
  { unfold mult_half. apply for_loop_inv; unfold P.
    - repeat split; intros; lia.
    - intros t s Ht (L & Out & Done).
      pose proof (Hm t ltac:(lia)) as Hstep.
      pose proof (monotone_le po ptr size (t + 1) size Hm ltac:(lia)) as Hhigh.
      rewrite Nat.add_assoc in Hhigh.
      unfold for_range.
      destruct (for_loop_upd
                  (fun i v => v * fac t (nth (io + i) ind 0%nat)) io
                  (nth (po + t + 1) ptr 0 - nth (po + t) ptr 0)%nat
                  (nth (po + t) ptr 0%nat) s) as [L' X'].
      cbv zeta in L', X'.
      set (s' := for_loop _ _ _ s) in *.
      replace (po + S t)%nat with (po + t + 1)%nat by lia.
      split; [congruence|]. split.
      + intros k Hk.
        destruct (Nat.lt_ge_cases k (length s)) as [Hin|Hout].
        * rewrite X' by exact Hin.
          rewrite ltb_false by lia. rewrite andb_false_r.
          apply Out. lia.
        * rewrite !nth_overflow by lia. reflexivity.
      + intros t' i Ht' Hi.
        destruct (Nat.eq_dec t' t) as [->|Hne].
        * rewrite X' by lia.
          rewrite leb_true, ltb_true by lia. cbn [andb].
          rewrite Out by lia.
          replace (io + (io + i - io))%nat with (io + i)%nat by lia.
          reflexivity.
        * rewrite <- Done by lia.
          pose proof (monotone_le po ptr size (t' + 1) t Hm ltac:(lia)) as Hb.
          rewrite Nat.add_assoc in Hb.
          rewrite X' by lia.
          rewrite leb_false by lia. reflexivity. }
  destruct H as (_ & _ & Done). intros t i Ht Hi. apply Done; [lia|exact Hi].
Qed.

Lemma cell_bucket_first (A : MatrixSparse) (k : nat) :
  storage_ok A = true -> (k < _nnz A)%nat ->
  (cell_bucket A k < primary_dim A)%nat
  /\ (nth (0 + cell_bucket A k) (_ptr A) 0 <= k
      < nth (0 + cell_bucket A k + 1) (_ptr A) 0)%nat.
Proof.
  intros Hok Hk.
  destruct (storage_ok_shape A Hok) as [Sd Si Sp F0 F1 Fm S0 S1 Sm Fi Gi].
  unfold cell_bucket. rewrite ltb_true by exact Hk.
  apply bucket_of_spec. cbn [Nat.add]. lia.
Qed.

Lemma cell_bucket_second (A : MatrixSparse) (k : nat) :
  storage_ok A = true -> (_nnz A <= k < 2 * _nnz A)%nat ->
  (cell_bucket A k < secondary_dim A)%nat
  /\ (nth (primary_dim A + 1 + cell_bucket A k) (_ptr A) 0 <= k - _nnz A
      < nth (primary_dim A + 1 + cell_bucket A k + 1) (_ptr A) 0)%nat.
Proof.
  intros Hok Hk.
  destruct (storage_ok_shape A Hok) as [Sd Si Sp F0 F1 Fm S0 S1 Sm Fi Gi].
  unfold cell_bucket. rewrite ltb_false by lia.
  apply bucket_of_spec. lia.
Qed.

Lemma cell_bounds (A : MatrixSparse) (k : nat) :
  storage_ok A = true -> (k < 2 * _nnz A)%nat ->
  (cell_row A k < _m A)%nat /\ (cell_col A k < _n A)%nat.
Proof.
  intros Hok Hk.
  destruct (storage_ok_shape A Hok) as [Sd Si Sp F0 F1 Fm S0 S1 Sm Fi Gi].
  unfold cell_row, cell_col, in_row_half.
  destruct (Nat.lt_ge_cases k (_nnz A)) as [Hlt|Hge].
  - destruct (cell_bucket_first A k Hok Hlt) as [Hb _].
    specialize (Fi k Hlt).
    rewrite ltb_true by exact Hlt.
    unfold primary_dim, secondary_dim in *.
    destruct (_ord A); cbn [negb]; lia.
  - destruct (cell_bucket_second A k Hok ltac:(lia)) as [Hb _].
    specialize (Gi (k - _nnz A)%nat ltac:(lia)).
    replace (_nnz A + (k - _nnz A))%nat with k in Gi by lia.
    rewrite ltb_false by exact Hge.
    unfold primary_dim, secondary_dim in *.
    destruct (_ord A); cbn [negb]; lia.
Qed.

(** Every cell of the value buffer is multiplied once, by the scale of its
    own row and of its own column. *)
Lemma MultDiag_cells (d e : list R) (A : MatrixSparse) :
  storage_ok A = true ->
  let r := MultDiag d e (_m A) (_n A) (_nnz A) (_ord A) (_data A) (_ind A)
                    (_ptr A) in
  length r = length (_data A)
  /\ forall k, (k < 2 * _nnz A)%nat ->
       nth k r 0
       = nth k (_data A) 0 * (nth (cell_row A k) d 0 * nth (cell_col A k) e 0).
Proof.
  intros Hok r.
  destruct (storage_ok_shape A Hok) as [Sd Si Sp F0 F1 Fm S0 S1 Sm Fi Gi].
  assert (Cf := cell_bucket_first A). assert (Cs := cell_bucket_second A).
  unfold cell_row, cell_col, in_row_half.
  unfold primary_dim, secondary_dim in *. subst r. unfold MultDiag.
  destruct (_ord A); rewrite MultRow_mult_half, MultCol_mult_half.
  - set (f1 := fun t c : nat => nth t d 0 * nth c e 0).
    set (f2 := fun t r : nat => nth r d 0 * nth t e 0).
    set (data1 := mult_half f1 0 0 (_data A) (_ptr A) (_ind A) (_m A)).
    destruct (mult_half_spec f1 0 0 (_data A) (_ptr A) (_ind A) (_m A) Fm)
      as (L1 & Out1 & _); [cbn [Nat.add]; lia|].
    fold data1 in L1, Out1.
    destruct (mult_half_spec f2 (_nnz A) (_m A + 1) data1 (_ptr A) (_ind A)
                (_n A) Sm) as (L2 & Out2 & _); [lia|].
    split; [congruence|]. intros k Hk.
    destruct (Nat.lt_ge_cases k (_nnz A)) as [Hlt|Hge].
    + rewrite ltb_true by exact Hlt.
      destruct (Cf k Hok Hlt) as [Hb Hr].
      rewrite Out2 by lia.
      apply (mult_half_cells f1 0 0 (_data A) (_ptr A) (_ind A) (_m A) Fm
               ltac:(cbn [Nat.add]; lia) _ k Hb Hr).
    + rewrite ltb_false by exact Hge.
      destruct (Cs k Hok ltac:(lia)) as [Hb Hr].
      pose proof (mult_half_cells f2 (_nnz A) (_m A + 1) data1 (_ptr A)
                    (_ind A) (_n A) Sm ltac:(lia) _ (k - _nnz A)%nat Hb Hr)
        as Hc.
      replace (_nnz A + (k - _nnz A))%nat with k in Hc by lia.
      rewrite Hc. rewrite Out1 by (cbn [Nat.add]; lia). reflexivity.
  - set (f1 := fun t r : nat => nth r d 0 * nth t e 0).
    set (f2 := fun t c : nat => nth t d 0 * nth c e 0).
    set (data1 := mult_half f1 0 0 (_data A) (_ptr A) (_ind A) (_n A)).
    destruct (mult_half_spec f1 0 0 (_data A) (_ptr A) (_ind A) (_n A) Fm)
      as (L1 & Out1 & _); [cbn [Nat.add]; lia|].
    fold data1 in L1, Out1.
    destruct (mult_half_spec f2 (_nnz A) (_n A + 1) data1 (_ptr A) (_ind A)
                (_m A) Sm) as (L2 & Out2 & _); [lia|].
    split; [congruence|]. intros k Hk.
    destruct (Nat.lt_ge_cases k (_nnz A)) as [Hlt|Hge].
    + rewrite ltb_true by exact Hlt.
      destruct (Cf k Hok Hlt) as [Hb Hr].
      rewrite Out2 by lia.
      apply (mult_half_cells f1 0 0 (_data A) (_ptr A) (_ind A) (_n A) Fm
               ltac:(cbn [Nat.add]; lia) _ k Hb Hr).
    + rewrite ltb_false by exact Hge.
      destruct (Cs k Hok ltac:(lia)) as [Hb Hr].
      pose proof (mult_half_cells f2 (_nnz A) (_n A + 1) data1 (_ptr A)
                    (_ind A) (_m A) Sm ltac:(lia) _ (k - _nnz A)%nat Hb Hr)
        as Hc.
      replace (_nnz A + (k - _nnz A))%nat with k in Hc by lia.
      rewrite Hc. rewrite Out1 by (cbn [Nat.add]; lia). reflexivity.
Qed.

Lemma nth_hadamard (u v : list R) (k : nat) :
  nth k (hadamard u v) 0 = nth k u 0 * nth k v 0.
Proof.
  unfold hadamard. revert v k.
  induction u as [|a u IH]; intros v k.
  - cbn [combine map]. destruct k; cbn [nth]; lra.
  - destruct v as [|b v].
    + cbn [combine map]. destruct k; cbn [nth]; lra.
    + destruct k as [|k]; cbn [combine map nth fst snd]; [lra|apply IH].
Qed.

Lemma list_eq_nth (l l' : list R) :
  length l = length l' ->
  (forall k, (k < length l)%nat -> nth k l 0 = nth k l' 0) -> l = l'.
Proof.
  intros HL Hn. apply (nth_ext l l' 0 0 HL). exact Hn.
Qed.

Lemma MultDiag_twice (d1 e1 d2 e2 : list R) (A : MatrixSparse) :
  storage_ok A = true ->
  let data1 := MultDiag d1 e1 (_m A) (_n A) (_nnz A) (_ord A) (_data A)
                        (_ind A) (_ptr A) in
  let data2 := MultDiag d2 e2 (_m A) (_n A) (_nnz A) (_ord A) data1
                        (_ind A) (_ptr A) in
  length data2 = length (_data A)
  /\ forall k, (k < 2 * _nnz A)%nat ->
       nth k data2 0
       = nth k (_data A) 0
         * (nth (cell_row A k) d1 0 * nth (cell_col A k) e1 0)
         * (nth (cell_row A k) d2 0 * nth (cell_col A k) e2 0).
Proof.
  intros Hok data1 data2.
  destruct (MultDiag_cells d1 e1 A Hok) as [L1 C1]. fold data1 in L1, C1.
  assert (Hok1 : storage_ok (set_data A data1) = true)
    by (rewrite storage_ok_set_data; [exact Hok|exact L1]).
  destruct (MultDiag_cells d2 e2 (set_data A data1) Hok1) as [L2 C2].
  change (length data2 = length data1) in L2.
  change (forall k, (k < 2 * _nnz A)%nat ->
            nth k data2 0
            = nth k data1 0
              * (nth (cell_row A k) d2 0 * nth (cell_col A k) e2 0)) in C2.
  split; [congruence|]. intros k Hk. rewrite C2, C1 by exact Hk. reflexivity.
Qed.

Lemma nth_map_Rinv (d : list R) (r : nat) :
  nth r d 0 <> 0 -> nth r (map Rinv d) 0 = / nth r d 0.
Proof.
  intro H. destruct (Nat.lt_ge_cases r (length d)) as [Hlt|Hge].
  - apply (nth_map_in Rinv d r 0 0 Hlt).
  - rewrite nth_overflow in H by exact Hge. contradiction.
Qed.

(** ** [Equil], cell by cell *)

Lemma skipn_app_first {X : Type} (k : nat) (l1 l : list X) :
  length l1 = Nat.min k (length l) ->
  skipn k (l1 ++ skipn k l) = skipn k l.
Proof.
  intro H. rewrite skipn_app, skipn_skipn.
  rewrite (skipn_all2 l1) by lia. cbn [app].
  destruct (Nat.le_gt_cases k (length l)) as [Hle|Hgt].
  - f_equal. lia.
  - rewrite !skipn_all2 by lia. reflexivity.
Qed.

Lemma skipn_transform_first (k : nat) (f : R -> R) (l : list R) :
  skipn k (transform_first k f l) = skipn k l.
Proof.
  unfold transform_first. apply skipn_app_first.
  now rewrite length_map, length_firstn.
Qed.

Lemma skipn_write_first (k : nat) (g : nat -> R) (l : list R) :
  skipn k (write_first k g l) = skipn k l.
Proof.
  unfold write_first. apply skipn_app_first.
  now rewrite length_map, length_seq.
Qed.

Lemma nth_transform_first (k i : nat) (f : R -> R) (l : list R) :
  f 0 = 0 -> (i < k)%nat -> nth i (transform_first k f l) 0 = f (nth i l 0).
Proof.
  intros H0 H. unfold transform_first.
  destruct (Nat.lt_ge_cases i (length l)) as [Hi|Hi].
  - rewrite app_nth1 by (rewrite length_map, length_firstn; lia).
    rewrite (nth_map_in _ _ _ 0) by (rewrite length_firstn; lia).
    rewrite nth_firstn. now rewrite ltb_true by lia.
  - rewrite !nth_overflow; [now rewrite H0|lia|].
    rewrite length_app, length_map, length_firstn, length_skipn. lia.
Qed.

Lemma Equil_scales_nonneg (SinkhornKnopp : SinkhornKnopp_t)
  (A : MatrixSparse) (d e : list R) :
  (forall i, (i < _m A)%nat ->
     0 <= nth i (fst (Equil_scales SinkhornKnopp kNormEquilibrate A d e)) 0)
  /\ (forall j, (j < _n A)%nat ->
        0 <= nth j (snd (Equil_scales SinkhornKnopp kNormEquilibrate A d e))
                   0).
Proof.
  unfold Equil_scales. cbn [norm2_or_fro kNormEquilibrate NormTypes_eqb orb
                            fst snd].
  split; intros i Hi; rewrite nth_transform_first by (apply sqrt_0 || exact Hi);
    apply sqrt_pos.
Qed.

Lemma Equil_scales_tail (SinkhornKnopp : SinkhornKnopp_t)
  (A : MatrixSparse) (d e : list R) :
  skipn (_m A) (fst (Equil_scales SinkhornKnopp kNormEquilibrate A d e))
  = skipn (_m A) d
  /\ skipn (_n A) (snd (Equil_scales SinkhornKnopp kNormEquilibrate A d e))
     = skipn (_n A) e.
Proof.
  unfold Equil_scales. cbn [norm2_or_fro kNormEquilibrate NormTypes_eqb orb
                            fst snd].
  now rewrite !skipn_transform_first, !skipn_write_first.
Qed.

(** [Equil] on an initialized matrix, cell by cell. *)
Lemma Equil_cells (DEBUG : bool) (SinkhornKnopp : SinkhornKnopp_t)
  (Norm2Est : Norm2Est_t) (A : MatrixSparse) (d e : list R) :
  _done_init A = true -> storage_ok A = true ->
  let sc := Equil_scales SinkhornKnopp kNormEquilibrate A d e in
  let normA :=
    fro_estimate
      (fst (fst (Equil_diag SinkhornKnopp kNormEquilibrate A d e))) in
  exists data',
    Equil DEBUG SinkhornKnopp Norm2Est A d e
    = Done (0%Z, set_data A data',
            vector_scale (_m A) (1 / sqrt normA) (fst sc),
            vector_scale (_n A) (1 / sqrt normA) (snd sc))
    /\ length data' = length (_data A)
    /\ forall k, (k < 2 * _nnz A)%nat ->
         nth k data' 0
         = nth k (_data A) 0
           * (nth (cell_row A k) (fst sc) 0 * nth (cell_col A k) (snd sc) 0)
           * (1 / normA).
Proof.
  intros Hd Hok sc normA.
  destruct (storage_ok_shape A Hok) as [Sd _ _ _ _ _ _ _ _ _ _].
  destruct (MultDiag_cells (fst sc) (snd sc) A Hok) as [L5 C5].
  subst normA. rewrite (Equil_unfold DEBUG SinkhornKnopp Norm2Est) by exact Hd.
  cbv zeta. rewrite (Equil_diag_eq SinkhornKnopp _ A d e Sd). fold sc.
  cbn [fst snd].
  set (data5 := MultDiag (fst sc) (snd sc) (_m A) (_n A) (_nnz A) (_ord A)
                         (_data A) (_ind A) (_ptr A)) in *.
  set (normA := fro_estimate (set_data A data5)).
  exists (vector_scale (2 * _nnz A) (1 / normA) data5).
  split; [reflexivity|]. split.
  - unfold vector_scale. rewrite length_transform_first. exact L5.
  - intros k Hk. rewrite nth_vector_scale by exact Hk.
    rewrite C5 by exact Hk. reflexivity.
Qed.

(** The matrix [Equil] returns, by triples. *)
Lemma Equil_triples (DEBUG : bool) (SinkhornKnopp : SinkhornKnopp_t)
  (Norm2Est : Norm2Est_t) (A A' : MatrixSparse) (d e d' e' : list R)
  (st : Z) :
  Initialized A ->
  fro_estimate (fst (fst (Equil_diag SinkhornKnopp kNormEquilibrate A d e)))
  <> 0 ->
  Equil DEBUG SinkhornKnopp Norm2Est A d e = Done (st, A', d', e') ->
  Initialized A' /\ _m A' = _m A /\ _n A' = _n A
  /\ row_half_triples A' = scale_triples d' e' (row_half_triples A).
Proof.
  intros HI Hne HE. pose proof HI as (Hd & Hok & Hag).
  split.
  { unfold Equil in HE.
    destruct (Equil_with_result DEBUG SinkhornKnopp Norm2Est _ _ _ _ _ _ _ _
                _ Hd HE) as (normA & _ & _ & ->).
    pose proof (Equil_states_Initialized SinkhornKnopp kNormEquilibrate normA
                  A d e HI) as HF.
    rewrite Forall_forall in HF. apply HF.
    unfold Equil_states. cbv zeta. cbn [last]. right. right. right. right.
    now left. }
  revert HE Hne.
  set (X := Equil_diag SinkhornKnopp kNormEquilibrate A d e).
  set (A5 := fst (fst X)). set (normA := fro_estimate A5).
  intros HE Hne.
  destruct (storage_ok_shape A Hok) as [Sd _ _ _ _ _ _ _ _ _ _].
  destruct (Equil_diag_triples SinkhornKnopp kNormEquilibrate A d e Hok)
    as (Ed & Ee & Hok5 & Hr & _).
  fold X in Ed, Ee, Hok5, Hr. fold A5 in Hok5, Hr.
  rewrite <- Ed, <- Ee in Hr.
  assert (Dims : _m A5 = _m A /\ _n A5 = _n A /\ _nnz A5 = _nnz A).
  { subst A5 X. rewrite Equil_diag_eq by exact Sd. repeat split. }
  destruct Dims as (Em & En & Ennz).
  destruct (storage_ok_shape A5 Hok5) as [Sd5 _ _ _ _ _ _ _ _ _ _].
  rewrite Ennz in Sd5.
  assert (Hpos : 0 < normA)
    by (pose proof (fro_estimate_nonneg A5); fold normA in H; lra).
  assert (Hdata : vector_scale (2 * _nnz A) (1 / normA) (_data A5)
                  = map (fun v => v * (1 / normA)) (_data A5))
    by (apply vector_scale_all; exact Sd5).
  rewrite (Equil_unfold DEBUG SinkhornKnopp Norm2Est) in HE by exact Hd.
  cbv zeta in HE. fold X in HE. fold A5 in HE. fold normA in HE.
  rewrite Em, En, Hdata in HE.
  destruct (triples_of_map (fun v => v * (1 / normA)) A5 Hok5) as [Tr _].
  assert (EA : A' = set_data A5 (map (fun v => v * (1 / normA)) (_data A5)))
    by congruence.
  assert (Ed' : d' = vector_scale (_m A) (1 / sqrt normA) (snd (fst X)))
    by congruence.
  assert (Ee' : e' = vector_scale (_n A) (1 / sqrt normA) (snd X))
    by congruence.
  rewrite EA, Ed', Ee'.
  split; [exact Em|]. split; [exact En|].
  rewrite Tr, Hr. apply scale_triples_normalized.
  - now apply inv_sqrt_square.
  - intros t Ht. now apply (row_half_bounds A t Hok).
Qed.

Lemma Equil_cells_of (DEBUG : bool) (SinkhornKnopp : SinkhornKnopp_t)
  (Norm2Est : Norm2Est_t) (A A' : MatrixSparse) (d e d' e' : list R)
  (st : Z) :
  _done_init A = true -> storage_ok A = true ->
  Equil DEBUG SinkhornKnopp Norm2Est A d e = Done (st, A', d', e') ->
  let sc := Equil_scales SinkhornKnopp kNormEquilibrate A d e in
  let normA :=
    fro_estimate
      (fst (fst (Equil_diag SinkhornKnopp kNormEquilibrate A d e))) in
  st = 0%Z
  /\ d' = vector_scale (_m A) (1 / sqrt normA) (fst sc)
  /\ e' = vector_scale (_n A) (1 / sqrt normA) (snd sc)
  /\ exists data',
       A' = set_data A data'
       /\ length data' = length (_data A)
       /\ forall k, (k < 2 * _nnz A)%nat ->
            nth k data' 0
            = nth k (_data A) 0
              * (nth (cell_row A k) (fst sc) 0
                 * nth (cell_col A k) (snd sc) 0)
              * (1 / normA).
Proof.
  intros Hd Hok HE sc normA.
  destruct (Equil_cells DEBUG SinkhornKnopp Norm2Est A d e Hd Hok)
    as (data' & HE' & L & C).
  fold sc in HE', C. fold normA in HE', C. rewrite HE' in HE.
  split; [congruence|]. split; [congruence|]. split; [congruence|].
  exists data'. split; [congruence|]. split; [exact L|exact C].
Qed.

Lemma Equil_fields (DEBUG : bool) (SinkhornKnopp : SinkhornKnopp_t)
  (Norm2Est : Norm2Est_t) (A A' : MatrixSparse) (d e d' e' : list R)
  (st : Z) :
  _done_init A = true ->
  Equil DEBUG SinkhornKnopp Norm2Est A d e = Done (st, A', d', e') ->
  _m A' = _m A /\ _n A' = _n A /\ _nnz A' = _nnz A /\ _ord A' = _ord A
  /\ _info A' = _info A.
Proof.
  intros Hd HE.
  rewrite (Equil_unfold DEBUG SinkhornKnopp Norm2Est) in HE by exact Hd.
  cbv zeta in HE.
  set (X := Equil_diag SinkhornKnopp kNormEquilibrate A d e) in *.
  assert (EA : A' = set_data (fst (fst X))
                      (vector_scale (2 * _nnz A)
                         (1 / fro_estimate (fst (fst X)))
                         (_data (fst (fst X))))) by congruence.
  rewrite EA. repeat split.
Qed.

(** ** [Init], unfolded *)

Lemma Init_unfold (DEBUG : bool) (A : MatrixSparse) :
  _done_init A = false ->
  Init DEBUG A
  = let r := spmat_memcpy (primary_dim A) (secondary_dim A) (_nnz A)
               (orig_data (_info A)) (orig_ind (_info A))
               (orig_ptr (_info A)) in
    Done (0%Z, mkMatrixSparse (_m A) (_n A) (_info A) true (fst (fst r))
                              (snd r) (snd (fst r)) (_nnz A) (_ord A)).
Proof.
  intro Hd. unfold Init, primary_dim, secondary_dim. rewrite Hd.
  cbn [negb]. rewrite DEBUG_ASSERT_true. cbn [bind]. cbv zeta.
  destruct (_ord A);
    match goal with
    | |- context [spmat_memcpy ?a ?b ?c ?d ?e ?f] =>
        destruct (spmat_memcpy a b c d e f) as [[data ind] ptr]
    end; reflexivity.
Qed.

(** ** Norms and views *)

Lemma sum_squares_zero (l : list R) :
  sum_squares l = 0 <-> Forall (fun a => a = 0) l.
Proof.
  induction l as [|a l IH].
  - split; [constructor|reflexivity].
  - change (sum_squares (a :: l)) with (a * a + sum_squares l).
    pose proof (sum_squares_nonneg l) as Hl. split.
    + intro H. constructor; [nra|]. apply IH. nra.
    + intro H. inversion H as [|? ? Ha Hr]; subst.
      apply IH in Hr. rewrite Hr. ring.
Qed.

Lemma spblas_gemv_view (O : Ord) (op : CBLAS_TRANSPOSE_t) (alpha beta : R)
  (m n nnz : nat) (val : list R) (ind ptr : list nat) (x : vector)
  (y : list R) (k : nat) :
  (k <= length y)%nat ->
  let r0 := spblas_gemv O op alpha m n nnz val ind ptr x beta
                        (vector_view_array (firstn k y) k) in
  length r0 = k
  /\ spblas_gemv O op alpha m n nnz val ind ptr x beta (vector_view_array y k)
     = r0 ++ skipn k y.
Proof.
  intros Hk r0. subst r0. unfold spblas_gemv. cbn [vsize vdata].
  set (second := match O, op with
                 | ROW, CblasNoTrans | COL, CblasTrans => false
                 | _, _ => true
                 end).
  set (po := if second then _ else _). set (io := if second then _ else _).
  set (xs := firstn (vsize x) (vdata x)).
  set (tmp := fun t =>
    for_range (nth (po + t) ptr 0%nat) (nth (po + t + 1) ptr 0%nat)
      (fun i acc =>
         acc + nth (io + i) val 0 * nth (nth (io + i) ind 0%nat) xs 0)
      0).
  destruct (for_loop_upd (fun t v => alpha * tmp t + beta * v) 0 k 0 y)
    as [L X].
  destruct (for_loop_upd (fun t v => alpha * tmp t + beta * v) 0 k 0
              (firstn k y)) as [L0 X0].
  cbv zeta in L, X, L0, X0. cbn [Nat.add] in L, X, L0, X0.
  change (length (for_loop 0 k
                    (fun t yd => upd t (alpha * tmp t + beta * nth t yd 0) yd)
                    (firstn k y)) = k
          /\ for_loop 0 k
               (fun t yd => upd t (alpha * tmp t + beta * nth t yd 0) yd) y
             = for_loop 0 k
                 (fun t yd => upd t (alpha * tmp t + beta * nth t yd 0) yd)
                 (firstn k y) ++ skipn k y).
  set (r := for_loop 0 k _ y) in *.
  set (r0 := for_loop 0 k _ (firstn k y)) in *.
  rewrite length_firstn in L0, X0.
  replace (Nat.min k (length y)) with k in L0, X0 by lia.
  split; [exact L0|].
  apply (nth_ext _ _ 0 0).
  - rewrite length_app, length_skipn. lia.
  - intros j Hj. rewrite L in Hj. rewrite X by exact Hj. cbn [Nat.leb andb].
    destruct (Nat.lt_ge_cases j k) as [Hlt|Hge].
    + rewrite ltb_true by exact Hlt.
      rewrite app_nth1 by lia. rewrite X0 by exact Hlt.
      cbn [Nat.leb andb]. rewrite ltb_true by exact Hlt.
      rewrite nth_firstn. now rewrite ltb_true by exact Hlt.
    + rewrite ltb_false by exact Hge.
      rewrite app_nth2 by lia. rewrite nth_skipn. f_equal. lia.
Qed.

(** ** The square path of [Equil] *)

Lemma nth_write_first (k i : nat) (g : nat -> R) (l : list R) :
  (i < k)%nat -> (i < length l)%nat -> nth i (write_first k g l) 0 = g i.
Proof.
  intros Hk Hl. unfold write_first.
  rewrite app_nth1 by (rewrite length_map, length_seq; lia).
  rewrite (nth_map_in _ _ _ 0%nat) by (rewrite length_seq; lia).
  rewrite seq_nth by lia. reflexivity.
Qed.

Lemma Equil_squares (data : list R) :
  fst (Equil_set_signs kNormEquilibrate (length data) data)
  = map (fun v => v * v) data.
Proof.
  rewrite Equil_set_signs_values. apply map_ext. intro v.
  change (forward_functor kNormEquilibrate (Rabs v)) with (SquareF (Rabs v)).
  now rewrite square_abs.
Qed.

(** The scale vectors handed to [MultDiag] are the square roots of what
    Sinkhorn-Knopp computes on the squared entries. *)
Lemma Equil_scales_roots (SinkhornKnopp : SinkhornKnopp_t)
  (A : MatrixSparse) (d e : list R) :
  length (_data A) = (2 * _nnz A)%nat ->
  (_m A <= length d)%nat -> (_n A <= length e)%nat ->
  let sk := SinkhornKnopp (set_data A (map (fun v => v * v) (_data A))) d e in
  let sc := Equil_scales SinkhornKnopp kNormEquilibrate A d e in
  (forall i, (i < _m A)%nat -> nth i (fst sc) 0 = sqrt (fst sk i))
  /\ (forall j, (j < _n A)%nat -> nth j (snd sc) 0 = sqrt (snd sk j)).
Proof.
  intros Ld Hd He sk sc. subst sk sc. unfold Equil_scales.
  rewrite <- Ld, Equil_squares.
  cbn [norm2_or_fro kNormEquilibrate NormTypes_eqb orb fst snd].
  split; intros i Hi.
  - rewrite nth_transform_first by (apply sqrt_0 || exact Hi).
    rewrite nth_write_first by lia. reflexivity.
  - rewrite nth_transform_first by (apply sqrt_0 || exact Hi).
    rewrite nth_write_first by lia. reflexivity.
Qed.

Lemma sum_squares_map {X : Type} (f : X -> R) (l : list X) :
  sum_squares (map f l) = Rsum (map (fun k => f k * f k) l).
Proof.
  induction l as [|a l IH]; [reflexivity|].
  cbn [map]. change (sum_squares (f a :: map f l))
    with (f a * f a + sum_squares (map f l)).
  rewrite IH. reflexivity.
Qed.

Lemma firstn_nth_seq (k : nat) (l : list R) :
  (k <= length l)%nat -> firstn k l = map (fun i => nth i l 0) (seq 0 k).
Proof.
  intro H. apply (nth_ext _ _ 0 0).
  - rewrite length_firstn, length_map, length_seq. lia.
  - intros i Hi. rewrite length_firstn in Hi.
    rewrite nth_firstn, ltb_true by lia.
    rewrite (nth_map_in _ _ _ 0%nat) by (rewrite length_seq; lia).
    rewrite seq_nth by lia. reflexivity.
Qed.

(** The restoration of [Equil]: the sign times the square root. *)
Lemma Equil_restores_roots (data : list R) (k : nat) :
  let st := Equil_set_signs kNormEquilibrate (length data) data in
  nth k (Equil_unset_signs kNormEquilibrate (length data) (snd st) (fst st)) 0
  = (if Rltb (nth k data 0) 0 then -1 else 1)
    * sqrt (nth k data 0 * nth k data 0).
Proof.
  intro st. subst st. rewrite sign_codec_roundtrip.
  pose proof (backward_forward kNormEquilibrate (nth k data 0)) as H.
  change (backward_functor kNormEquilibrate) with SqrtF in H.
  change (forward_functor kNormEquilibrate (Rabs (nth k data 0)))
    with (SquareF (Rabs (nth k data 0))) in H.
  rewrite square_abs in H. exact (eq_sym H).
Qed.

(** The estimate [Equil] divides by, on the scaled cells. *)
Lemma Equil_estimate_cells (SinkhornKnopp : SinkhornKnopp_t)
  (A : MatrixSparse) (d e : list R) :
  storage_ok A = true ->
  (_m A <= length d)%nat -> (_n A <= length e)%nat ->
  let sk := SinkhornKnopp (set_data A (map (fun v => v * v) (_data A))) d e in
  let scaled := fun k =>
    nth k (_data A) 0
    * (sqrt (fst sk (cell_row A k)) * sqrt (snd sk (cell_col A k))) in
  let sc := Equil_scales SinkhornKnopp kNormEquilibrate A d e in
  (forall k, (k < 2 * _nnz A)%nat ->
     nth k (_data A) 0
     * (nth (cell_row A k) (fst sc) 0 * nth (cell_col A k) (snd sc) 0)
     = scaled k)
  /\ fro_estimate
       (fst (fst (Equil_diag SinkhornKnopp kNormEquilibrate A d e)))
     = sqrt (Rsum (map (fun k => scaled k * scaled k) (seq 0 (_nnz A))))
       / sqrt (INR (Nat.min (_m A) (_n A))).
Proof.
  intros Hok Hd He sk scaled sc.
  destruct (storage_ok_shape A Hok) as [Sd _ _ _ _ _ _ _ _ _ _].
  destruct (Equil_scales_roots SinkhornKnopp A d e Sd Hd He) as [Rd Re].
  fold sk in Rd, Re. fold sc in Rd, Re.
  assert (Hsc : forall k, (k < 2 * _nnz A)%nat ->
            nth k (_data A) 0
            * (nth (cell_row A k) (fst sc) 0 * nth (cell_col A k) (snd sc) 0)
            = scaled k).
  { intros k Hk. destruct (cell_bounds A k Hok Hk) as [Hr Hc].
    unfold scaled. now rewrite Rd, Re by assumption. }
  split; [exact Hsc|].
  rewrite (Equil_diag_eq SinkhornKnopp _ A d e Sd). fold sc. cbn [fst snd].
  destruct (MultDiag_cells (fst sc) (snd sc) A Hok) as [L5 C5].
  unfold fro_estimate, blas_nrm2. cbn [set_data _nnz _data _m _n].
  rewrite firstn_nth_seq by lia. rewrite sum_squares_map.
  do 3 f_equal. apply map_ext_in. intros k Hk. apply in_seq in Hk.
  rewrite C5 by lia. rewrite Hsc by lia. reflexivity.
Qed.

(** * The claims *)

(** ** Equilibration *)

(** C1 (with the estimate [normA] not 0).  On an initialized matrix whose
    Frobenius-convention estimate [normA], taken right after [MultDiag], is
    not 0, [Equil] returns status 0; [d] and [e] keep their lengths; the
    matrix handed to the estimator is [diag(d5) * A * diag(e5)] on both
    halves; the returned values are those divided by [normA], the returned
    [d'] and [e'] are [d5] and [e5] divided by [sqrt normA]; both halves of
    the returned matrix are [diag(d') * A * diag(e')] of the original triples;
    and the returned matrix has estimate 1. *)
Theorem Equil_contract (DEBUG : bool) (SinkhornKnopp : SinkhornKnopp_t)
  (Norm2Est : Norm2Est_t) (A : MatrixSparse) (d e : list R) :
  Initialized A ->
  let X := Equil_diag SinkhornKnopp kNormEquilibrate A d e in
  let A5 := fst (fst X) in
  let d5 := snd (fst X) in
  let e5 := snd X in
  let normA := fro_estimate A5 in
  normA <> 0 ->
  exists A' d' e',
    Equil DEBUG SinkhornKnopp Norm2Est A d e = Done (0%Z, A', d', e')
    /\ length d' = length d /\ length e' = length e
    /\ row_half_triples A5 = scale_triples d5 e5 (row_half_triples A)
    /\ col_half_triples A5 = scale_triples d5 e5 (col_half_triples A)
    /\ _data A' = map (fun v => v * (1 / normA)) (_data A5)
    /\ d' = vector_scale (_m A) (1 / sqrt normA) d5
    /\ e' = vector_scale (_n A) (1 / sqrt normA) e5
    /\ row_half_triples A' = scale_triples d' e' (row_half_triples A)
    /\ col_half_triples A' = scale_triples d' e' (col_half_triples A)
    /\ NormEst Norm2Est kNormFro A' = Done 1.
Proof.
  intros (Hd & Hok & Hag) X A5 d5 e5 normA Hne.
  destruct (storage_ok_shape A Hok) as [Sd _ _ _ _ _ _ _ _ _ _].
  destruct (Equil_diag_triples SinkhornKnopp kNormEquilibrate A d e Hok)
    as (Ed & Ee & Hok5 & Hr & Hc).
  fold X in Ed, Ee, Hok5, Hr, Hc. fold A5 in Hok5, Hr, Hc.
  fold d5 in Ed. fold e5 in Ee. rewrite <- Ed, <- Ee in Hr, Hc.
  destruct (length_Equil_scales SinkhornKnopp kNormEquilibrate A d e)
    as [Ld Le].
  rewrite <- Ed in Ld. rewrite <- Ee in Le.
  assert (Dims : _m A5 = _m A /\ _n A5 = _n A /\ _nnz A5 = _nnz A).
  { subst A5 X. rewrite Equil_diag_eq by exact Sd. repeat split. }
  destruct Dims as (Em & En & Ennz).
  destruct (storage_ok_shape A5 Hok5) as [Sd5 _ _ _ _ _ _ _ _ _ _].
  rewrite Ennz in Sd5.
  assert (Hpos : 0 < normA)
    by (pose proof (fro_estimate_nonneg A5); fold normA in H; lra).
  assert (Hdata : vector_scale (2 * _nnz A) (1 / normA) (_data A5)
                  = map (fun v => v * (1 / normA)) (_data A5))
    by (apply vector_scale_all; exact Sd5).
  rewrite (Equil_unfold DEBUG SinkhornKnopp Norm2Est) by exact Hd. cbv zeta.
  fold X. fold A5. fold d5. fold e5. fold normA.
  rewrite Em, En, Hdata.
  destruct (triples_of_map (fun v => v * (1 / normA)) A5 Hok5) as [Tr Tc].
  eexists _, _, _. split; [reflexivity|].
  split; [unfold vector_scale; now rewrite length_transform_first|].
  split; [unfold vector_scale; now rewrite length_transform_first|].
  split; [exact Hr|]. split; [exact Hc|]. split; [reflexivity|].
  split; [reflexivity|]. split; [reflexivity|]. split.
  { rewrite Tr, Hr. apply scale_triples_normalized.
    - now apply inv_sqrt_square.
    - intros t Ht. now apply (row_half_bounds A t Hok). }
  split.
  { rewrite Tc, Hc. apply scale_triples_normalized.
    - now apply inv_sqrt_square.
    - intros t Ht. now apply (col_half_bounds A t Hok). }
  rewrite <- Hdata, <- Ennz.
  change (Done (fro_estimate
                  (set_data A5 (vector_scale (2 * _nnz A5)
                                  (1 / fro_estimate A5) (_data A5))))
          = Done 1).
  f_equal. apply fro_estimate_scaled; [|exact Hne]. now rewrite Ennz.
Qed.

Lemma Equil_contract_witness :
  Initialized scenario_matrix
  /\ fro_estimate
       (fst (fst (Equil_diag unit_scales kNormEquilibrate scenario_matrix
                             [0; 0] [0; 0]))) <> 0
  /\ exists A' d' e',
       Equil false unit_scales no_estimate scenario_matrix [0; 0] [0; 0]
       = Done (0%Z, A', d', e')
       /\ row_half_triples A'
          = scale_triples d' e' (row_half_triples scenario_matrix)
       /\ NormEst no_estimate kNormFro A' = Done 1.
Proof.
  split; [exact scenario_Initialized|]. split; [exact scenario_estimate|].
  destruct (Equil_contract false unit_scales no_estimate scenario_matrix
              [0; 0] [0; 0] scenario_Initialized scenario_estimate)
    as (A' & d' & e' & H1 & _ & _ & _ & _ & _ & _ & _ & H9 & _ & H11).
  exists A', d', e'. split; [exact H1|]. split; [exact H9|exact H11].
Defined.

(** C1 as stated, on the 1 x 1 matrix without stored entries, constructed
    and initialized: [Equil] returns status 0 and the estimate of the
    returned matrix is 0, not 1. *)
Lemma Equil_empty_matrix_norm :
  MatrixSparse_new "r" 1 1 0 [] [0; 0]%nat [] = Done empty_input
  /\ Init false empty_input = Done (0%Z, empty_matrix)
  /\ Initialized empty_matrix
  /\ exists A' d' e',
       Equil false unit_scales no_estimate empty_matrix [0] [0]
       = Done (0%Z, A', d', e')
       /\ NormEst no_estimate kNormFro A' = Done 0
       /\ NormEst no_estimate kNormFro A' <> Done 1.
Proof.
  split; [reflexivity|]. split; [reflexivity|].
  split; [exact empty_Initialized|].
  rewrite Equil_unfold by reflexivity. cbv zeta.
  eexists _, _, _. split; [reflexivity|].
  apply Done_0_not_1.
  rewrite Equil_diag_eq by reflexivity.
  unfold NormEst, blas_nrm2.
  cbn [fst snd set_data _nnz _data _m _n empty_matrix firstn sum_squares
       fold_right].
  rewrite sqrt_0. f_equal. unfold Rdiv. ring.
Qed.

(** ** Multiplication *)

(** C2.  On an initialized matrix, for a flag among n, N, t, T and a [y] of
    length [m] (flag n or N) or [n] (flag t or T), [Mul] returns status 0 and
    [y := alpha * op(A) * x + beta * y], where [op] is the identity for n, N
    and the transpose for t, T, and the product reads the first [n] cells of
    [x] (untransposed) or the first [m] (transposed). *)
Theorem Mul_computes (DEBUG : bool) (A : MatrixSparse) (trans : ascii)
  (alpha beta : R) (x y : list R) :
  Initialized A ->
  is_char trans "n" || is_char trans "N" || is_char trans "t"
  || is_char trans "T" = true ->
  length y = (if is_char trans "n" || is_char trans "N" then _m A else _n A) ->
  Mul DEBUG A trans alpha x beta y
  = Done (0%Z, Mul_reference A trans alpha x beta y).
Proof.
  intros HI Ht Ly. unfold Mul_reference.
  destruct (Mul_dense DEBUG A trans alpha beta x y HI) as [Hn Htr].
  destruct (is_char trans "n" || is_char trans "N") eqn:En.
  - now apply Hn.
  - apply Htr; [|exact Ly]. cbn [orb] in Ht. exact Ht.
Qed.

Lemma Mul_computes_witness :
  Mul false scenario_matrix "t" 2 [1; 1] 3 [5; 7]
  = Done (0%Z, Mul_reference scenario_matrix "t" 2 [1; 1] 3 [5; 7]).
Proof.
  apply (Mul_computes false scenario_matrix "t" 2 3 [1; 1] [5; 7]).
  - exact scenario_Initialized.
  - reflexivity.
  - reflexivity.
Defined.

(** C3.  The constructor applied to m = 2, n = 2, nnz = 3, values [4, 2, 3],
    offsets [0, 2, 3], indices [0, 1, 1] in row order, followed by [Init],
    gives a matrix on which [Mul('n', 1, [1, 1], 0, y)] returns status 0 and
    y = [6, 3], whatever y held before. *)
Theorem scenario_Mul (DEBUG : bool) (y0 y1 : R) :
  MatrixSparse_new "r" 2 2 3 [4; 2; 3] [0; 2; 3]%nat [0; 1; 1]%nat
  = Done scenario_input
  /\ Init DEBUG scenario_input = Done (0%Z, scenario_matrix)
  /\ Mul DEBUG scenario_matrix "n" 1 [1; 1] 0 [y0; y1] = Done (0%Z, [6; 3]).
Proof.
  split; [reflexivity|]. split.
  - destruct DEBUG; reflexivity.
  - destruct DEBUG; cbv -[Rplus Rmult IZR]; do 2 f_equal;
      repeat (f_equal; try lra).
Qed.

(** ** The two halves *)

(** C4.  [Init] on valid input returns status 0 and an initialized matrix
    whose row-compressed half is a permutation of the caller's triples.  On
    an initialized matrix, after each stage of [Equil] (sign extraction,
    Sinkhorn-Knopp, sign restoration, [MultDiag], division by [normA]) and on
    the matrix [Equil] returns, the row-compressed and the column-compressed
    half hold the same multiset of (row, column, value) triples, and so do
    the half stored first and the half stored second; [MultDiag] replaces
    each triple (r, c, v) of either half by (r, c, d[r] * v * e[c]). *)
Theorem halves_in_step (DEBUG : bool) (SinkhornKnopp : SinkhornKnopp_t)
  (Norm2Est : Norm2Est_t) (A0 A : MatrixSparse) (d e : list R) :
  (_done_init A0 = false -> valid_input A0 = true ->
   exists A1,
     Init DEBUG A0 = Done (0%Z, A1) /\ Initialized A1 /\ halves_agree A1
     /\ Permutation (row_half_triples A1) (input_triples A0))
  /\ (Initialized A ->
      (forall kEq normA,
         Forall halves_agree (Equil_states SinkhornKnopp kEq normA A d e)
         /\ Forall (fun B => Permutation (first_half B)
                               (map swap_entry (second_half B)))
                   (Equil_states SinkhornKnopp kEq normA A d e))
      /\ (forall st A' d' e',
            Equil DEBUG SinkhornKnopp Norm2Est A d e = Done (st, A', d', e') ->
            halves_agree A')
      /\ (let A' := set_data A (MultDiag d e (_m A) (_n A) (_nnz A) (_ord A)
                                         (_data A) (_ind A) (_ptr A)) in
          row_half_triples A' = scale_triples d e (row_half_triples A)
          /\ col_half_triples A' = scale_triples d e (col_half_triples A)
          /\ halves_agree A')).
Proof.
  split.
  - intros Hd Hv.
    destruct (Init_Initialized DEBUG A0 Hd Hv)
      as (A1 & HI & HA1 & _ & _ & _ & _ & HP).
    exists A1. repeat split; auto; apply HA1.
  - intros HI. pose proof HI as (Hd & Hok & Hag).
    assert (Hst : forall kEq normA,
              Forall halves_agree
                (Equil_states SinkhornKnopp kEq normA A d e)).
    { intros kEq normA.
      pose proof (Equil_states_Initialized SinkhornKnopp kEq normA A d e HI)
        as HF.
      eapply Forall_impl; [|exact HF]. intros B (_ & _ & HB). exact HB. }
    split.
    { intros kEq normA. split; [apply Hst|].
      eapply Forall_impl; [|exact (Hst kEq normA)].
      intros B HB. now apply first_second_agree. }
    split.
    + intros st A' d' e' HE. unfold Equil in HE.
      destruct (Equil_with_result DEBUG SinkhornKnopp Norm2Est _ _ _ _ _ _ _ _
                  _ Hd HE) as (normA & _ & _ & ->).
      specialize (Hst kNormEquilibrate normA).
      rewrite Forall_forall in Hst. apply Hst.
      unfold Equil_states. cbv zeta. cbn [last]. right. right. right. right.
      now left.
    + cbv zeta. destruct (MultDiag_halves d e A Hok) as (_ & Hr & Hc).
      split; [exact Hr|]. split; [exact Hc|].
      now apply halves_agree_MultDiag.
Qed.

Lemma halves_in_step_witness :
  (exists A1,
     Init false scenario_input = Done (0%Z, A1) /\ halves_agree A1)
  /\ Forall halves_agree
       (Equil_states unit_scales kNormEquilibrate 1 scenario_matrix
                     [0; 0] [0; 0]).
Proof.
  destruct (halves_in_step false unit_scales no_estimate scenario_input
              scenario_matrix [0; 0] [0; 0]) as [H1 H2].
  split.
  - destruct (H1 eq_refl eq_refl) as (A1 & HA & _ & HB & _).
    exists A1. split; [exact HA|exact HB].
  - destruct (H2 scenario_Initialized) as [H _]. apply H.
Defined.

(** ** The sign codec *)

(** C5.  For every list [v] of values, of any length: sign extraction with
    the square leaves [v_k * v_k] in cell [k] and the truth of [v_k < 0] in
    bit [k mod 8] of byte [k / 8], for the cells of the bulk path and of the
    tail path alike; restoration with the square root leaves
    [(1 - 2 * bit) * sqrt x_k] in every cell; restoration after extraction
    gives [v] back, zero entries included; and the bulk path on one more byte
    is the element-wise path on its eight cells. *)
Theorem sign_codec_exact (v : list R) :
  let n := length v in
  let st := Equil_set_signs kNormEquilibrate n v in
  fst st = map SquareF v
  /\ (forall k, (k < n)%nat ->
        Z.testbit (nth (k / 8) (snd st) 0%Z) (Z.of_nat (k mod 8))
        = Rltb (nth k v 0) 0)
  /\ (forall sign k, (k < n)%nat ->
        nth k (Equil_unset_signs kNormEquilibrate n sign v) 0
        = sign_factor (nth (k / 8) sign 0%Z) (k mod 8) * SqrtF (nth k v 0))
  /\ Equil_unset_signs kNormEquilibrate n (snd st) (fst st) = v
  /\ (forall f size sign,
        SetSign f (S size) (v, sign)
        = SetSignSingle f (8 * size) size 8 (SetSign f size (v, sign)))
  /\ (forall g size sign,
        UnSetSign g (S size) sign v
        = UnSetSignSingle g (8 * size) size 8 sign (UnSetSign g size sign v)).
Proof.
  intros n st. subst n st.
  destruct (Equil_set_signs_filled kNormEquilibrate v) as (_ & _ & _ & B).
  split.
  { rewrite Equil_set_signs_values. apply map_ext. intro a.
    apply square_abs. }
  split; [exact B|]. split.
  { intros sign k Hk.
    destruct (Equil_unset_signs_restored kNormEquilibrate sign v) as [_ X].
    rewrite X by exact Hk. now rewrite ltb_true by exact Hk. }
  split; [apply sign_codec_roundtrip|]. split.
  - intros f size sign. unfold SetSign. rewrite for_loop_snoc.
    destruct (for_loop 0 size _ (v, sign)) as [x1 s1]. reflexivity.
  - intros g size sign. unfold UnSetSign. rewrite for_loop_snoc. reflexivity.
Qed.

Lemma sign_codec_exact_witness :
  Equil_unset_signs kNormEquilibrate 3
    (snd (Equil_set_signs kNormEquilibrate 3 [4; -2; 0]))
    (fst (Equil_set_signs kNormEquilibrate 3 [4; -2; 0]))
  = [4; -2; 0]
  /\ Z.testbit (nth (1 / 8) (snd (Equil_set_signs kNormEquilibrate 3
                                                 [4; -2; 0])) 0%Z)
               (Z.of_nat (1 mod 8))
     = Rltb (nth 1 [4; -2; 0] 0) 0.
Proof.
  pose proof (sign_codec_exact [4; -2; 0]) as (_ & B & _ & H & _).
  split; [exact H|]. apply B. simpl. lia.
Defined.

(** ** Norm estimation *)

(** C6.  For a Frobenius request [NormEst] returns the 2-norm of the first
    [nnz] cells of the value buffer divided by [sqrt (min m n)]; on an
    initialized matrix that is the 2-norm of the values of the row-compressed
    half divided by [sqrt (min m n)], for either storage order. *)
Theorem NormEst_frobenius (Norm2Est : Norm2Est_t) (A : MatrixSparse) :
  NormEst Norm2Est kNormFro A
  = Done (sqrt (sum_squares (firstn (_nnz A) (_data A)))
          / sqrt (INR (Nat.min (_m A) (_n A))))
  /\ (Initialized A ->
      NormEst Norm2Est kNormFro A
      = Done (sqrt (sum_squares (map entry_value (row_half_triples A)))
              / sqrt (INR (Nat.min (_m A) (_n A))))).
Proof.
  split; [reflexivity|]. intro HI. unfold NormEst.
  now rewrite (row_half_norm A HI).
Qed.

Lemma NormEst_frobenius_witness :
  NormEst no_estimate kNormFro scenario_matrix
  = Done (sqrt (sum_squares
                  (map entry_value (row_half_triples scenario_matrix)))
          / sqrt (INR (Nat.min 2 2))).
Proof.
  exact (proj2 (NormEst_frobenius no_estimate scenario_matrix)
               scenario_Initialized).
Defined.



(** ** Usage and argument errors *)

(** C8 (build by build).  In a release build a second [Init] returns
    status 1 and the matrix as it was; [Mul] before [Init] returns status 1
    and [y] as it was; [Equil] before [Init] returns status 1 and the matrix,
    [d] and [e] as they were.  In a debug build each of the three ends
    fatally on its [DEBUG_ASSERT]. *)
Theorem usage_errors (SinkhornKnopp : SinkhornKnopp_t)
  (Norm2Est : Norm2Est_t) (A : MatrixSparse) (trans : ascii)
  (alpha beta : R) (x y d e : list R) :
  (_done_init A = true ->
   Init false A = Done (1%Z, A) /\ Init true A = Fatal)
  /\ (_done_init A = false ->
      Mul false A trans alpha x beta y = Done (1%Z, y)
      /\ Mul true A trans alpha x beta y = Fatal
      /\ Equil false SinkhornKnopp Norm2Est A d e = Done (1%Z, A, d, e)
      /\ Equil true SinkhornKnopp Norm2Est A d e = Fatal).
Proof.
  split; intro Hd.
  - unfold Init, DEBUG_ASSERT. rewrite Hd. split; reflexivity.
  - unfold Mul, Equil, Equil_with, DEBUG_ASSERT. rewrite Hd.
    repeat split; reflexivity.
Qed.

Lemma usage_errors_witness :
  Init false scenario_matrix = Done (1%Z, scenario_matrix)
  /\ Mul false scenario_input "n" 1 [1; 1] 0 [5; 7] = Done (1%Z, [5; 7])
  /\ Equil false unit_scales no_estimate scenario_input [8; 9] [5; 7]
     = Done (1%Z, scenario_input, [8; 9], [5; 7]).
Proof.
  pose proof (usage_errors unit_scales no_estimate scenario_matrix "n" 1 0
                [1; 1] [5; 7] [8; 9] [5; 7]) as [H _].
  pose proof (usage_errors unit_scales no_estimate scenario_input "n" 1 0
                [1; 1] [5; 7] [8; 9] [5; 7]) as [_ H'].
  destruct (H eq_refl) as [H1 _].
  destruct (H' eq_refl) as (H2 & _ & H3 & _).
  split; [exact H1|]. split; [exact H2|exact H3].
Defined.

(** C8 as stated, in a debug build: the first [Init] of the scenario
    succeeds and a second [Init] returns no status code, it is fatal. *)
Lemma double_Init_fatal_in_debug_build :
  Init true scenario_input = Done (0%Z, scenario_matrix)
  /\ Init true scenario_matrix = Fatal
  /\ Init true scenario_matrix <> Done (1%Z, scenario_matrix).
Proof.
  split; [reflexivity|]. split; [reflexivity|]. discriminate.
Qed.

(** C9.  The constructor called with an orientation tag other than r, R, c
    and C fails its assertion: no matrix is constructed, in any build. *)
Theorem constructor_rejects_bad_tag (ord : ascii) (m n nnz : nat)
  (data : list R) (ptr ind : list nat) :
  ord <> "r"%char -> ord <> "R"%char -> ord <> "c"%char -> ord <> "C"%char ->
  MatrixSparse_new ord m n nnz data ptr ind = Fatal.
Proof.
  intros Hr HR Hc HC. unfold MatrixSparse_new, is_char.
  apply Ascii.eqb_neq in Hr, HR, Hc, HC. now rewrite Hr, HR, Hc, HC.
Qed.

Lemma constructor_rejects_bad_tag_witness :
  MatrixSparse_new "x" 2 2 3 [4; 2; 3] [0; 2; 3]%nat [0; 1; 1]%nat = Fatal.
Proof.
  apply constructor_rejects_bad_tag; discriminate.
Defined.

(** ** The fixed norms *)

(** C10.  The equilibration norm is the 2-norm and the normalization norm
    the Frobenius one, and the test that selects the square path is true.
    So, in every call of [Equil] on an initialized matrix with [d] of [m]
    and [e] of [n] cells or more: the sign extraction leaves the square of
    every cell; Sinkhorn-Knopp runs on those squares; the restoration leaves
    the sign times the square root of the square; the scale vectors are the
    square roots of the values Sinkhorn-Knopp computed; [MultDiag] multiplies
    each cell by these two roots; the estimate is the Frobenius-convention one
    of the scaled cells; and the returned values, [d'] and [e'] are those
    divided by [normA] and by [sqrt normA].  [Equil] is the program in which
    no absolute-value or identity branch is left. *)
Theorem Equil_uses_square_path (DEBUG : bool)
  (SinkhornKnopp : SinkhornKnopp_t) (Norm2Est : Norm2Est_t)
  (A : MatrixSparse) (d e : list R) :
  _done_init A = true -> storage_ok A = true ->
  (_m A <= length d)%nat -> (_n A <= length e)%nat ->
  let num_el := (2 * _nnz A)%nat in
  let st := Equil_set_signs kNormEquilibrate num_el (_data A) in
  let sk := SinkhornKnopp (set_data A (map (fun v => v * v) (_data A))) d e in
  let scaled := fun k =>
    nth k (_data A) 0
    * (sqrt (fst sk (cell_row A k)) * sqrt (snd sk (cell_col A k))) in
  let normA :=
    sqrt (Rsum (map (fun k => scaled k * scaled k) (seq 0 (_nnz A))))
    / sqrt (INR (Nat.min (_m A) (_n A))) in
  kNormEquilibrate = kNorm2 /\ kNormNormalize = kNormFro
  /\ norm2_or_fro kNormEquilibrate = true
  /\ (forall k, (k < num_el)%nat ->
        nth k (fst st) 0 = nth k (_data A) 0 * nth k (_data A) 0)
  /\ (forall k, (k < num_el)%nat ->
        nth k (Equil_unset_signs kNormEquilibrate num_el (snd st) (fst st)) 0
        = (if Rltb (nth k (_data A) 0) 0 then -1 else 1)
          * sqrt (nth k (_data A) 0 * nth k (_data A) 0))
  /\ (forall i, (i < _m A)%nat ->
        nth i (fst (Equil_scales SinkhornKnopp kNormEquilibrate A d e)) 0
        = sqrt (fst sk i))
  /\ (forall j, (j < _n A)%nat ->
        nth j (snd (Equil_scales SinkhornKnopp kNormEquilibrate A d e)) 0
        = sqrt (snd sk j))
  /\ (exists A' d' e',
        Equil DEBUG SinkhornKnopp Norm2Est A d e = Done (0%Z, A', d', e')
        /\ (forall k, (k < num_el)%nat ->
              nth k (_data A') 0 = scaled k * (1 / normA))
        /\ (forall i, (i < _m A)%nat ->
              nth i d' 0 = sqrt (fst sk i) * (1 / sqrt normA))
        /\ (forall j, (j < _n A)%nat ->
              nth j e' 0 = sqrt (snd sk j) * (1 / sqrt normA)))
  /\ Equil DEBUG SinkhornKnopp Norm2Est A d e
     = Equil_square_path DEBUG SinkhornKnopp A d e.
Proof.
  intros Hdi Hok Hd He num_el st sk scaled normA.
  destruct (storage_ok_shape A Hok) as [Sd _ _ _ _ _ _ _ _ _ _].
  destruct (Equil_scales_roots SinkhornKnopp A d e Sd Hd He) as [Rd Re].
  fold sk in Rd, Re.
  destruct (Equil_estimate_cells SinkhornKnopp A d e Hok Hd He) as [Hsc Hn].
  fold sk in Hsc, Hn. fold scaled in Hsc, Hn. fold normA in Hn.
  split; [reflexivity|]. split; [reflexivity|]. split; [reflexivity|].
  split.
  { intros k Hk. subst st num_el. rewrite <- Sd, Equil_squares.
    rewrite <- Sd in Hk.
    now rewrite (nth_map_in _ _ _ 0) by exact Hk. }
  split.
  { intros k Hk. subst st num_el. rewrite <- Sd.
    apply Equil_restores_roots. }
  split; [exact Rd|]. split; [exact Re|]. split; [|reflexivity].
  destruct (Equil_cells DEBUG SinkhornKnopp Norm2Est A d e Hdi Hok)
    as (data' & HE & L & C).
  rewrite Hn in HE, C.
  eexists _, _, _. split; [exact HE|]. split; [|split].
  - intros k Hk. cbn [set_data _data]. rewrite C by exact Hk.
    now rewrite Hsc by exact Hk.
  - intros i Hi. rewrite nth_vector_scale by exact Hi. now rewrite Rd.
  - intros j Hj. rewrite nth_vector_scale by exact Hj. now rewrite Re.
Qed.

Lemma Equil_uses_square_path_witness :
  exists A' d' e',
    Equil false unit_scales no_estimate scenario_matrix [0; 0] [0; 0]
    = Done (0%Z, A', d', e')
    /\ nth 0 d' 0
       = sqrt 1
         * (1 / sqrt
                  (sqrt (Rsum (map (fun k =>
                                      nth k [4; 2; 3; 4; 2; 3] 0
                                      * (sqrt 1 * sqrt 1)
                                      * (nth k [4; 2; 3; 4; 2; 3] 0
                                         * (sqrt 1 * sqrt 1)))
                                   (seq 0 3)))
                   / sqrt (INR (Nat.min 2 2)))).
Proof.
  destruct (Equil_uses_square_path false unit_scales no_estimate
              scenario_matrix [0; 0] [0; 0] eq_refl eq_refl)
    as (_ & _ & _ & _ & _ & _ & _ & (A' & d' & e' & HE & _ & Hd & _) & _);
    [cbn; lia|cbn; lia|].
  exists A', d', e'. split; [exact HE|]. apply (Hd 0%nat). cbn. lia.
Defined.

(** * Further theorems *)

(** ** Scaling by diagonal matrices *)

(** X1.  For offsets that do not decrease and a value buffer that holds the
    cells they bound, [MultRow] and [MultCol] keep the length of the buffer,
    leave every cell outside those of the buckets [0 .. size - 1] as it is,
    and multiply each cell [i] of bucket [t] once: by [d[t] * e[ind[i]]] in
    [MultRow], by [d[ind[i]] * e[t]] in [MultCol]. *)
Theorem MultRow_MultCol_cells (d e : list R) (io po : nat) (data : list R)
  (ptr ind : list nat) (size : nat) :
  monotone po ptr size ->
  (io + nth (po + size) ptr 0 <= length data)%nat ->
  let r := MultRow d e io po data ptr ind size in
  let c := MultCol d e io po data ptr ind size in
  length r = length data /\ length c = length data
  /\ (forall k,
        (k < io + nth po ptr 0 \/ io + nth (po + size) ptr 0 <= k)%nat ->
        nth k r 0 = nth k data 0 /\ nth k c 0 = nth k data 0)
  /\ (forall t i, (t < size)%nat ->
        (nth (po + t) ptr 0 <= i < nth (po + t + 1) ptr 0)%nat ->
        nth (io + i) r 0
        = nth (io + i) data 0 * (nth t d 0 * nth (nth (io + i) ind 0%nat) e 0)
        /\ nth (io + i) c 0
           = nth (io + i) data 0
             * (nth (nth (io + i) ind 0%nat) d 0 * nth t e 0)).
Proof.
  intros Hm Hlen r c. subst r c.
  rewrite MultRow_mult_half, MultCol_mult_half.
  destruct (mult_half_spec (fun t c => nth t d 0 * nth c e 0) io po data ptr
              ind size Hm Hlen) as (Lr & Outr & _).
  destruct (mult_half_spec (fun t r => nth r d 0 * nth t e 0) io po data ptr
              ind size Hm Hlen) as (Lc & Outc & _).
  split; [exact Lr|]. split; [exact Lc|]. split.
  - intros k Hk. split; [now apply Outr|now apply Outc].
  - intros t i Ht Hi. split.
    + exact (mult_half_cells (fun t c => nth t d 0 * nth c e 0) io po data
               ptr ind size Hm Hlen t i Ht Hi).
    + exact (mult_half_cells (fun t r => nth r d 0 * nth t e 0) io po data
               ptr ind size Hm Hlen t i Ht Hi).
Qed.

Lemma MultRow_MultCol_cells_witness :
  monotone 3 [0; 2; 3; 0; 1; 3]%nat 2
  /\ (3 + nth (3 + 2) [0; 2; 3; 0; 1; 3]%nat 0 <= length [4; 2; 3; 4; 2; 3])%nat
  /\ nth 2 (MultCol [5; 7] [11; 13] 3 3 [4; 2; 3; 4; 2; 3]
                    [0; 2; 3; 0; 1; 3]%nat [0; 1; 1; 0; 0; 1]%nat 2) 0 = 3
  /\ nth (3 + 2) (MultCol [5; 7] [11; 13] 3 3 [4; 2; 3; 4; 2; 3]
                          [0; 2; 3; 0; 1; 3]%nat [0; 1; 1; 0; 0; 1]%nat 2) 0
     = 3 * (7 * 13).
Proof.
  assert (Hm : monotone 3 [0; 2; 3; 0; 1; 3]%nat 2).
  { intros t Ht. destruct t as [|[|t]]; cbn; lia. }
  assert (Hl : (3 + nth (3 + 2) [0; 2; 3; 0; 1; 3]%nat 0
                <= length [4; 2; 3; 4; 2; 3])%nat) by (cbn; lia).
  split; [exact Hm|]. split; [exact Hl|].
  destruct (MultRow_MultCol_cells [5; 7] [11; 13] 3 3 [4; 2; 3; 4; 2; 3]
              [0; 2; 3; 0; 1; 3]%nat [0; 1; 1; 0; 0; 1]%nat 2 Hm Hl)
    as (_ & _ & Out & Cells).
  split.
  - apply (Out 2%nat). left. cbn. lia.
  - apply (Cells 1%nat 2%nat); cbn; lia.
Defined.

(** X2.  On well-shaped storage, [MultDiag] with [d2], [e2] after [MultDiag]
    with [d1], [e1] leaves the value buffer that one [MultDiag] with the
    cell-wise products of the scale vectors leaves, and the two calls may be
    made in either order. *)
Theorem MultDiag_compose (d1 e1 d2 e2 : list R) (A : MatrixSparse) :
  storage_ok A = true ->
  let scaled := fun d e data =>
    MultDiag d e (_m A) (_n A) (_nnz A) (_ord A) data (_ind A) (_ptr A) in
  scaled d2 e2 (scaled d1 e1 (_data A))
  = scaled (hadamard d1 d2) (hadamard e1 e2) (_data A)
  /\ scaled d2 e2 (scaled d1 e1 (_data A))
     = scaled d1 e1 (scaled d2 e2 (_data A)).
Proof.
  intros Hok scaled. subst scaled. cbv beta.
  destruct (storage_ok_shape A Hok) as [Sd _ _ _ _ _ _ _ _ _ _].
  destruct (MultDiag_twice d1 e1 d2 e2 A Hok) as [L12 C12].
  destruct (MultDiag_twice d2 e2 d1 e1 A Hok) as [L21 C21].
  destruct (MultDiag_cells (hadamard d1 d2) (hadamard e1 e2) A Hok)
    as [Lh Ch].
  split; apply list_eq_nth; try congruence; intros k Hk;
    rewrite L12, Sd in Hk; rewrite C12 by exact Hk.
  - rewrite Ch, !nth_hadamard by exact Hk. ring.
  - rewrite C21 by exact Hk. ring.
Qed.

Lemma MultDiag_compose_witness :
  storage_ok scenario_matrix = true
  /\ MultDiag [5; 7] [11; 13] 2 2 3 ROW
       (MultDiag [2; 3] [1; 4] 2 2 3 ROW [4; 2; 3; 4; 2; 3]
                 [0; 1; 1; 0; 0; 1]%nat [0; 2; 3; 0; 1; 3]%nat)
       [0; 1; 1; 0; 0; 1]%nat [0; 2; 3; 0; 1; 3]%nat
     = MultDiag (hadamard [2; 3] [5; 7]) (hadamard [1; 4] [11; 13]) 2 2 3 ROW
         [4; 2; 3; 4; 2; 3] [0; 1; 1; 0; 0; 1]%nat [0; 2; 3; 0; 1; 3]%nat.
Proof.
  split; [reflexivity|].
  exact (proj1 (MultDiag_compose [2; 3] [1; 4] [5; 7] [11; 13]
                  scenario_matrix eq_refl)).
Defined.

(** X3.  On well-shaped storage, [MultDiag] with all scales 1 leaves the
    value buffer as it is; and when no [d[r]] with [r < m] and no [e[c]]
    with [c < n] is 0, [MultDiag] with the inverse scales restores the value
    buffer that [MultDiag] with [d], [e] has scaled. *)
Theorem MultDiag_inverse (d e : list R) (A : MatrixSparse) :
  storage_ok A = true ->
  let scaled := fun d e data =>
    MultDiag d e (_m A) (_n A) (_nnz A) (_ord A) data (_ind A) (_ptr A) in
  ((forall r, (r < _m A)%nat -> nth r d 0 <> 0) ->
   (forall c, (c < _n A)%nat -> nth c e 0 <> 0) ->
   scaled (map Rinv d) (map Rinv e) (scaled d e (_data A)) = _data A)
  /\ scaled (repeat 1 (_m A)) (repeat 1 (_n A)) (_data A) = _data A.
Proof.
  intros Hok scaled. subst scaled. cbv beta.
  destruct (storage_ok_shape A Hok) as [Sd _ _ _ _ _ _ _ _ _ _].
  split.
  - intros Hd He.
    destruct (MultDiag_twice d e (map Rinv d) (map Rinv e) A Hok) as [L C].
    apply list_eq_nth; [exact L|]. intros k Hk.
    rewrite L, Sd in Hk. rewrite C by exact Hk.
    destruct (cell_bounds A k Hok Hk) as [Hr Hc].
    rewrite !nth_map_Rinv by auto.
    specialize (Hd _ Hr). specialize (He _ Hc). field. auto.
  - destruct (MultDiag_cells (repeat 1 (_m A)) (repeat 1 (_n A)) A Hok)
      as [L1 C1].
    apply list_eq_nth; [exact L1|]. intros k Hk.
    rewrite L1, Sd in Hk. rewrite C1 by exact Hk.
    destruct (cell_bounds A k Hok Hk) as [Hr Hc].
    rewrite !nth_repeat_lt by assumption. ring.
Qed.

Lemma MultDiag_inverse_witness :
  storage_ok scenario_matrix = true
  /\ MultDiag (map Rinv [2; 3]) (map Rinv [1; 4]) 2 2 3 ROW
       (MultDiag [2; 3] [1; 4] 2 2 3 ROW [4; 2; 3; 4; 2; 3]
                 [0; 1; 1; 0; 0; 1]%nat [0; 2; 3; 0; 1; 3]%nat)
       [0; 1; 1; 0; 0; 1]%nat [0; 2; 3; 0; 1; 3]%nat
     = [4; 2; 3; 4; 2; 3]
  /\ MultDiag [1; 1] [1; 1] 2 2 3 ROW [4; 2; 3; 4; 2; 3]
              [0; 1; 1; 0; 0; 1]%nat [0; 2; 3; 0; 1; 3]%nat
     = [4; 2; 3; 4; 2; 3].
Proof.
  split; [reflexivity|].
  destruct (MultDiag_inverse [2; 3] [1; 4] scenario_matrix eq_refl)
    as [Hinv Hone].
  split; [|exact Hone].
  apply Hinv.
  - intros r Hr. destruct r as [|[|r]]; cbn in *; try lra. lia.
  - intros c Hc. destruct c as [|[|c]]; cbn in *; try lra. lia.
Defined.

(** X4.  On well-shaped storage [MultDiag] reads [d] below [m] and [e]
    below [n] only: the value buffer it leaves is the one it leaves for the
    first [m] cells of [d] and the first [n] cells of [e]. *)
Theorem MultDiag_reads_in_bounds (d e : list R) (A : MatrixSparse) :
  storage_ok A = true ->
  MultDiag d e (_m A) (_n A) (_nnz A) (_ord A) (_data A) (_ind A) (_ptr A)
  = MultDiag (firstn (_m A) d) (firstn (_n A) e) (_m A) (_n A) (_nnz A)
             (_ord A) (_data A) (_ind A) (_ptr A).
Proof.
  intro Hok.
  destruct (storage_ok_shape A Hok) as [Sd _ _ _ _ _ _ _ _ _ _].
  destruct (MultDiag_cells d e A Hok) as [L C].
  destruct (MultDiag_cells (firstn (_m A) d) (firstn (_n A) e) A Hok)
    as [L' C'].
  apply list_eq_nth; [congruence|]. intros k Hk. rewrite L, Sd in Hk.
  rewrite C, C' by exact Hk.
  destruct (cell_bounds A k Hok Hk) as [Hr Hc].
  rewrite !nth_firstn, !ltb_true by assumption. reflexivity.
Qed.

Lemma MultDiag_reads_in_bounds_witness :
  MultDiag [2; 3; 100] [1; 4; 100; 100] 2 2 3 ROW [4; 2; 3; 4; 2; 3]
           [0; 1; 1; 0; 0; 1]%nat [0; 2; 3; 0; 1; 3]%nat
  = MultDiag [2; 3] [1; 4] 2 2 3 ROW [4; 2; 3; 4; 2; 3]
             [0; 1; 1; 0; 0; 1]%nat [0; 2; 3; 0; 1; 3]%nat.
Proof.
  exact (MultDiag_reads_in_bounds [2; 3; 100] [1; 4; 100; 100]
           scenario_matrix eq_refl).
Defined.

(** ** Equilibration *)

(** X5.  [Equil] on an initialized matrix returns status 0 and changes
    values only: the dimensions, [nnz], the order, the offsets, the indices,
    the borrowed input and the initialization flag are those of the matrix
    it received, the value buffer and [d], [e] keep their lengths, and the
    cells of [d] from [m] on and of [e] from [n] on are not written. *)
Theorem Equil_keeps_structure (DEBUG : bool) (SinkhornKnopp : SinkhornKnopp_t)
  (Norm2Est : Norm2Est_t) (A A' : MatrixSparse) (d e d' e' : list R)
  (st : Z) :
  Initialized A ->
  Equil DEBUG SinkhornKnopp Norm2Est A d e = Done (st, A', d', e') ->
  st = 0%Z
  /\ _m A' = _m A /\ _n A' = _n A /\ _nnz A' = _nnz A /\ _ord A' = _ord A
  /\ _ptr A' = _ptr A /\ _ind A' = _ind A /\ _info A' = _info A
  /\ _done_init A' = true
  /\ length (_data A') = length (_data A)
  /\ length d' = length d /\ length e' = length e
  /\ skipn (_m A) d' = skipn (_m A) d /\ skipn (_n A) e' = skipn (_n A) e.
Proof.
  intros (Hd & Hok & _) HE.
  destruct (Equil_cells_of DEBUG SinkhornKnopp Norm2Est A A' d e d' e' st Hd
              Hok HE) as (-> & -> & -> & data' & -> & L & _).
  destruct (length_Equil_scales SinkhornKnopp kNormEquilibrate A d e)
    as [Ld Le].
  destruct (Equil_scales_tail SinkhornKnopp A d e) as [Td Te].
  unfold vector_scale.
  rewrite !length_transform_first, !skipn_transform_first.
  cbn [set_data _m _n _nnz _ord _ptr _ind _info _done_init _data].
  repeat split; assumption || reflexivity.
Qed.

Lemma Equil_keeps_structure_witness :
  Initialized scenario_matrix
  /\ exists A' d' e',
       Equil false unit_scales no_estimate scenario_matrix [0; 0; 9] [0; 0]
       = Done (0%Z, A', d', e')
       /\ _ptr A' = [0; 2; 3; 0; 1; 3]%nat
       /\ _ind A' = [0; 1; 1; 0; 0; 1]%nat
       /\ skipn 2 d' = [9].
Proof.
  split; [exact scenario_Initialized|].
  pose proof (Equil_unfold false unit_scales no_estimate scenario_matrix
                [0; 0; 9] [0; 0] eq_refl) as HE.
  cbv zeta in HE. eexists _, _, _. split; [exact HE|].
  destruct (Equil_keeps_structure false unit_scales no_estimate
              scenario_matrix _ [0; 0; 9] [0; 0] _ _ 0%Z
              scenario_Initialized HE)
    as (_ & _ & _ & _ & _ & Hp & Hi & _ & _ & _ & _ & _ & Hs & _).
  split; [exact Hp|]. split; [exact Hi|exact Hs].
Defined.

(** X6.  After [Equil] on an initialized matrix (estimate [normA] not 0)
    the entry (i, j) of the stored matrix is [d'[i] * A(i, j) * e'[j]] for
    the returned [d'], [e'], and [Mul] on the returned matrix returns status
    0 and [alpha * op(diag(d') * A * diag(e')) * x + beta * y]. *)
Theorem Mul_after_Equil (DEBUG : bool) (SinkhornKnopp : SinkhornKnopp_t)
  (Norm2Est : Norm2Est_t) (A A' : MatrixSparse) (d e d' e' : list R)
  (st : Z) (trans : ascii) (alpha beta : R) (x y : list R) :
  Initialized A ->
  fro_estimate (fst (fst (Equil_diag SinkhornKnopp kNormEquilibrate A d e)))
  <> 0 ->
  Equil DEBUG SinkhornKnopp Norm2Est A d e = Done (st, A', d', e') ->
  is_char trans "n" || is_char trans "N" || is_char trans "t"
  || is_char trans "T" = true ->
  length y = (if is_char trans "n" || is_char trans "N" then _m A else _n A) ->
  (forall i j,
     dense_entry (row_half_triples A') i j
     = nth i d' 0 * dense_entry (row_half_triples A) i j * nth j e' 0)
  /\ Mul DEBUG A' trans alpha x beta y
     = Done (0%Z,
             product_reference (scale_triples d' e' (row_half_triples A))
               (_m A) (_n A) trans alpha x beta y).
Proof.
  intros HI Hne HE Ht Ly.
  destruct (Equil_triples DEBUG SinkhornKnopp Norm2Est A A' d e d' e' st HI
              Hne HE) as (HI' & Em & En & Hr).
  split.
  - intros i j. rewrite Hr. apply dense_entry_scale.
  - destruct (Mul_dense DEBUG A' trans alpha beta x y HI') as [Hnn Htt].
    unfold product_reference. rewrite <- Hr, <- Em, <- En.
    rewrite <- Em, <- En in Ly.
    destruct (is_char trans "n" || is_char trans "N") eqn:En'.
    + now apply Hnn.
    + apply Htt; [|exact Ly]. cbn [orb] in Ht. exact Ht.
Qed.

Lemma Mul_after_Equil_witness :
  Initialized scenario_matrix
  /\ fro_estimate
       (fst (fst (Equil_diag unit_scales kNormEquilibrate scenario_matrix
                             [0; 0] [0; 0]))) <> 0
  /\ exists A' d' e',
       Equil false unit_scales no_estimate scenario_matrix [0; 0] [0; 0]
       = Done (0%Z, A', d', e')
       /\ Mul false A' "n" 1 [1; 1] 0 [0; 0]
          = Done (0%Z,
                  product_reference
                    (scale_triples d' e' (row_half_triples scenario_matrix))
                    2 2 "n" 1 [1; 1] 0 [0; 0]).
Proof.
  split; [exact scenario_Initialized|]. split; [exact scenario_estimate|].
  pose proof (Equil_unfold false unit_scales no_estimate scenario_matrix
                [0; 0] [0; 0] eq_refl) as HE.
  cbv zeta in HE. eexists _, _, _. split; [exact HE|].
  exact (proj2 (Mul_after_Equil false unit_scales no_estimate scenario_matrix
                  _ [0; 0] [0; 0] _ _ 0%Z "n" 1 0 [1; 1] [0; 0]
                  scenario_Initialized scenario_estimate HE eq_refl eq_refl)).
Defined.

(** X7.  After [Equil] on an initialized matrix (estimate [normA] not 0)
    the returned [d'[i]], [i < m], and [e'[j]], [j < n], are not negative;
    every cell [k] of the value buffer holds
    [d'[row k] * old value * e'[column k]]; so no entry changes its sign and
    a stored zero stays zero. *)
Theorem Equil_keeps_signs (DEBUG : bool) (SinkhornKnopp : SinkhornKnopp_t)
  (Norm2Est : Norm2Est_t) (A A' : MatrixSparse) (d e d' e' : list R)
  (st : Z) :
  Initialized A ->
  fro_estimate (fst (fst (Equil_diag SinkhornKnopp kNormEquilibrate A d e)))
  <> 0 ->
  Equil DEBUG SinkhornKnopp Norm2Est A d e = Done (st, A', d', e') ->
  (forall i, (i < _m A)%nat -> 0 <= nth i d' 0)
  /\ (forall j, (j < _n A)%nat -> 0 <= nth j e' 0)
  /\ forall k, (k < 2 * _nnz A)%nat ->
       nth k (_data A') 0
       = nth (cell_row A k) d' 0 * nth k (_data A) 0
         * nth (cell_col A k) e' 0
       /\ 0 <= nth k (_data A) 0 * nth k (_data A') 0
       /\ (nth k (_data A) 0 = 0 -> nth k (_data A') 0 = 0).
Proof.
  intros (Hd & Hok & _) Hne HE.
  destruct (Equil_cells_of DEBUG SinkhornKnopp Norm2Est A A' d e d' e' st Hd
              Hok HE) as (-> & -> & -> & data' & -> & L & C).
  destruct (Equil_scales_nonneg SinkhornKnopp A d e) as [Nd Ne].
  revert C Hne.
  set (sc := Equil_scales SinkhornKnopp kNormEquilibrate A d e) in *.
  set (normA := fro_estimate _). intros C Hne.
  assert (Hpos : 0 < normA).
  { pose proof (fro_estimate_nonneg
                  (fst (fst (Equil_diag SinkhornKnopp kNormEquilibrate A d
                                        e)))) as H.
    fold normA in H. lra. }
  assert (Hs : 0 < 1 / sqrt normA).
  { apply Rdiv_lt_0_compat; [lra|now apply sqrt_lt_R0]. }
  assert (Hss : 1 / sqrt normA * (1 / sqrt normA) = 1 / normA)
    by now apply inv_sqrt_square.
  split; [|split].
  - intros i Hi. rewrite nth_vector_scale by exact Hi.
    apply Rmult_le_pos; [now apply Nd|lra].
  - intros j Hj. rewrite nth_vector_scale by exact Hj.
    apply Rmult_le_pos; [now apply Ne|lra].
  - intros k Hk. cbn [set_data _data].
    destruct (cell_bounds A k Hok Hk) as [Hr Hc].
    rewrite !nth_vector_scale by assumption.
    rewrite C by exact Hk. rewrite <- Hss.
    specialize (Nd _ Hr). specialize (Ne _ Hc).
    set (a := nth k (_data A) 0). set (u := nth (cell_row A k) (fst sc) 0) in *.
    set (v := nth (cell_col A k) (snd sc) 0) in *.
    set (s := 1 / sqrt normA) in *.
    split; [ring|]. split.
    + replace (a * (a * (u * v) * (s * s))) with ((a * a) * ((u * v) * (s * s)))
        by ring.
      apply Rmult_le_pos; [nra|].
      apply Rmult_le_pos; [now apply Rmult_le_pos|nra].
    + intros ->. ring.
Qed.

Lemma Equil_keeps_signs_witness :
  Initialized scenario_matrix
  /\ fro_estimate
       (fst (fst (Equil_diag unit_scales kNormEquilibrate scenario_matrix
                             [0; 0] [0; 0]))) <> 0
  /\ exists A' d' e',
       Equil false unit_scales no_estimate scenario_matrix [0; 0] [0; 0]
       = Done (0%Z, A', d', e')
       /\ 0 <= nth 0 d' 0
       /\ 0 <= nth 1 (_data scenario_matrix) 0 * nth 1 (_data A') 0.
Proof.
  split; [exact scenario_Initialized|]. split; [exact scenario_estimate|].
  pose proof (Equil_unfold false unit_scales no_estimate scenario_matrix
                [0; 0] [0; 0] eq_refl) as HE.
  cbv zeta in HE. eexists _, _, _. split; [exact HE|].
  destruct (Equil_keeps_signs false unit_scales no_estimate scenario_matrix
              _ [0; 0] [0; 0] _ _ 0%Z scenario_Initialized
              scenario_estimate HE) as (Hd & _ & Hk).
  split.
  - apply Hd. cbn. lia.
  - apply (Hk 1%nat). cbn. lia.
Defined.

(** ** Construction, initialization and multiplication *)

(** X8.  For a matrix constructed from valid arrays with either order tag,
    [Init] returns status 0 and [Mul] then returns status 0 and
    [alpha * op(A) * x + beta * y] for the matrix [A] denoted by the caller's
    arrays. *)
Theorem Mul_after_Init (DEBUG : bool) (ord : ascii) (m n nnz : nat)
  (data : list R) (ptr ind : list nat) (A0 : MatrixSparse) (trans : ascii)
  (alpha beta : R) (x y : list R) :
  MatrixSparse_new ord m n nnz data ptr ind = Done A0 ->
  valid_input A0 = true ->
  is_char trans "n" || is_char trans "N" || is_char trans "t"
  || is_char trans "T" = true ->
  length y = (if is_char trans "n" || is_char trans "N" then m else n) ->
  exists A,
    Init DEBUG A0 = Done (0%Z, A)
    /\ Mul DEBUG A trans alpha x beta y
       = Done (0%Z, product_reference (input_triples A0) m n trans alpha x
                                      beta y).
Proof.
  intros Hnew Hv Ht Ly.
  destruct (MatrixSparse_new_fields _ _ _ _ _ _ _ _ Hnew) as [E0 _].
  assert (Hd : _done_init A0 = false) by (rewrite E0; reflexivity).
  assert (Hm : _m A0 = m) by (rewrite E0; reflexivity).
  assert (Hn : _n A0 = n) by (rewrite E0; reflexivity).
  destruct (Init_then_Mul DEBUG A0 Hd Hv) as (A & HI & HM).
  exists A. split; [exact HI|]. rewrite <- Hm, <- Hn. apply HM; [exact Ht|].
  now rewrite Hm, Hn.
Qed.

Lemma Mul_after_Init_witness :
  exists A,
    Init false scenario_input = Done (0%Z, A)
    /\ Mul false A "T" 2 [1; 1] 3 [5; 7]
       = Done (0%Z, product_reference (input_triples scenario_input) 2 2 "T"
                                      2 [1; 1] 3 [5; 7]).
Proof.
  apply (Mul_after_Init false "r" 2 2 3 [4; 2; 3] [0; 2; 3]%nat
           [0; 1; 1]%nat scenario_input "T" 2 3 [1; 1] [5; 7]);
    reflexivity.
Defined.

(** X9.  The arrays of an [m] x [n] matrix in row order, given to the
    constructor as an [n] x [m] matrix in column order, give the transpose:
    after [Init], [Mul] with flag n on the one returns what [Mul] with flag
    t returns on the other, and conversely. *)
Theorem Mul_transpose_duality (DEBUG : bool) (m n nnz : nat) (data : list R)
  (ptr ind : list nat) (Ar0 Ac0 : MatrixSparse) (alpha beta : R)
  (x y y' : list R) :
  MatrixSparse_new "r" m n nnz data ptr ind = Done Ar0 ->
  MatrixSparse_new "c" n m nnz data ptr ind = Done Ac0 ->
  valid_input Ar0 = true ->
  length y = n -> length y' = m ->
  exists Ar Ac,
    Init DEBUG Ar0 = Done (0%Z, Ar) /\ Init DEBUG Ac0 = Done (0%Z, Ac)
    /\ Mul DEBUG Ac "n" alpha x beta y = Mul DEBUG Ar "t" alpha x beta y
    /\ Mul DEBUG Ac "t" alpha x beta y' = Mul DEBUG Ar "n" alpha x beta y'.
Proof.
  intros Hr Hc Hv Ly Ly'.
  destruct (MatrixSparse_new_fields _ _ _ _ _ _ _ _ Hr) as [Er _].
  destruct (MatrixSparse_new_fields _ _ _ _ _ _ _ _ Hc) as [Ec _].
  cbn in Er, Ec.
  assert (Hvc : valid_input Ac0 = true) by (rewrite Ec, <- Hv, Er; reflexivity).
  destruct (Init_then_Mul DEBUG Ar0 ltac:(rewrite Er; reflexivity) Hv)
    as (Ar & HIr & HMr).
  destruct (Init_then_Mul DEBUG Ac0 ltac:(rewrite Ec; reflexivity) Hvc)
    as (Ac & HIc & HMc).
  exists Ar, Ac. split; [exact HIr|]. split; [exact HIc|].
  assert (HT : input_triples Ac0 = map swap_entry (input_triples Ar0))
    by (rewrite Er, Ec; reflexivity).
  assert (Dr : _m Ar0 = m /\ _n Ar0 = n) by (rewrite Er; now split).
  assert (Dc : _m Ac0 = n /\ _n Ac0 = m) by (rewrite Ec; now split).
  destruct Dr as [Dr1 Dr2]. destruct Dc as [Dc1 Dc2].
  split.
  - rewrite (HMc "n"%char), (HMr "t"%char);
      [|reflexivity|cbn; congruence|reflexivity|cbn; congruence].
    unfold product_reference. cbn [is_char Ascii.eqb Bool.eqb orb andb].
    rewrite HT, Dr1, Dr2, Dc1, Dc2, dense_mul_swap. reflexivity.
  - rewrite (HMc "t"%char), (HMr "n"%char);
      [|reflexivity|cbn; congruence|reflexivity|cbn; congruence].
    unfold product_reference. cbn [is_char Ascii.eqb Bool.eqb orb andb].
    rewrite HT, Dr1, Dr2, Dc1, Dc2, dense_mul_t_swap. reflexivity.
Qed.

Lemma Mul_transpose_duality_witness :
  exists Ar Ac,
    Init false scenario_input = Done (0%Z, Ar)
    /\ Init false
         (mkMatrixSparse 2 2 (mkCpuData [4; 2; 3] [0; 2; 3]%nat [0; 1; 1]%nat)
                         false [] [] [] 3 COL) = Done (0%Z, Ac)
    /\ Mul false Ac "n" 2 [1; 1] 3 [5; 7] = Mul false Ar "t" 2 [1; 1] 3 [5; 7]
    /\ Mul false Ac "t" 2 [1; 1] 3 [5; 7] = Mul false Ar "n" 2 [1; 1] 3 [5; 7].
Proof.
  apply (Mul_transpose_duality false 2 2 3 [4; 2; 3] [0; 2; 3]%nat
           [0; 1; 1]%nat scenario_input
           (mkMatrixSparse 2 2
              (mkCpuData [4; 2; 3] [0; 2; 3]%nat [0; 1; 1]%nat)
              false [] [] [] 3 COL) 2 3 [1; 1] [5; 7] [5; 7]);
    reflexivity.
Defined.

(** X10.  With a flag other than n, N, t, T, [Mul] on an initialized matrix
    fails the assertion of [OpToCblasOp] in every build; on a matrix that is
    not initialized the flag is not looked at: status 1 and [y] as it was in
    a release build, the failed [DEBUG_ASSERT] in a debug build. *)
Theorem Mul_bad_flag (DEBUG : bool) (A : MatrixSparse) (trans : ascii)
  (alpha beta : R) (x y : list R) :
  is_char trans "n" || is_char trans "N" || is_char trans "t"
  || is_char trans "T" = false ->
  Mul DEBUG A trans alpha x beta y
  = if _done_init A then Fatal
    else if DEBUG then Fatal else Done (1%Z, y).
Proof.
  intro Hf. unfold Mul, OpToCblasOp. rewrite Hf.
  destruct (_done_init A), DEBUG; cbn [DEBUG_ASSERT ASSERT bind negb];
    try reflexivity;
    destruct (is_char trans "n" || is_char trans "N"); reflexivity.
Qed.

Lemma Mul_bad_flag_witness :
  Mul false scenario_matrix "x" 1 [1; 1] 0 [8; 9] = Fatal
  /\ Mul false scenario_input "x" 1 [1; 1] 0 [8; 9] = Done (1%Z, [8; 9]).
Proof.
  split.
  - exact (Mul_bad_flag false scenario_matrix "x" 1 0 [1; 1] [8; 9] eq_refl).
  - exact (Mul_bad_flag false scenario_input "x" 1 0 [1; 1] [8; 9] eq_refl).
Defined.

(** X11.  On a matrix that is not initialized and that borrows valid
    arrays, [Init] returns status 0: the flag is set, the three owned buffers
    have [2 * nnz], [2 * nnz] and [m + n + 2] cells and are well shaped, the
    dimensions, [nnz], the order and the borrowed input are kept, and a
    further [Init] (release build) returns status 1 and the same matrix. *)
Theorem Init_buffers (DEBUG : bool) (A : MatrixSparse) :
  _done_init A = false -> valid_input A = true ->
  exists A',
    Init DEBUG A = Done (0%Z, A')
    /\ _done_init A' = true
    /\ length (_data A') = (2 * _nnz A)%nat
    /\ length (_ind A') = (2 * _nnz A)%nat
    /\ length (_ptr A') = (_m A + _n A + 2)%nat
    /\ storage_ok A' = true
    /\ _m A' = _m A /\ _n A' = _n A /\ _nnz A' = _nnz A /\ _ord A' = _ord A
    /\ _info A' = _info A
    /\ Init false A' = Done (1%Z, A').
Proof.
  intros Hd Hv.
  destruct (Init_Initialized DEBUG A Hd Hv)
    as (A1 & HI1 & (Hdi & Hok & _) & Em & En & Ennz & Eo & _).
  assert (Ei : _info A1 = _info A).
  { pose proof HI1 as HI. rewrite (Init_unfold DEBUG A Hd) in HI.
    cbv zeta in HI. injection HI as <-. reflexivity. }
  destruct (storage_ok_shape A1 Hok) as [Sd Si Sp _ _ _ _ _ _ _ _].
  rewrite Ennz in Sd, Si. rewrite Em, En in Sp.
  exists A1. repeat split; try assumption.
  unfold Init. rewrite Hdi. reflexivity.
Qed.

Lemma Init_buffers_witness :
  exists A',
    Init true scenario_input = Done (0%Z, A')
    /\ length (_data A') = 6%nat /\ length (_ptr A') = 6%nat
    /\ storage_ok A' = true.
Proof.
  destruct (Init_buffers true scenario_input eq_refl eq_refl)
    as (A' & H & _ & H1 & _ & H2 & H3 & _).
  exists A'. split; [exact H|]. split; [exact H1|]. split; [exact H2|exact H3].
Defined.

(** X12.  A copy of a matrix is not initialized and owns no buffer, and it
    borrows the caller's arrays, not the values of the matrix it copies:
    [Init] on the copy of an initialized and then equilibrated matrix gives
    the matrix [Init] gave at first, without the scaling of [Equil].  Before
    [Init], [Mul] on the copy returns status 1 (release build). *)
Theorem copy_restarts_from_input (DEBUG : bool)
  (SinkhornKnopp : SinkhornKnopp_t) (Norm2Est : Norm2Est_t)
  (A0 A1 A2 : MatrixSparse) (d e d' e' : list R) (st0 st : Z) :
  _done_init A0 = false ->
  Init DEBUG A0 = Done (st0, A1) ->
  Equil DEBUG SinkhornKnopp Norm2Est A1 d e = Done (st, A2, d', e') ->
  _done_init (MatrixSparse_copy A2) = false
  /\ _data (MatrixSparse_copy A2) = []
  /\ Init DEBUG (MatrixSparse_copy A1) = Done (0%Z, A1)
  /\ Init DEBUG (MatrixSparse_copy A2) = Done (0%Z, A1)
  /\ forall trans alpha x beta y,
       Mul false (MatrixSparse_copy A2) trans alpha x beta y = Done (1%Z, y).
Proof.
  intros Hd HI HE.
  rewrite (Init_unfold DEBUG A0 Hd) in HI. cbv zeta in HI.
  assert (E1 : A1 = mkMatrixSparse (_m A0) (_n A0) (_info A0) true
                 (fst (fst (spmat_memcpy (primary_dim A0) (secondary_dim A0)
                              (_nnz A0) (orig_data (_info A0))
                              (orig_ind (_info A0)) (orig_ptr (_info A0)))))
                 (snd (spmat_memcpy (primary_dim A0) (secondary_dim A0)
                         (_nnz A0) (orig_data (_info A0))
                         (orig_ind (_info A0)) (orig_ptr (_info A0))))
                 (snd (fst (spmat_memcpy (primary_dim A0) (secondary_dim A0)
                              (_nnz A0) (orig_data (_info A0))
                              (orig_ind (_info A0)) (orig_ptr (_info A0)))))
                 (_nnz A0) (_ord A0)) by congruence.
  assert (Hd1 : _done_init A1 = true) by (rewrite E1; reflexivity).
  destruct (Equil_fields DEBUG SinkhornKnopp Norm2Est A1 A2 d e d' e' st Hd1
              HE) as (Em & En & Ennz & Eo & Ei).
  assert (Hc1 : Init DEBUG (MatrixSparse_copy A1) = Done (0%Z, A1)).
  { rewrite Init_unfold by reflexivity. cbv zeta.
    unfold MatrixSparse_copy, primary_dim, secondary_dim.
    cbn [_m _n _nnz _ord _info orig_data orig_ind orig_ptr].
    rewrite E1. cbn [_m _n _nnz _ord _info].
    unfold primary_dim, secondary_dim. destruct (_info A0). reflexivity. }
  split; [reflexivity|]. split; [reflexivity|]. split; [exact Hc1|].
  split.
  - rewrite <- Hc1 at 1. f_equal. unfold MatrixSparse_copy.
    now rewrite Em, En, Ennz, Eo, Ei.
  - intros. reflexivity.
Qed.

Lemma copy_restarts_from_input_witness :
  Init false scenario_input = Done (0%Z, scenario_matrix)
  /\ exists A2 d' e',
       Equil false unit_scales no_estimate scenario_matrix [0; 0] [0; 0]
       = Done (0%Z, A2, d', e')
       /\ Init false (MatrixSparse_copy A2) = Done (0%Z, scenario_matrix).
Proof.
  split; [reflexivity|].
  pose proof (Equil_unfold false unit_scales no_estimate scenario_matrix
                [0; 0] [0; 0] eq_refl) as HE.
  cbv zeta in HE. eexists _, _, _. split; [exact HE|].
  destruct (copy_restarts_from_input false unit_scales no_estimate
              scenario_input scenario_matrix _ [0; 0] [0; 0] _ _ 0%Z 0%Z
              eq_refl eq_refl HE) as (_ & _ & _ & H & _).
  exact H.
Defined.

(** ** Norm estimation *)

(** X13.  For a matrix with at least one row and one column, the Frobenius
    request of [NormEst] returns an estimate that is not negative, that is 0
    exactly when the first [nnz] values are all 0, and that is multiplied by
    [|c|] when every value is multiplied by [c]. *)
Theorem frobenius_estimate_facts (Norm2Est : Norm2Est_t) (A : MatrixSparse) :
  (0 < _m A)%nat -> (0 < _n A)%nat ->
  exists v,
    NormEst Norm2Est kNormFro A = Done v
    /\ 0 <= v
    /\ (v = 0 <-> Forall (fun a => a = 0) (firstn (_nnz A) (_data A)))
    /\ forall c,
         NormEst Norm2Est kNormFro
                 (set_data A (map (fun a => a * c) (_data A)))
         = Done (Rabs c * v).
Proof.
  intros Hm Hn. unfold NormEst. eexists. split; [reflexivity|].
  set (q := sqrt (INR (Nat.min (_m A) (_n A)))).
  assert (Hq : 0 < q).
  { apply sqrt_lt_R0. apply lt_0_INR. lia. }
  pose proof (sum_squares_nonneg (firstn (_nnz A) (_data A))) as Hs.
  unfold blas_nrm2. split; [|split].
  - apply Rmult_le_pos; [apply sqrt_pos|]. left. now apply Rinv_0_lt_compat.
  - rewrite <- sum_squares_zero. split.
    + intro H. apply sqrt_eq_0; [exact Hs|].
      apply (Rmult_eq_reg_r (/ q)); [|apply Rinv_neq_0_compat; lra].
      unfold Rdiv in H. lra.
    + intros ->. rewrite sqrt_0. unfold Rdiv. ring.
  - intro c. cbn [set_data _nnz _data _m _n]. fold q. f_equal.
    rewrite firstn_map, sum_squares_scale.
    rewrite sqrt_mult by (nra || exact Hs).
    change (c * c) with (Rsqr c). rewrite sqrt_Rsqr_abs. unfold Rdiv. ring.
Qed.

Lemma frobenius_estimate_facts_witness :
  exists v,
    NormEst no_estimate kNormFro scenario_matrix = Done v
    /\ 0 <= v
    /\ NormEst no_estimate kNormFro
               (set_data scenario_matrix
                  (map (fun a => a * -2) (_data scenario_matrix)))
       = Done (Rabs (-2) * v).
Proof.
  destruct (frobenius_estimate_facts no_estimate scenario_matrix)
    as (v & H1 & H2 & _ & H3); [cbn; lia|cbn; lia|].
  exists v. split; [exact H1|]. split; [exact H2|apply H3].
Defined.

(** ** The view of [y] *)

(** X14.  On an initialized matrix [Mul] writes the first [m] cells of [y]
    (flag n, N) or the first [n] (flag t, T) and no other: with a longer [y]
    it returns the result for that prefix followed by the further cells of
    [y] as they were. *)
Theorem Mul_touches_view (DEBUG : bool) (A : MatrixSparse) (trans : ascii)
  (alpha beta : R) (x y : list R) :
  _done_init A = true ->
  is_char trans "n" || is_char trans "N" || is_char trans "t"
  || is_char trans "T" = true ->
  let len := if is_char trans "n" || is_char trans "N" then _m A else _n A in
  (len <= length y)%nat ->
  exists r0,
    Mul DEBUG A trans alpha x beta (firstn len y) = Done (0%Z, r0)
    /\ length r0 = len
    /\ Mul DEBUG A trans alpha x beta y = Done (0%Z, r0 ++ skipn len y).
Proof.
  intros Hd Ht len Hlen. unfold Mul, OpToCblasOp.
  rewrite Hd, Ht, DEBUG_ASSERT_true. cbn [negb bind ASSERT]. subst len.
  destruct (is_char trans "n" || is_char trans "N");
    match goal with
    | |- context [spblas_gemv ?O ?op _ ?m ?n ?nnz ?val ?ind ?ptr
                              (vector_view_array _ ?k) _
                              (vector_view_array y ?l)] =>
        destruct (spblas_gemv_view O op alpha beta m n nnz val ind ptr
                    (vector_view_array x k) y l Hlen) as [L E]
    end; eexists; (split; [reflexivity|]); (split; [exact L|]);
    now rewrite E.
Qed.

Lemma Mul_touches_view_witness :
  exists r0,
    Mul false scenario_matrix "n" 1 [1; 1] 0 [8; 9] = Done (0%Z, r0)
    /\ Mul false scenario_matrix "n" 1 [1; 1] 0 [8; 9; 10; 11]
       = Done (0%Z, r0 ++ [10; 11]).
Proof.
  destruct (Mul_touches_view false scenario_matrix "n" 1 0 [1; 1]
              [8; 9; 10; 11] eq_refl eq_refl) as (r0 & H0 & _ & H);
    [cbn; lia|].
  exists r0. split; [exact H0|exact H].
Defined.
